(** * ManchAI: the scene-turn pipeline

    A shallow embedding of the turn endpoint ([src/pages/api/scene/turn.ts]),
    the fallback generator ([src/lib/mockDirector.ts]), the placeholder
    speech step ([src/lib/mockTTS.ts]), the default scene
    ([src/lib/sceneUtils.ts]) and the heuristic summarizer
    ([src/lib/summarizeScene.ts]).

    Conventions of the embedding.
    - A JavaScript string is a [string]; its characters stand for the code
      units U+0000..U+00FF, so [String.length] is the JavaScript [length].
    - Integer-valued [number] fields (beat indices, timestamps) are [Z];
      array lengths and indices are [nat].
    - A [Map] that is only looked up is a [gmap]; the one [Map] whose
      iteration order is observed is an insertion-ordered association list.
    - What the endpoint gets from outside (the Director's reply, every
      speech-synthesis outcome, the clock, the random draw) is gathered in a
      [World.t] record and passed explicitly. *)

From Stdlib Require Import ZArith NArith Ascii Strings.Byte DecimalString DecimalNat.
From stdpp Require Import gmap strings list sorting.

(** ** JavaScript string primitives used by the sources *)

Module Js.

(** [\w] of a non-unicode regular expression: [A-Za-z0-9_]. *)
Definition is_word_char (c : ascii) : bool :=
  let n := nat_of_ascii c in
  ((48 <=? n) && (n <=? 57)) || ((65 <=? n) && (n <=? 90))
  || (n =? 95) || ((97 <=? n) && (n <=? 122)).

(** [toLowerCase] on one code unit below U+0100: A-Z, and the letters
    U+00C0..U+00DE except the multiplication sign U+00D7. *)
Definition lower_char (c : ascii) : ascii :=
  let n := nat_of_ascii c in
  if ((65 <=? n) && (n <=? 90))
     || ((192 <=? n) && (n <=? 222) && negb (n =? 215))
  then ascii_of_nat (n + 32) else c.

(** [toUpperCase] on an ASCII code unit (the only use in the sources is
    on the first letter of a genre constant). *)
Definition upper_char (c : ascii) : ascii :=
  let n := nat_of_ascii c in
  if (97 <=? n) && (n <=? 122) then ascii_of_nat (n - 32) else c.

(** The case folding an [/i] flag applies when the pattern is made of
    ASCII letters: only A-Z and a-z are identified. *)
Definition fold_char (c : ascii) : ascii :=
  let n := nat_of_ascii c in
  if (65 <=? n) && (n <=? 90) then ascii_of_nat (n + 32) else c.

Fixpoint map_chars (f : ascii → ascii) (s : string) : string :=
  match s with
  | EmptyString => EmptyString
  | String c r => String (f c) (map_chars f r)
  end.

Definition toLowerCase : string → string := map_chars lower_char.

(** White space and line terminators recognised by [trim], below U+0100. *)
Definition is_space (c : ascii) : bool :=
  let n := nat_of_ascii c in
  ((9 <=? n) && (n <=? 13)) || (n =? 32) || (n =? 160).

Fixpoint trimStart (s : string) : string :=
  match s with
  | EmptyString => EmptyString
  | String c r => if is_space c then trimStart r else s
  end.

Fixpoint trimEnd (s : string) : string :=
  match s with
  | EmptyString => EmptyString
  | String c r =>
      match trimEnd r with
      | EmptyString => if is_space c then EmptyString else String c EmptyString
      | r' => String c r'
      end
  end.

Definition trim (s : string) : string := trimEnd (trimStart s).

(** A string in a boolean position: the empty string is falsy. *)
Definition truthy (s : string) : bool :=
  match s with EmptyString => false | String _ _ => true end.

(** [s.includes(t)] *)
Fixpoint includes (s t : string) : bool :=
  String.prefix t s
  || match s with
     | EmptyString => false
     | String _ r => includes r t
     end.

(** [s.substring(0, k)] *)
Definition substring0 (k : nat) (s : string) : string := String.substring 0 k s.

(** [s.slice(1)] *)
Definition slice1 (s : string) : string :=
  match s with EmptyString => EmptyString | String _ r => r end.

(** [c.repeat(n)] for a one-character string *)
Fixpoint repeat (c : ascii) (n : nat) : string :=
  match n with
  | 0 => EmptyString
  | S n' => String c (repeat c n')
  end.

Definition first_char (s : string) : option ascii :=
  match s with EmptyString => None | String c _ => Some c end.

Fixpoint drop_chars (n : nat) (s : string) : string :=
  match n, s with
  | S n', String _ r => drop_chars n' r
  | _, _ => s
  end.

Fixpoint last_char (before : option ascii) (s : string) : option ascii :=
  match s with
  | EmptyString => before
  | String c r => last_char (Some c) r
  end.

(** [s.split(/[...]+/)] for a character class [sep]: the pieces between
    the maximal runs of separators, empty pieces at both ends included. *)
Fixpoint split_go (sep : ascii → bool) (cur : string) (in_run : bool)
    (s : string) : list string :=
  match s with
  | EmptyString => [String.rev cur]
  | String c r =>
      if sep c then
        if in_run then split_go sep cur true r
        else String.rev cur :: split_go sep EmptyString true r
      else split_go sep (String c cur) false r
  end.

Definition split_runs (sep : ascii → bool) (s : string) : list string :=
  split_go sep EmptyString false s.

(** *** Regular expressions of the shape [/\b(k1|...|kn)\b/] *)

Definition is_word_opt (o : option ascii) : bool :=
  match o with Some c => is_word_char c | None => false end.

(** [\b] between the characters [before] and [after]. *)
Definition word_boundary (before after : option ascii) : bool :=
  xorb (is_word_opt before) (is_word_opt after).

(** An attempt at one position: [before] is the character to the left,
    [s] the rest of the input. *)
Definition alt_here (kws : list string) (before : option ascii) (s : string) : bool :=
  word_boundary before (first_char s)
  && existsb (λ k, String.prefix k s
                   && word_boundary (last_char before k)
                                    (first_char (drop_chars (String.length k) s))) kws.

Fixpoint search_from (kws : list string) (before : option ascii) (s : string) : bool :=
  alt_here kws before s
  || match s with
     | EmptyString => false
     | String c r => search_from kws (Some c) r
     end.

(** [s.match(/\b(k1|...|kn)\b/)] used as a condition. *)
Definition match_words (kws : list string) (s : string) : bool :=
  search_from kws None s.

(** [s.match(/\b(k1|...|kn)\b/i)] for lower-case ASCII keywords. *)
Definition match_words_i (kws : list string) (s : string) : bool :=
  match_words kws (map_chars fold_char s).

(** Template-literal rendering of integers. *)
Definition string_of_nat (n : nat) : string :=
  NilZero.string_of_uint (Nat.to_uint n).

Definition string_of_Z (z : Z) : string :=
  NilZero.string_of_int (Z.to_int z).

(** [l.slice(-n)] *)
Definition slice_last {A} (n : nat) (l : list A) : list A :=
  drop (length l - n) l.

(** [new Map(entries)]: later entries overwrite earlier ones. *)
Definition map_of {V} (entries : list (string * V)) : gmap string V :=
  foldl (λ m kv, <[kv.1 := kv.2]> m) ∅ entries.

(** A [Map] whose iteration order matters: keys in insertion order. *)
Definition omap (V : Type) : Type := list (string * V).

Definition omap_get {V} (m : omap V) (k : string) : option V :=
  snd <$> find (λ kv, bool_decide (kv.1 = k)) m.

Definition omap_has {V} (m : omap V) (k : string) : bool :=
  bool_decide (is_Some (omap_get m k)).

Fixpoint omap_set {V} (m : omap V) (k : string) (v : V) : omap V :=
  match m with
  | [] => [(k, v)]
  | (k', v') :: r =>
      if bool_decide (k' = k) then (k', v) :: r else (k', v') :: omap_set r k v
  end.

(** [l.sort(cmp)]: the sort is stable, so for a comparator that is a
    total preorder the result is the one of a stable insertion sort. *)
Fixpoint sort_insert {A} (cmp : A → A → Z) (x : A) (l : list A) : list A :=
  match l with
  | [] => [x]
  | y :: r => if (cmp x y <=? 0)%Z then x :: l else y :: sort_insert cmp x r
  end.

Definition sort {A} (cmp : A → A → Z) (l : list A) : list A :=
  foldr (sort_insert cmp) [] l.

End Js.

(** ** Data model ([src/types/scene.ts]) *)

Inductive LanguageCode := en | es | fr | de | it | ja | zh | ko | hi | mixed.

Inductive ActorRole := protagonist | antagonist | supporting | narrator | ensemble.

Module Actor.
Record t := mk {
  id : string;
  name : string;
  role : ActorRole;
  language : LanguageCode;
  voiceId : string;
  style : string
}.
End Actor.

Module Line.
Record t := mk {
  id : string;
  actorId : string;
  text : string;
  timestamp : Z;
  beatIndex : Z;
  audioUrl : string
}.

(** [{ ...line, audioUrl }] *)
Definition with_audioUrl (l : t) (url : string) : t :=
  mk (id l) (actorId l) (text l) (timestamp l) (beatIndex l) url.
End Line.

Module SceneState.
Record t := mk {
  id : string;
  title : string;
  genre : string;
  setting : string;
  logline : string;
  summary : string;
  actors : list Actor.t;
  lines : list Line.t;
  createdAt : Z;
  updatedAt : Z
}.
End SceneState.

(** ** The scene summarizer ([src/lib/summarizeScene.ts]) *)

Module Summarizer.

Inductive Tone := neutral | tense | positive | somber | inquisitive.

Definition anger_words : list string := ["angry"; "mad"; "furious"; "rage"; "hate"].
Definition joy_words : list string := ["happy"; "joy"; "excited"; "great"; "wonderful"].
Definition sorrow_words : list string := ["sad"; "sorry"; "regret"; "disappointed"; "worried"].
Definition question_words : list string := ["question"; "why"; "what"; "how"; "confused"].
Definition intent_words : list string :=
  ["will"; "must"; "should"; "need"; "want"; "going"; "decided"; "think"; "believe"].

(** [const recentLines = lines.slice(-10)] *)
Definition recentLines (lines : list Line.t) : list Line.t := Js.slice_last 10 lines.

(** The [forEach] that fills [linesByActor]. *)
Definition group_step (m : Js.omap (list Line.t)) (line : Line.t) : Js.omap (list Line.t) :=
  let actorId := Line.actorId line in
  let m1 := if Js.omap_has m actorId then m else Js.omap_set m actorId [] in
  Js.omap_set m1 actorId (default [] (Js.omap_get m1 actorId) ++ [line]).

Definition linesByActor (recent : list Line.t) : Js.omap (list Line.t) :=
  foldl group_step [] recent.

(** [(a, b) => b[1].length - a[1].length] *)
Definition by_line_count (a b : string * list Line.t) : Z :=
  (Z.of_nat (length b.2) - Z.of_nat (length a.2))%Z.

Definition speaker_name (actorMap : gmap string Actor.t) (actorId : string) : string :=
  match actorMap !! actorId with
  | Some actor => Actor.name actor
  | None => "Unknown"
  end.

Definition mainSpeakers (recent : list Line.t) (actors : list Actor.t) : list string :=
  let actorMap := Js.map_of ((λ actor, (Actor.id actor, actor)) <$> actors) in
  (λ entry, speaker_name actorMap entry.1)
    <$> take 3 (Js.sort by_line_count (linesByActor recent)).

(** [recentLines.map((line) => line.text).join(' ').toLowerCase()] *)
Definition allText (recent : list Line.t) : string :=
  Js.toLowerCase (String.concat " " (Line.text <$> recent)).

Definition classify (allText : string) : Tone :=
  if Js.match_words anger_words allText then tense
  else if Js.match_words joy_words allText then positive
  else if Js.match_words sorrow_words allText then somber
  else if Js.match_words question_words allText then inquisitive
  else neutral.

(** [toneDescriptions[tone] || ''] *)
Definition toneDescriptions (tone : Tone) : string :=
  match tone with
  | tense => "The conversation has become tense."
  | positive => "The mood is positive."
  | somber => "The atmosphere is somber."
  | inquisitive => "Questions are being raised."
  | neutral => ""
  end.

Definition speakers_part (speakers : list string) : list string :=
  match speakers with
  | [] => []
  | [a] => [a +:+ " has been speaking."]
  | [a; b] => [a +:+ " and " +:+ b +:+ " have been in dialogue."]
  | a :: b :: c :: _ => [a +:+ ", " +:+ b +:+ ", and " +:+ c +:+ " have been conversing."]
  end.

Definition phrase_of (text : string) : string :=
  Js.substring0 (Nat.min 80 (String.length text)) text.

(** The [forEach] that fills [keyPhrases]. *)
Definition keyPhrases (recent : list Line.t) : list string :=
  flat_map (λ line,
    let text := Line.text line in
    if Js.includes text "?" then [phrase_of text]
    else if Js.match_words_i intent_words text || (50 <? String.length text)
    then [phrase_of text]
    else []) recent.

Definition topics_part (phrases : list string) : list string :=
  if 0 <? length phrases then
    let topics := Js.substring0 120 (String.concat " " (take 2 phrases)) in
    ["Recent topics include: " +:+ topics +:+ "..."]
  else [].

Definition tone_part (tone : Tone) : list string :=
  match tone with
  | neutral => []
  | _ => [toneDescriptions tone]
  end.

(** [new Set(recentLines.map((line) => line.beatIndex)).size] *)
Definition beatCount (recent : list Line.t) : nat :=
  length (remove_dups (Line.beatIndex <$> recent)).

Definition beats_part (recent : list Line.t) : list string :=
  if 1 <? beatCount recent then
    ["The conversation has progressed through "
       +:+ Js.string_of_nat (beatCount recent) +:+ " beats."]
  else [].

Definition is_sentence_end (c : ascii) : bool :=
  match c with
  | "."%char | "!"%char | "?"%char => true
  | _ => false
  end.

Definition nonblank (s : string) : bool := 0 <? String.length (Js.trim s).

Definition prev_part (prevSummary : string) : list string :=
  if Js.truthy prevSummary && nonblank prevSummary then
    match filter (λ s, nonblank s = true) (Js.split_runs is_sentence_end prevSummary) with
    | first :: _ => ["Building on previous context: " +:+ Js.substring0 100 first +:+ "..."]
    | [] => []
    end
  else [].

(** The array [summaryParts] once every [push] has run. *)
Definition summaryParts (prevSummary : string) (recent : list Line.t)
    (actors : list Actor.t) : list string :=
  speakers_part (mainSpeakers recent actors)
  ++ topics_part (keyPhrases recent)
  ++ tone_part (classify (allText recent))
  ++ beats_part recent
  ++ prev_part prevSummary.

Definition finalSummary (prevSummary : string) (recent : list Line.t)
    (actors : list Actor.t) : string :=
  String.concat " "
    (take 5 (filter (λ part, nonblank part = true) (summaryParts prevSummary recent actors))).

Definition summarizeScene (prevSummary : string) (lines : list Line.t)
    (actors : list Actor.t) : string :=
  let recent := recentLines lines in
  if length recent =? 0 then
    if Js.truthy prevSummary then prevSummary else "Scene is beginning."
  else
    let final := finalSummary prevSummary recent actors in
    if Js.truthy prevSummary && nonblank prevSummary && (50 <? String.length final)
    then Js.substring0 800 (prevSummary +:+ " " +:+ final)
    else if Js.truthy final then final else "Scene dialogue is progressing.".

End Summarizer.

(** ** What the endpoint receives from outside *)

(** A value of [Math.random()]: a fraction [num / den] in [0, 1). *)
Module Random.
Record t := mk {
  num : N;
  den : positive;
  in_range : (num <? N.pos den)%N = true
}.

(** [Math.floor(r * n)] *)
Definition floor_times (r : t) (n : nat) : nat :=
  N.to_nat ((N.of_nat n * num r) / N.pos (den r)).
End Random.

(** ** The Director's reply ([src/lib/directorAgent.ts]) *)

(** ['en' | 'hi' | 'mixed'] *)
Inductive DirectorLanguage := lang_en | lang_hi | lang_mixed.

(** [0 | 1] *)
Inductive BeatDelta := same_beat | next_beat.

Definition beatDelta_value (d : BeatDelta) : Z :=
  match d with same_beat => 0 | next_beat => 1 end.

Module SceneMetadata.
Record t := mk {
  title : string;
  genre : string;
  setting : string;
  logline : string
}.
End SceneMetadata.

Module ActorUpdate.
Record t := mk {
  id : string;
  language : DirectorLanguage;
  style : string
}.
End ActorUpdate.

Module NewLine.
Record t := mk {
  actorId : string;
  language : DirectorLanguage;
  text : string;
  beatDelta : BeatDelta
}.
End NewLine.

(** The parsed JSON object; a key that is absent is [None]. *)
Module DirectorResponse.
Record t := mk {
  sceneMetadata : option SceneMetadata.t;
  updatedActors : option (list ActorUpdate.t);
  newLines : option (list NewLine.t)
}.
End DirectorResponse.

Module DirectorAgent.

Definition convertLanguage (lang : DirectorLanguage) : LanguageCode :=
  match lang with lang_en => en | lang_hi => hi | lang_mixed => mixed end.

(** [runDirectorAgent] after the network exchange: [reply] is what
    [JSON.parse] produced, [None] when the key check, the request or the
    parse threw.  The structure check throws in turn when a required key
    is missing. *)
Definition runDirectorAgent (reply : option DirectorResponse.t)
    : option DirectorResponse.t :=
  match reply with
  | None => None
  | Some directorResponse =>
      match DirectorResponse.sceneMetadata directorResponse,
            DirectorResponse.newLines directorResponse with
      | Some _, Some _ => Some directorResponse
      | _, _ => None
      end
  end.

End DirectorAgent.

Module World.
Record t := mk {
  (** the completion as parsed by [runDirectorAgent], if any *)
  director_reply : option DirectorResponse.t;
  (** [synthesizeLine(text, voiceId, language)] for the line at a given
      position of the turn: the data URL, or [None] when it rejects *)
  synthesizeLine : nat → string → string → LanguageCode → option string;
  (** [Date.now()] in [createDefaultScene], at line creation and for [updatedAt] *)
  now_scene : Z;
  now_lines : Z;
  now_updated : Z;
  (** the [Math.random()] draw of the fallback generator *)
  random : Random.t
}.

Definition with_synthesizeLine (w : t)
    (f : nat → string → string → LanguageCode → option string) : t :=
  mk (director_reply w) f (now_scene w) (now_lines w) (now_updated w) (random w).

Definition with_director_reply (w : t) (r : option DirectorResponse.t) : t :=
  mk r (synthesizeLine w) (now_scene w) (now_lines w) (now_updated w) (random w).
End World.

(** ** The default scene ([src/lib/sceneUtils.ts]) *)

Definition defaultActors : list Actor.t :=
  [ Actor.mk "actor-1" "Alex" protagonist en "21m00Tcm4TlvDq8ikWAM" "dramatic";
    Actor.mk "actor-2" "Sam" antagonist en "pNInz6obpgDQGcFmaJgB" "neutral";
    Actor.mk "actor-3" "Jordan" supporting en "EXAVITQu4vr4xnSDxMaL" "comedic" ].

Definition createDefaultScene (now : Z) : SceneState.t :=
  SceneState.mk ("scene-" +:+ Js.string_of_Z now) "Untitled Scene" "drama"
    "A neutral location" "A scene begins." "Initial scene setup. Ready for dialogue."
    defaultActors [] now now.

(** ** The fallback generator ([src/lib/mockDirector.ts]) *)

Module MockDirector.

Definition MOCK_ACTORS : list Actor.t :=
  [ Actor.mk "actor-1" "Alex" protagonist en "voice-alex" "dramatic";
    Actor.mk "actor-2" "Sam" antagonist en "voice-sam" "neutral";
    Actor.mk "actor-3" "Jordan" supporting en "voice-jordan" "comedic" ].

Definition GENRES : list string :=
  ["drama"; "comedy"; "thriller"; "sci-fi"; "horror"; "romance"].

Definition SETTINGS : list string :=
  [ "A dimly lit coffee shop in downtown";
    "An abandoned warehouse on the outskirts";
    "A high-tech laboratory";
    "A quiet suburban home";
    "A bustling city street" ].

(** [genre.charAt(0).toUpperCase() + genre.slice(1)] *)
Definition capitalize (s : string) : string :=
  match s with
  | EmptyString => EmptyString
  | String c r => String (Js.upper_char c) r
  end.

(** [createInitialScene(userCommand?)]; [r_genre] and [r_setting] are its
    two [Math.random()] draws.  The turn endpoint imports this function
    but does not call it. *)
Definition createInitialScene (now : Z) (r_genre r_setting : Random.t)
    (userCommand : option string) : SceneState.t :=
  let genre :=
    if default false ((λ c, Js.includes (Js.toLowerCase c) "horror") <$> userCommand)
    then "horror"
    else default "" (GENRES !! Random.floor_times r_genre (length GENRES)) in
  let setting := default "" (SETTINGS !! Random.floor_times r_setting (length SETTINGS)) in
  SceneState.mk ("scene-" +:+ Js.string_of_Z now)
    (capitalize genre +:+ " Scene") genre setting
    ("A tense encounter between characters in " +:+ Js.toLowerCase setting +:+ ".")
    ("Initial scene setup: " +:+ setting +:+ ". Characters are about to engage in dialogue.")
    MOCK_ACTORS [] now now.

(** The text of the [i]-th fabricated line. *)
Definition mock_text (i : nat) (actor nextActor : Actor.t) (userCommand : string) : string :=
  let text :=
    if i =? 0 then "Hey, " +:+ Actor.name nextActor +:+ ", we need to talk."
    else if i =? 1 then "What's on your mind, " +:+ Actor.name actor +:+ "?"
    else if i =? 2 then "I've been thinking about what you said earlier."
    else "Go on, I'm listening." in
  let cmdLower := Js.toLowerCase userCommand in
  if Js.includes cmdLower "angry" || Js.includes cmdLower "mad" then
    if i =? 0 then "I'm really upset about this!" else "You have no right to be angry!"
  else if Js.includes cmdLower "happy" || Js.includes cmdLower "excited" then
    if i =? 0 then "This is amazing news!" else "I'm so happy to hear that!"
  else if Js.includes cmdLower "sad" then
    if i =? 0 then "I can't believe this happened..." else "I'm sorry you feel that way."
  else text.

(** [generateMockLines(sceneState, userCommand, currentBeatIndex)], with
    its clock reading [now] and its random draw [r]. *)
Definition generateMockLines (now : Z) (r : Random.t) (sceneState : SceneState.t)
    (userCommand : string) (currentBeatIndex : Z) : list Line.t :=
  let actors := SceneState.actors sceneState in
  match actors with
  | [] => []
  | first :: _ =>
      let numLines := 3 + Random.floor_times r 2 in
      let beatIndex := (currentBeatIndex + 1)%Z in
      (λ i,
         let actorIndex := i mod length actors in
         let actor := nth actorIndex actors first in
         let nextActor := nth ((actorIndex + 1) mod length actors) actors first in
         Line.mk ("line-" +:+ Js.string_of_Z now +:+ "-" +:+ Js.string_of_nat i)
           (Actor.id actor) (mock_text i actor nextActor userCommand)
           (now + Z.of_nat i * 1000)%Z beatIndex "")
      <$> seq 0 numLines
  end.

End MockDirector.

(** ** The placeholder speech step ([src/lib/mockTTS.ts]) *)

Module MockTTS.

Definition generateAudioUrl (lineId voiceId : string) : string :=
  "https://placeholder-audio.example.com/" +:+ voiceId +:+ "/" +:+ lineId +:+ ".mp3".

Definition processLinesWithTTS (lines : list Line.t) (actors : gmap string string)
    : list Line.t :=
  (λ line,
     match actors !! Line.actorId line with
     | None => line
     | Some voiceId => Line.with_audioUrl line (generateAudioUrl (Line.id line) voiceId)
     end) <$> lines.

End MockTTS.

(** ** The turn endpoint ([src/pages/api/scene/turn.ts]) *)

Module Turn.

Record Request := mk_request {
  method : string;
  sceneState : option SceneState.t;
  (** [None]: the field is missing or is not a string *)
  userCommand : option string
}.

Inductive Response :=
| Success (sceneState : SceneState.t) (newLines : list Line.t)
| Failure (status : nat) (error : string).

(** What a request leaves behind: the response sent, and the content of
    the object [req.body.sceneState] once the handler has run (the
    handler assigns to its fields on the primary path). *)
Record Outcome := mk_outcome {
  response : Response;
  body_sceneState : option SceneState.t
}.

(** [lines.length > 0 ? Math.max(...lines.map((l) => l.beatIndex), 0) : 0] *)
Definition currentBeatIndex (lines : list Line.t) : Z :=
  if 0 <? length lines then foldr Z.max 0%Z (Line.beatIndex <$> lines) else 0%Z.

(** [{ ...currentSceneState, lines, summary, updatedAt }] *)
Definition updated (s : SceneState.t) (lines : list Line.t) (summary : string)
    (updatedAt : Z) : SceneState.t :=
  SceneState.mk (SceneState.id s) (SceneState.title s) (SceneState.genre s)
    (SceneState.setting s) (SceneState.logline s) summary (SceneState.actors s)
    lines (SceneState.createdAt s) updatedAt.

(** The [catch] branch of the Director call. *)
Definition fallback (w : World.t) (currentSceneState : SceneState.t)
    (userCommand : string) (currentBeatIndex : Z) : Response :=
  let newLines :=
    MockDirector.generateMockLines (World.now_lines w) (World.random w)
      currentSceneState userCommand currentBeatIndex in
  let actorsMap :=
    Js.map_of ((λ actor, (Actor.id actor, Actor.voiceId actor))
                 <$> SceneState.actors currentSceneState) in
  let linesWithAudio := MockTTS.processLinesWithTTS newLines actorsMap in
  let updatedLines := SceneState.lines currentSceneState ++ linesWithAudio in
  let updatedSummary :=
    Summarizer.summarizeScene (SceneState.summary currentSceneState) updatedLines
      (SceneState.actors currentSceneState) in
  Success (updated currentSceneState updatedLines updatedSummary (World.now_updated w))
    linesWithAudio.

(** The four assignments under [if (directorResponse.sceneMetadata)]. *)
Definition apply_metadata (s : SceneState.t) (r : DirectorResponse.t) : SceneState.t :=
  match DirectorResponse.sceneMetadata r with
  | Some m =>
      SceneState.mk (SceneState.id s) (SceneMetadata.title m) (SceneMetadata.genre m)
        (SceneMetadata.setting m) (SceneMetadata.logline m) (SceneState.summary s)
        (SceneState.actors s) (SceneState.lines s) (SceneState.createdAt s)
        (SceneState.updatedAt s)
  | None => s
  end.

Definition patch_actor (updatedActorMap : gmap string ActorUpdate.t) (actor : Actor.t)
    : Actor.t :=
  match updatedActorMap !! Actor.id actor with
  | Some update =>
      Actor.mk (Actor.id actor) (Actor.name actor) (Actor.role actor)
        (DirectorAgent.convertLanguage (ActorUpdate.language update))
        (Actor.voiceId actor) (ActorUpdate.style update)
  | None => actor
  end.

(** The assignment to [currentSceneState.actors]. *)
Definition apply_actor_updates (s : SceneState.t) (r : DirectorResponse.t) : SceneState.t :=
  match DirectorResponse.updatedActors r with
  | Some (u :: us) =>
      let updatedActorMap := Js.map_of ((λ ua, (ActorUpdate.id ua, ua)) <$> (u :: us)) in
      SceneState.mk (SceneState.id s) (SceneState.title s) (SceneState.genre s)
        (SceneState.setting s) (SceneState.logline s) (SceneState.summary s)
        (patch_actor updatedActorMap <$> SceneState.actors s)
        (SceneState.lines s) (SceneState.createdAt s) (SceneState.updatedAt s)
  | _ => s
  end.

Definition find_actor (actors : list Actor.t) (actorId : string) : option Actor.t :=
  find (λ a, bool_decide (Actor.id a = actorId)) actors.

(** [linesToProcess.map((line, index) => ...)]: [runningBeatIndex] is
    threaded through the calls, and an unknown [actorId] throws. *)
Fixpoint make_lines (actors : list Actor.t) (now : Z) (index : nat)
    (runningBeatIndex : Z) (linesToProcess : list NewLine.t) : option (list Line.t) :=
  match linesToProcess with
  | [] => Some []
  | line :: rest =>
      let runningBeatIndex :=
        match NewLine.beatDelta line with
        | next_beat => (runningBeatIndex + 1)%Z
        | same_beat => runningBeatIndex
        end in
      match find_actor actors (NewLine.actorId line) with
      | None => None
      | Some _ =>
          cons (Line.mk ("line-" +:+ Js.string_of_Z now +:+ "-" +:+ Js.string_of_nat index)
                  (NewLine.actorId line) (NewLine.text line)
                  (now + Z.of_nat index * 1000)%Z runningBeatIndex "")
            <$> make_lines actors now (S index) runningBeatIndex rest
      end
  end.

(** One callback of the [Promise.all] fan-out. *)
Definition synthesize (w : World.t) (actorMap : gmap string Actor.t)
    (directives : list NewLine.t) (index : nat) (line : Line.t) : Line.t :=
  match actorMap !! Line.actorId line with
  | None => line
  | Some actor =>
      let lineLanguage :=
        NewLine.language
          <$> find (λ dl, bool_decide (NewLine.actorId dl = Line.actorId line)
                          && bool_decide (NewLine.text dl = Line.text line)) directives in
      let languageToUse :=
        match lineLanguage with
        | Some l => DirectorAgent.convertLanguage l
        | None => Actor.language actor
        end in
      match World.synthesizeLine w index (Line.text line) (Actor.voiceId actor) languageToUse with
      | Some audioUrl => Line.with_audioUrl line audioUrl
      | None => line
      end
  end.

Definition internal_error : Response := Failure 500 "Internal server error".

(** The handler after a Director reply; the second component is
    [currentSceneState] as the assignments left it. *)
Definition primary (w : World.t) (currentSceneState : SceneState.t)
    (currentBeatIndex : Z) (directorResponse : DirectorResponse.t)
    : Response * SceneState.t :=
  let currentSceneState := apply_metadata currentSceneState directorResponse in
  let currentSceneState := apply_actor_updates currentSceneState directorResponse in
  match DirectorResponse.newLines directorResponse with
  | None | Some [] => (internal_error, currentSceneState)
  | Some directives =>
      let linesToProcess := take 6 directives in
      match make_lines (SceneState.actors currentSceneState) (World.now_lines w) 0
              currentBeatIndex linesToProcess with
      | None => (internal_error, currentSceneState)
      | Some newLines =>
          let actorMap :=
            Js.map_of ((λ actor, (Actor.id actor, actor))
                         <$> SceneState.actors currentSceneState) in
          let linesWithAudio := imap (synthesize w actorMap directives) newLines in
          let updatedLines := SceneState.lines currentSceneState ++ linesWithAudio in
          let updatedSummary :=
            Summarizer.summarizeScene (SceneState.summary currentSceneState)
              updatedLines (SceneState.actors currentSceneState) in
          (Success (updated currentSceneState updatedLines updatedSummary
                      (World.now_updated w)) linesWithAudio,
           currentSceneState)
      end
  end.

(** The scene a turn starts from, and its beat. *)
Definition initial_scene (w : World.t) (req : Request) : SceneState.t :=
  match sceneState req with
  | None => createDefaultScene (World.now_scene w)
  | Some s => s
  end.

Definition initial_beat (req : Request) : Z :=
  match sceneState req with
  | None => 0%Z
  | Some s => currentBeatIndex (SceneState.lines s)
  end.

Definition handler (w : World.t) (req : Request) : Outcome :=
  if negb (bool_decide (method req = "POST")) then
    mk_outcome (Failure 405 "Method not allowed") (sceneState req)
  else
    match userCommand req with
    | None => mk_outcome (Failure 400 "userCommand is required") (sceneState req)
    | Some command =>
        if negb (Js.truthy command) then
          mk_outcome (Failure 400 "userCommand is required") (sceneState req)
        else
          let currentSceneState := initial_scene w req in
          let currentBeatIndex := initial_beat req in
          match DirectorAgent.runDirectorAgent (World.director_reply w) with
          | None =>
              mk_outcome (fallback w currentSceneState command currentBeatIndex)
                (sceneState req)
          | Some directorResponse =>
              let result :=
                primary w currentSceneState currentBeatIndex directorResponse in
              mk_outcome result.1
                (match sceneState req with None => None | Some _ => Some result.2 end)
          end
    end.

End Turn.

(** ** Vocabulary of the statements about a turn *)

(** The line's speaker is on the roster. *)
Definition resolves (actors : list Actor.t) (line : Line.t) : Prop :=
  ∃ actor, actor ∈ actors ∧ Actor.id actor = Line.actorId line.

(** The lines a request arrives with (none when [sceneState] is null). *)
Definition input_lines (req : Turn.Request) : list Line.t :=
  match Turn.sceneState req with
  | None => []
  | Some s => SceneState.lines s
  end.

(** [b + beatDelta_1 + ... + beatDelta_n] *)
Definition delta_sum (directives : list NewLine.t) : Z :=
  foldr (λ d acc, (beatDelta_value (NewLine.beatDelta d) + acc)%Z) 0%Z directives.

Definition is_success (out : Turn.Outcome) : bool :=
  match Turn.response out with
  | Turn.Success _ _ => true
  | Turn.Failure _ _ => false
  end.

(** The [newLines] field of the payload, empty for an error payload. *)
Definition new_lines_of (out : Turn.Outcome) : list Line.t :=
  match Turn.response out with
  | Turn.Success _ newLines => newLines
  | Turn.Failure _ _ => []
  end.

(** [{ ...directorResponse, newLines }] *)
Definition with_newLines (r : DirectorResponse.t) (directives : list NewLine.t)
    : DirectorResponse.t :=
  DirectorResponse.mk (DirectorResponse.sceneMetadata r)
    (DirectorResponse.updatedActors r) (Some directives).

(** The scene as the primary path leaves it before lines are made. *)
Definition patched (s : SceneState.t) (r : DirectorResponse.t) : SceneState.t :=
  Turn.apply_actor_updates (Turn.apply_metadata s r) r.

(** The characters of a list of pieces, one separator counted after each. *)
Definition weight (l : list string) : nat :=
  foldr (λ s acc, S (String.length s) + acc) 0 l.

(** ** Sample worlds and requests *)

Module Sample.

Definition half : Random.t := Random.mk 1 2 eq_refl.

Definition no_audio : nat → string → string → LanguageCode → option string :=
  λ _ _ _ _, None.

(** Synthesis rejects the second line of the turn only. *)
Definition second_fails : nat → string → string → LanguageCode → option string :=
  λ i _ voiceId _, if i =? 1 then None else Some ("data:audio/mpeg;base64," +:+ voiceId).

(** The Director is unreachable. *)
Definition director_down : World.t := World.mk None no_audio 1000 2000 3000 half.

Definition horror_request : Turn.Request :=
  Turn.mk_request "POST" None (Some "Make it horror").

Definition three_lines : DirectorResponse.t :=
  DirectorResponse.mk
    (Some (SceneMetadata.mk "The Cellar" "horror" "A dark cellar" "Something stirs."))
    (Some [ActorUpdate.mk "actor-2" lang_hi "whispering"])
    (Some [ NewLine.mk "actor-1" lang_en "Did you hear that?" next_beat;
            NewLine.mk "actor-2" lang_hi "I am angry you brought us here." same_beat;
            NewLine.mk "actor-3" lang_en "Stay close." next_beat ]).

Definition director_up : World.t :=
  World.mk (Some three_lines) second_fails 1000 2000 3000 half.

(** Seven directives; only the seventh names a speaker off the roster. *)
Definition seven_lines : DirectorResponse.t :=
  with_newLines three_lines
    [ NewLine.mk "actor-1" lang_en "One." next_beat;
      NewLine.mk "actor-2" lang_en "Two." same_beat;
      NewLine.mk "actor-3" lang_en "Three." same_beat;
      NewLine.mk "actor-1" lang_en "Four." same_beat;
      NewLine.mk "actor-2" lang_en "Five." same_beat;
      NewLine.mk "actor-3" lang_en "Six." same_beat;
      NewLine.mk "ghost" lang_en "Seven." same_beat ].

Definition director_verbose : World.t :=
  World.mk (Some seven_lines) second_fails 1000 2000 3000 half.

(** The second of three directives names a speaker off the roster. *)
Definition ghost_lines : DirectorResponse.t :=
  with_newLines three_lines
    [ NewLine.mk "actor-1" lang_en "One." next_beat;
      NewLine.mk "ghost" lang_en "Two." same_beat;
      NewLine.mk "actor-3" lang_en "Three." same_beat ].

Definition director_ghost : World.t :=
  World.mk (Some ghost_lines) second_fails 1000 2000 3000 half.

(** A scene in progress: two lines over beats 1 and 2. *)
Definition running_scene : SceneState.t :=
  SceneState.mk "scene-1" "Untitled Scene" "drama" "A neutral location"
    "A scene begins." "Alex and Sam have been in dialogue." defaultActors
    [ Line.mk "line-1-0" "actor-1" "Hello." 1 1 "";
      Line.mk "line-1-1" "actor-2" "Hello yourself." 2 2 "" ]
    1 2.

Definition continue_request : Turn.Request :=
  Turn.mk_request "POST" (Some running_scene) (Some "continue").



(** A summary of 801 characters, and one of 800. *)
Definition long_summary : string := Js.repeat "x" 801.
Definition full_summary : string := Js.repeat "x" 800.

Definition angry_line : Line.t := Line.mk "line-9-0" "actor-1" "I am angry." 9 0 "".
Definition mixed_line : Line.t :=
  Line.mk "line-9-1" "actor-2" "Why so sad? I was happy and now I am furious." 10 0 "".

Definition madness_line : Line.t :=
  Line.mk "line-9-2" "actor-3" "What madness is this" 11 0 "".

End Sample.

(** ** Further string primitives *)

Module JsText.

(** [s.startsWith(t)] *)
Definition startsWith (s t : string) : bool := String.prefix t s.

(** [s.split(sep)] for a one-character separator: the pieces between the
    occurrences, empty pieces included. *)
Fixpoint split_at (sep : ascii) (cur : string) (s : string) : list string :=
  match s with
  | EmptyString => [String.rev cur]
  | String c r =>
      if bool_decide (c = sep) then String.rev cur :: split_at sep EmptyString r
      else split_at sep (String c cur) r
  end.

Definition split (sep : ascii) (s : string) : list string :=
  split_at sep EmptyString s.

(** Line terminators below U+0100: what [.] in a regular expression does
    not match. *)
Definition is_line_terminator (c : ascii) : bool :=
  let n := nat_of_ascii c in (n =? 10) || (n =? 13).

(** The longest run of [.] at the start of [s]. *)
Fixpoint dots (s : string) : string :=
  match s with
  | EmptyString => EmptyString
  | String c r => if is_line_terminator c then EmptyString else String c (dots r)
  end.

(** [s.match(/base64,(.+)/)]: the first capture group of the leftmost
    match, [None] when there is no match. *)
Fixpoint match_base64 (s : string) : option string :=
  let here :=
    if String.prefix "base64," s then
      match dots (Js.drop_chars 7 s) with
      | EmptyString => None
      | group => Some group
      end
    else None in
  match here with
  | Some group => Some group
  | None =>
      match s with
      | EmptyString => None
      | String _ r => match_base64 r
      end
  end.

(** The double quote and the line feed, as one-character strings. *)
Definition dquote : string := String (ascii_of_nat 34) EmptyString.
Definition nl : string := String (ascii_of_nat 10) EmptyString.

(** A [Map] or object whose keys are compared with a decidable equality,
    in insertion order. *)
Definition kmap (K V : Type) : Type := list (K * V).

Definition kmap_get `{EqDecision K} {V} (m : kmap K V) (k : K) : option V :=
  snd <$> find (λ kv, bool_decide (kv.1 = k)) m.

Definition kmap_has `{EqDecision K} {V} (m : kmap K V) (k : K) : bool :=
  bool_decide (is_Some (kmap_get m k)).

Fixpoint kmap_set `{EqDecision K} {V} (m : kmap K V) (k : K) (v : V) : kmap K V :=
  match m with
  | [] => [(k, v)]
  | (k', v') :: r =>
      if bool_decide (k' = k) then (k', v) :: r else (k', v') :: kmap_set r k v
  end.

(** [Buffer.from(bytes).toString('base64')] *)
Definition base64_char (n : N) : ascii :=
  if (n <? 26)%N then ascii_of_N (65 + n)
  else if (n <? 52)%N then ascii_of_N (97 + (n - 26))
  else if (n <? 62)%N then ascii_of_N (48 + (n - 52))
  else if (n =? 62)%N then "+"%char
  else "/"%char.

Fixpoint base64 (bytes : list byte) : string :=
  match bytes with
  | [] => EmptyString
  | [a] =>
      let n := (Byte.to_N a * 65536)%N in
      String (base64_char (n / 262144))
        (String (base64_char ((n / 4096) mod 64)) (String "=" (String "=" EmptyString)))
  | [a; b] =>
      let n := (Byte.to_N a * 65536 + Byte.to_N b * 256)%N in
      String (base64_char (n / 262144))
        (String (base64_char ((n / 4096) mod 64))
           (String (base64_char ((n / 64) mod 64)) (String "=" EmptyString)))
  | a :: b :: c :: rest =>
      let n := (Byte.to_N a * 65536 + Byte.to_N b * 256 + Byte.to_N c)%N in
      String (base64_char (n / 262144))
        (String (base64_char ((n / 4096) mod 64))
           (String (base64_char ((n / 64) mod 64))
              (String (base64_char (n mod 64)) (base64 rest))))
  end.

End JsText.

(** ** The speech client ([src/lib/elevenTTS.ts]) *)

Module ElevenTTS.

Definition mapLanguageCode (language : LanguageCode) : string :=
  match language with
  | en => "en"
  | es => "es"
  | fr => "fr"
  | de => "de"
  | it => "it"
  | ja => "ja"
  | zh => "zh"
  | ko => "ko"
  | hi => "en"
  | mixed => "en"
  end.

(** [response.headers.get('content-type') || 'audio/mpeg'] *)
Definition contentType (header : option string) : string :=
  match header with
  | Some h => if Js.truthy h then h else "audio/mpeg"
  | None => "audio/mpeg"
  end.

(** [contentType.includes('mp3') ? 'mpeg' : contentType.split('/')[1] || 'mpeg'] *)
Definition audioFormat (contentType : string) : string :=
  if Js.includes contentType "mp3" then "mpeg"
  else match JsText.split "/" contentType !! 1 with
       | Some piece => if Js.truthy piece then piece else "mpeg"
       | None => "mpeg"
       end.

Definition dataUrl (header : option string) (audio : list byte) : string :=
  "data:audio/" +:+ audioFormat (contentType header) +:+ ";base64," +:+ JsText.base64 audio.

(** What [fetch] brings back: a rejection (of the request, or of the
    reading of the body), or a response with its [ok] flag, its
    [content-type] header and its body. *)
Inductive Reply :=
| rejected
| answered (ok : bool) (content_type : option string) (body : list byte).

(** [synthesizeLine]: [None] stands for a thrown error.  [apiKey] is the
    environment variable, [reply] the outcome of the request. *)
Definition synthesizeLine (apiKey : option string) (reply : Reply) : option string :=
  match apiKey with
  | None => None
  | Some key =>
      if negb (Js.truthy key) then None
      else match reply with
           | rejected => None
           | answered false _ _ => None
           | answered true content_type body => Some (dataUrl content_type body)
           end
  end.

End ElevenTTS.

(** ** The Director prompt ([buildDirectorInput] of [src/lib/directorAgent.ts]) *)

Module DirectorPrompt.

Definition role_name (r : ActorRole) : string :=
  match r with
  | protagonist => "protagonist"
  | antagonist => "antagonist"
  | supporting => "supporting"
  | narrator => "narrator"
  | ensemble => "ensemble"
  end.

Definition language_name (l : LanguageCode) : string :=
  match l with
  | en => "en" | es => "es" | fr => "fr" | de => "de" | it => "it"
  | ja => "ja" | zh => "zh" | ko => "ko" | hi => "hi" | mixed => "mixed"
  end.

(** The [forEach] that fills [linesByBeat]. *)
Definition group_step (m : JsText.kmap Z (list Line.t)) (line : Line.t)
    : JsText.kmap Z (list Line.t) :=
  let beatIndex := Line.beatIndex line in
  let m1 := if JsText.kmap_has m beatIndex then m else JsText.kmap_set m beatIndex [] in
  JsText.kmap_set m1 beatIndex (default [] (JsText.kmap_get m1 beatIndex) ++ [line]).

Definition linesByBeat (lastLines : list Line.t) : JsText.kmap Z (list Line.t) :=
  foldl group_step [] lastLines.

(** [([a], [b]) => a - b] *)
Definition by_beat (a b : Z * list Line.t) : Z := (a.1 - b.1)%Z.

(** [Array.from(linesByBeat.entries()).sort(...)] *)
Definition beats_in_order (lastLines : list Line.t) : list (Z * list Line.t) :=
  Js.sort by_beat (linesByBeat lastLines).

(** One dialogue line of the prompt. *)
Definition format_line (actors : list Actor.t) (line : Line.t) : string :=
  let actor := find (λ a, bool_decide (Actor.id a = Line.actorId line)) actors in
  let speakerName :=
    match actor with
    | Some a => if Js.truthy (Actor.name a) then Actor.name a else "Unknown"
    | None => "Unknown"
    end in
  let language :=
    match actor with
    | Some a => language_name (Actor.language a)
    | None => "en"
    end in
  speakerName +:+ " [" +:+ language +:+ "]: " +:+ JsText.dquote +:+ Line.text line
    +:+ JsText.dquote.

(** The array [formattedLines] once every [push] has run. *)
Definition formattedLines (actors : list Actor.t) (lastLines : list Line.t) : list string :=
  flat_map (λ entry,
      ("Beat " +:+ Js.string_of_Z entry.1 +:+ ":")
        :: (format_line actors <$> entry.2) ++ [EmptyString])
    (beats_in_order lastLines).

Definition linesText (actors : list Actor.t) (lastLines : list Line.t) : string :=
  if 0 <? length lastLines
  then Js.trim (String.concat JsText.nl (formattedLines actors lastLines))
  else "No dialogue yet.".

Definition actor_entry (actor : Actor.t) : string :=
  "- " +:+ Actor.name actor +:+ " (id: " +:+ Actor.id actor +:+ ", role: "
    +:+ role_name (Actor.role actor) +:+ ", language: "
    +:+ language_name (Actor.language actor) +:+ ", style: " +:+ Actor.style actor +:+ ")".

Definition actorsList (actors : list Actor.t) : string :=
  String.concat JsText.nl (actor_entry <$> actors).

Definition buildDirectorInput (sceneState : option SceneState.t) (userCommand : string)
    : string :=
  match sceneState with
  | None =>
      String.concat JsText.nl
        [ "You are creating a new scene. User direction: " +:+ JsText.dquote
            +:+ userCommand +:+ JsText.dquote;
          EmptyString;
          "Create a scene with 3 actors (protagonist, antagonist, supporting) and generate initial dialogue.";
          "IMPORTANT: Start with actors having a conversation - have them speak and respond to each other, not just make independent statements." ]
  | Some s =>
      let lastLines := Js.slice_last 10 (SceneState.lines s) in
      String.concat JsText.nl
        [ "STORY SUMMARY:";
          SceneState.summary s;
          EmptyString;
          "SCENE METADATA:";
          "Title: " +:+ SceneState.title s;
          "Genre: " +:+ SceneState.genre s;
          "Setting: " +:+ SceneState.setting s;
          "Logline: " +:+ SceneState.logline s;
          EmptyString;
          "ACTOR ROSTER:";
          actorsList (SceneState.actors s);
          EmptyString;
          "LAST 10 DIALOGUE LINES:";
          linesText (SceneState.actors s) lastLines;
          EmptyString;
          "User Command: " +:+ JsText.dquote +:+ userCommand +:+ JsText.dquote;
          EmptyString;
          "CRITICAL INSTRUCTIONS:";
          "- Generate the next beat of dialogue following the user's command.";
          "- Write a conversation where actors respond to each other naturally.";
          "- If the user says " +:+ JsText.dquote +:+ "continue" +:+ JsText.dquote
            +:+ " or similar, KEEP THE CONVERSATION GOING by having actors respond to the last lines spoken.";
          "- Each actor should react to what was just said by another actor.";
          "- Create natural back-and-forth dialogue that flows from the previous lines.";
          "- DO NOT end the conversation - keep it alive and dynamic." ]
  end.

End DirectorPrompt.

(** ** The script panel ([src/components/ScriptPanel.tsx]) *)

Module ScriptPanel.

(** A property key that is an array index: these come first, in
    ascending order, when the keys of an object are listed. *)
Definition is_array_index (k : Z) : bool := (0 <=? k)%Z && (k <? 4294967295)%Z.

(** The callback of [lines.reduce]. *)
Definition group_step (acc : JsText.kmap Z (list Line.t)) (line : Line.t)
    : JsText.kmap Z (list Line.t) :=
  let beatIndex := Line.beatIndex line in
  let acc1 := if JsText.kmap_has acc beatIndex then acc else JsText.kmap_set acc beatIndex [] in
  JsText.kmap_set acc1 beatIndex (default [] (JsText.kmap_get acc1 beatIndex) ++ [line]).

Definition linesByBeat (lines : list Line.t) : JsText.kmap Z (list Line.t) :=
  foldl group_step [] lines.

(** [Object.entries(acc)]: array-index keys in ascending order, then the
    other keys in insertion order. *)
Definition entries {V} (acc : JsText.kmap Z V) : list (Z * V) :=
  Js.sort (λ a b, (a.1 - b.1)%Z) (filter (λ kv, is_array_index kv.1 = true) acc)
  ++ filter (λ kv, is_array_index kv.1 = false) acc.

(** [Object.entries(linesByBeat).sort(([a], [b]) => Number(a) - Number(b))]:
    the beats as the panel lists them. *)
Definition beats_shown (lines : list Line.t) : list (Z * list Line.t) :=
  Js.sort (λ a b, (a.1 - b.1)%Z) (entries (linesByBeat lines)).

(** [getActorById(line.actorId)?.name || 'Unknown'] *)
Definition shown_name (actors : list Actor.t) (line : Line.t) : string :=
  match find (λ a, bool_decide (Actor.id a = Line.actorId line)) actors with
  | Some a => if Js.truthy (Actor.name a) then Actor.name a else "Unknown"
  | None => "Unknown"
  end.

End ScriptPanel.

(** ** The page ([src/pages/index.tsx]): what is played *)

Module Player.

(** What one iteration of [playLinesSequentially] does with a line: the
    four early branches highlight the line and wait 1500 ms. *)
Inductive Route := no_audio | empty_url | bad_format | short_data | play_audio.

Definition route (line : Line.t) : Route :=
  let audioUrl := Line.audioUrl line in
  if negb (Js.truthy audioUrl) then no_audio
  else if negb (Js.truthy audioUrl) || bool_decide (Js.trim audioUrl = EmptyString)
  then empty_url
  else if negb (JsText.startsWith audioUrl "data:audio/") then bad_format
  else match JsText.match_base64 audioUrl with
       | None => short_data
       | Some group => if String.length group <? 100 then short_data else play_audio
       end.

(** [data.newLines.filter((line) => line.audioUrl)] *)
Definition linesWithAudio (newLines : list Line.t) : list Line.t :=
  filter (λ line, Js.truthy (Line.audioUrl line) = true) newLines.

(** What [handleSendDirection] does once a response has arrived: play
    lines, only schedule the next turn, or nothing. *)
Inductive Plan :=
| play (lines : list Line.t)
| continue_only
| nothing.

(** The abort flag has just been reset when this runs. *)
Definition plan (autoContinue : bool) (newLines : list Line.t) : Plan :=
  let aborted := false in
  if 0 <? length newLines then
    if 0 <? length (linesWithAudio newLines) then play (linesWithAudio newLines)
    else if 0 <? length newLines then
      if autoContinue && negb aborted then continue_only else nothing
    else nothing
  else nothing.

End Player.

(** ** The direction panel ([src/components/DirectionPanel.tsx]) *)

Module DirectionPanel.



(** [handleQuickPrompt] *)
Definition handleQuickPrompt (prompt : string) (isLoading : bool) : option string :=
  if negb isLoading then Some prompt else None.

End DirectionPanel.

(** ** The page ([src/pages/index.tsx]): what is sent *)

Module Home.




End Home.

(** ** More sample inputs *)

Module Sample2.

(** A reply with no [newLines] key, and one whose [newLines] is empty. *)
Definition reply_without_lines : DirectorResponse.t :=
  DirectorResponse.mk (DirectorResponse.sceneMetadata Sample.three_lines) None None.

Definition reply_with_no_line : DirectorResponse.t :=
  with_newLines Sample.three_lines [].

Definition director_without_lines : World.t :=
  World.with_director_reply Sample.director_up (Some reply_without_lines).

Definition director_with_no_line : World.t :=
  World.with_director_reply Sample.director_up (Some reply_with_no_line).

End Sample2.

(** ** Vocabulary of the further statements *)

(** The id a turn gives to its line number [i]. *)
Definition line_id (now : Z) (i : nat) : string :=
  "line-" +:+ Js.string_of_Z now +:+ "-" +:+ Js.string_of_nat i.

(** A solid start: a first character that is neither white space nor a
    sentence end. *)
Definition solid_start (s : string) : Prop :=
  ∃ c rest, s = String c rest ∧ Js.is_space c = false ∧ Summarizer.is_sentence_end c = false.

(** The scene with other lines in place of its own. *)
Definition replace_lines (s : SceneState.t) (lines : list Line.t) : SceneState.t :=
  SceneState.mk (SceneState.id s) (SceneState.title s) (SceneState.genre s)
    (SceneState.setting s) (SceneState.logline s) (SceneState.summary s)
    (SceneState.actors s) lines (SceneState.createdAt s) (SceneState.updatedAt s).

Module Sample3.

(** A scene in progress whose summary has reached 800 characters. *)
Definition saturated_scene : SceneState.t :=
  SceneState.mk "scene-1" "Untitled Scene" "drama" "A neutral location"
    "A scene begins." Sample.full_summary defaultActors
    (SceneState.lines Sample.running_scene) 1 2.

Definition saturated_request : Turn.Request :=
  Turn.mk_request "POST" (Some saturated_scene) (Some "continue").

(** The Director answers, every synthesis fails. *)
Definition silent_world : World.t :=
  World.with_synthesizeLine Sample.director_up Sample.no_audio.

(** A direction that asks for anger, in capitals. *)
Definition angry_request : Turn.Request :=
  Turn.mk_request "POST" (Some Sample.running_scene) (Some "Make them ANGRY").

(** An ok answer of the speech service: 73 bytes, no content type. *)
Definition clip_reply : ElevenTTS.Reply :=
  ElevenTTS.answered true None (replicate 73 Byte.x00).

End Sample3.

(** A string without line terminators. *)
Fixpoint one_line (s : string) : bool :=
  match s with
  | EmptyString => true
  | String c r => negb (JsText.is_line_terminator c) && one_line r
  end.

(** Grouping lines under a key, as the three grouping loops of the
    program do it: a first line opens the group of its key, a later one
    is pushed onto it. *)
Definition group_by `{EqDecision K} (key : Line.t → K)
    (m : JsText.kmap K (list Line.t)) (line : Line.t) : JsText.kmap K (list Line.t) :=
  let k := key line in
  let m1 := if JsText.kmap_has m k then m else JsText.kmap_set m k [] in
  JsText.kmap_set m1 k (default [] (JsText.kmap_get m1 k) ++ [line]).

(** [groups] are the groups of [lines] under [key]: one entry per key that
    occurs, holding the lines of that key in their order in [lines]. *)
Definition groups_of `{EqDecision K} (key : Line.t → K) (lines : list Line.t)
    (groups : list (K * list Line.t)) : Prop :=
  NoDup groups.*1
  ∧ (∀ k ls, (k, ls) ∈ groups → ls ≠ [] ∧ ls = filter (λ line, key line = k) lines)
  ∧ (∀ line, line ∈ lines → key line ∈ groups.*1).

(** ** Properties of the fallback generator *)

Section fallback_generator.

Lemma floor_times_lt (r : Random.t) (n : nat) :
  0 < n → Random.floor_times r n < n.
Proof.
  intros Hn. unfold Random.floor_times.
  pose proof (Random.in_range r) as Hr. apply N.ltb_lt in Hr.
  assert ((N.of_nat n * Random.num r / N.pos (Random.den r) < N.of_nat n)%N) as Hlt.
  { apply N.Div0.div_lt_upper_bound. nia. }
  lia.
Qed.

Lemma generateMockLines_length now r s cmd beat :
  length (MockDirector.generateMockLines now r s cmd beat)
  = match SceneState.actors s with
    | [] => 0
    | _ :: _ => 3 + Random.floor_times r 2
    end.
Proof.
  unfold MockDirector.generateMockLines.
  destruct (SceneState.actors s); [done|].
  by rewrite length_fmap, length_seq.
Qed.

Lemma nth_mod_elem_of {A} (l : list A) (d : A) (i : nat) :
  l ≠ [] → nth (i mod length l) l d ∈ l.
Proof.
  intros Hl.
  assert (i mod length l < length l) as Hlt.
  { apply Nat.mod_upper_bound. by destruct l. }
  destruct (lookup_lt_is_Some_2 _ _ Hlt) as [x Hx].
  rewrite (nth_lookup_Some _ _ d _ Hx). by eapply list_elem_of_lookup_2.
Qed.

Lemma generateMockLines_actors now r s cmd beat :
  Forall (λ line, ∃ actor, actor ∈ SceneState.actors s
                           ∧ Line.actorId line = Actor.id actor)
    (MockDirector.generateMockLines now r s cmd beat).
Proof.
  unfold MockDirector.generateMockLines.
  destruct (SceneState.actors s) as [|first rest] eqn:Hactors; [constructor|].
  apply Forall_fmap, Forall_forall. intros i _. simpl.
  eexists. split; [|reflexivity].
  by apply (nth_mod_elem_of (first :: rest) first i).
Qed.

End fallback_generator.

(** ** The handler, case by case *)

Section handler_cases.

Import Turn.

Lemma handler_success_inv w req st nl :
  response (handler w req) = Success st nl →
  ∃ command,
    method req = "POST" ∧ userCommand req = Some command ∧ Js.truthy command = true
    ∧ match DirectorAgent.runDirectorAgent (World.director_reply w) with
      | None => fallback w (initial_scene w req) command (initial_beat req) = Success st nl
      | Some r => (primary w (initial_scene w req) (initial_beat req) r).1 = Success st nl
      end.
Proof.
  unfold handler. case_bool_decide as Hm; simpl; [|done].
  destruct (userCommand req) as [command|]; [|done].
  destruct (Js.truthy command) eqn:Hc; simpl; [|done].
  intros H. exists command. repeat split; try done.
  by destruct (DirectorAgent.runDirectorAgent _).
Qed.

Lemma initial_scene_lines w req :
  SceneState.lines (initial_scene w req) = input_lines req.
Proof. unfold initial_scene, input_lines. by destruct (sceneState req). Qed.

Lemma initial_beat_eq req :
  initial_beat req = foldr Z.max 0%Z (Line.beatIndex <$> input_lines req).
Proof.
  unfold initial_beat, input_lines, currentBeatIndex.
  destruct (sceneState req) as [s|]; [|done].
  by destruct (SceneState.lines s).
Qed.

Lemma apply_metadata_lines s r :
  SceneState.lines (apply_metadata s r) = SceneState.lines s.
Proof. unfold apply_metadata. by destruct (DirectorResponse.sceneMetadata r). Qed.

Lemma apply_metadata_actors s r :
  SceneState.actors (apply_metadata s r) = SceneState.actors s.
Proof. unfold apply_metadata. by destruct (DirectorResponse.sceneMetadata r). Qed.

Lemma apply_actor_updates_lines s r :
  SceneState.lines (apply_actor_updates s r) = SceneState.lines s.
Proof.
  unfold apply_actor_updates. by destruct (DirectorResponse.updatedActors r) as [[|]|].
Qed.

Lemma patch_actor_id m actor : Actor.id (patch_actor m actor) = Actor.id actor.
Proof. unfold patch_actor. by destruct (m !! Actor.id actor). Qed.

Lemma apply_actor_updates_ids s r :
  Actor.id <$> SceneState.actors (apply_actor_updates s r)
  = Actor.id <$> SceneState.actors s.
Proof.
  unfold apply_actor_updates.
  destruct (DirectorResponse.updatedActors r) as [[|u us]|]; try done.
  simpl. rewrite <-list_fmap_compose. apply list_fmap_ext.
  intros i a _. simpl. apply patch_actor_id.
Qed.

Lemma patched_lines s r : SceneState.lines (patched s r) = SceneState.lines s.
Proof. unfold patched. by rewrite apply_actor_updates_lines, apply_metadata_lines. Qed.

Lemma patched_ids s r :
  Actor.id <$> SceneState.actors (patched s r) = Actor.id <$> SceneState.actors s.
Proof. unfold patched. by rewrite apply_actor_updates_ids, apply_metadata_actors. Qed.

Lemma primary_success_inv w cur beat r st nl :
  (primary w cur beat r).1 = Success st nl →
  ∃ directives created,
    DirectorResponse.newLines r = Some directives
    ∧ directives ≠ []
    ∧ make_lines (SceneState.actors (patched cur r)) (World.now_lines w) 0 beat
        (take 6 directives) = Some created
    ∧ nl = imap (synthesize w
                   (Js.map_of ((λ actor, (Actor.id actor, actor))
                                 <$> SceneState.actors (patched cur r)))
                   directives) created
    ∧ SceneState.lines st = SceneState.lines cur ++ nl
    ∧ SceneState.actors st = SceneState.actors (patched cur r)
    ∧ SceneState.genre st = SceneState.genre (patched cur r).
Proof.
  unfold primary. fold (patched cur r).
  destruct (DirectorResponse.newLines r) as [[|d ds]|]; try done.
  destruct (make_lines _ _ _ _ _) as [created|] eqn:Hmake; [|done].
  simpl. intros [= <- <-]. exists (d :: ds), created.
  repeat split; try done. simpl. by rewrite patched_lines.
Qed.

Lemma fallback_success_inv w cur command beat st nl :
  fallback w cur command beat = Success st nl →
  nl = MockTTS.processLinesWithTTS
         (MockDirector.generateMockLines (World.now_lines w) (World.random w)
            cur command beat)
         (Js.map_of ((λ actor, (Actor.id actor, Actor.voiceId actor))
                       <$> SceneState.actors cur))
  ∧ SceneState.lines st = SceneState.lines cur ++ nl
  ∧ SceneState.actors st = SceneState.actors cur
  ∧ SceneState.genre st = SceneState.genre cur.
Proof. unfold fallback. by intros [= <- <-]. Qed.

End handler_cases.

(** ** Line creation and the synthesis fan-out *)

Section line_creation.

Import Turn.

Lemma find_actor_Some actors actorId actor :
  find_actor actors actorId = Some actor → actor ∈ actors ∧ Actor.id actor = actorId.
Proof.
  unfold find_actor. intros H. apply find_some in H as [Hin Hid].
  split; [by apply list_elem_of_In|]. by apply bool_decide_eq_true in Hid.
Qed.

Lemma find_actor_None actors actorId :
  find_actor actors actorId = None ↔ actorId ∉ Actor.id <$> actors.
Proof.
  unfold find_actor. split.
  - intros H [a [-> Ha]]%list_elem_of_fmap.
    apply list_elem_of_In in Ha.
    pose proof (find_none _ _ H a Ha) as Hf. simpl in Hf.
    by apply bool_decide_eq_false in Hf.
  - intros Hnot. destruct (find _ actors) as [a|] eqn:Hf; [|done].
    apply find_some in Hf as [Hin Hid]. apply bool_decide_eq_true in Hid.
    exfalso. apply Hnot. apply list_elem_of_fmap. exists a.
    split; [done|]. by apply list_elem_of_In.
Qed.

Lemma find_actor_ids actors actors' actorId :
  Actor.id <$> actors = Actor.id <$> actors' →
  find_actor actors actorId = None ↔ find_actor actors' actorId = None.
Proof. intros Hids. by rewrite !find_actor_None, Hids. Qed.

Lemma make_lines_length actors now index running ds created :
  make_lines actors now index running ds = Some created →
  length created = length ds.
Proof.
  revert index running created.
  induction ds as [|d ds IH]; intros index running created; simpl.
  - by intros [= <-].
  - destruct (find_actor actors (NewLine.actorId d)); [|done].
    destruct (make_lines _ _ _ _ ds) as [rest|] eqn:Hrest; [|done].
    simpl. intros [= <-]. simpl. f_equal. by eapply IH.
Qed.

Lemma running_step running d :
  match NewLine.beatDelta d with
  | next_beat => (running + 1)%Z
  | same_beat => running
  end = (running + beatDelta_value (NewLine.beatDelta d))%Z.
Proof. destruct (NewLine.beatDelta d); simpl; lia. Qed.

(** What the [i]-th created line is made of. *)
Lemma make_lines_lookup actors now index running ds created i line :
  make_lines actors now index running ds = Some created →
  created !! i = Some line →
  ∃ d, ds !! i = Some d
       ∧ Line.actorId line = NewLine.actorId d
       ∧ Line.text line = NewLine.text d
       ∧ Line.beatIndex line = (running + delta_sum (take (S i) ds))%Z
       ∧ Line.audioUrl line = ""
       ∧ is_Some (find_actor actors (NewLine.actorId d)).
Proof.
  revert index running created i.
  induction ds as [|d ds IH]; intros index running created i; simpl.
  - by intros [= <-].
  - rewrite running_step.
    destruct (find_actor actors (NewLine.actorId d)) as [a|] eqn:Hfind; [|done].
    destruct (make_lines _ _ _ _ ds) as [rest|] eqn:Hrest; [|done].
    simpl. intros [= <-]. destruct i as [|i]; simpl.
    + intros [= <-]. exists d. simpl. rewrite Hfind.
      repeat split; try done. lia.
    + intros Hi. destruct (IH _ _ _ _ Hrest Hi) as (d' & Hd' & ? & ? & Hb & ? & ?).
      exists d'. repeat split; try done. rewrite Hb.
      destruct ds; simpl in *; lia.
Qed.

Lemma make_lines_None actors now index running ds :
  make_lines actors now index running ds = None
  ↔ ∃ d, d ∈ ds ∧ find_actor actors (NewLine.actorId d) = None.
Proof.
  revert index running.
  induction ds as [|d ds IH]; intros index running; simpl.
  - split; [done|]. by intros (d & Hd%elem_of_nil & _).
  - destruct (find_actor actors (NewLine.actorId d)) as [a|] eqn:Hfind.
    + destruct (make_lines _ _ _ _ ds) as [rest|] eqn:Hrest; simpl.
      * split; [done|]. intros (d' & Hd' & Hnone).
        apply elem_of_cons in Hd' as [->|Hd']; [congruence|].
        assert (make_lines actors now (S index)
                  (match NewLine.beatDelta d with
                   | same_beat => running
                   | next_beat => (running + 1)%Z
                   end) ds = None) as Habs by (apply IH; eauto).
        congruence.
      * split; [|done]. intros _. apply IH in Hrest as (d' & Hd' & Hnone).
        exists d'. split; [by apply elem_of_cons; right|done].
    + split; [|done]. intros _. exists d. split; [apply elem_of_cons; by left|done].
Qed.

Lemma make_lines_ids actors actors' now index running ds :
  Actor.id <$> actors = Actor.id <$> actors' →
  make_lines actors now index running ds = make_lines actors' now index running ds.
Proof.
  intros Hids. revert index running.
  induction ds as [|d ds IH]; intros index running; simpl; [done|].
  rewrite IH.
  destruct (find_actor actors (NewLine.actorId d)) as [a|] eqn:H1,
           (find_actor actors' (NewLine.actorId d)) as [a'|] eqn:H2; try done.
  - apply (find_actor_ids _ _ _ Hids) in H2. congruence.
  - apply (find_actor_ids _ _ _ Hids) in H1. congruence.
Qed.

Lemma map_of_lookup_aux {V} (entries : list (string * V)) (m : gmap string V) k :
  is_Some (foldl (λ m kv, <[kv.1 := kv.2]> m) m entries !! k)
  ↔ is_Some (m !! k) ∨ k ∈ entries.*1.
Proof.
  revert m. induction entries as [|[k' v] entries IH]; intros m; simpl.
  - split; [by left|]. by intros [?|?%elem_of_nil].
  - rewrite IH, lookup_insert_is_Some, elem_of_cons. simpl.
    destruct (decide (k' = k)) as [->|Hne]; intuition congruence.
Qed.

(** A key is in [new Map(entries)] exactly when some entry carries it. *)
Lemma map_of_lookup_is_Some {V} (entries : list (string * V)) k :
  is_Some (Js.map_of entries !! k) ↔ k ∈ entries.*1.
Proof.
  unfold Js.map_of. rewrite map_of_lookup_aux, lookup_empty.
  split; [intros [[? [=]]|?]; done|by right].
Qed.

Lemma map_of_lookup_elem_aux {V} (entries : list (string * V)) (m : gmap string V) k v :
  foldl (λ m kv, <[kv.1 := kv.2]> m) m entries !! k = Some v →
  m !! k = Some v ∨ (k, v) ∈ entries.
Proof.
  revert m. induction entries as [|[k' v'] entries IH]; intros m; simpl; [by left|].
  intros H. apply IH in H as [H|H]; [|right; by apply elem_of_cons; right].
  apply lookup_insert_Some in H as [[-> ->]|[_ H]]; [|by left].
  right. apply elem_of_cons. by left.
Qed.

(** What [get] returns was put there by some entry. *)
Lemma map_of_lookup_elem {V} (entries : list (string * V)) k v :
  Js.map_of entries !! k = Some v → (k, v) ∈ entries.
Proof.
  intros H. apply map_of_lookup_elem_aux in H as [H|H]; [|done].
  by rewrite lookup_empty in H.
Qed.

Lemma synthesize_fields w actorMap directives i line :
  let line' := synthesize w actorMap directives i line in
  Line.id line' = Line.id line
  ∧ Line.actorId line' = Line.actorId line
  ∧ Line.text line' = Line.text line
  ∧ Line.timestamp line' = Line.timestamp line
  ∧ Line.beatIndex line' = Line.beatIndex line.
Proof.
  unfold synthesize. destruct (actorMap !! Line.actorId line); [|done].
  by destruct (World.synthesizeLine _ _ _ _ _).
Qed.

Lemma processLinesWithTTS_fields lines actors i line :
  MockTTS.processLinesWithTTS lines actors !! i = Some line →
  ∃ line0, lines !! i = Some line0
           ∧ Line.actorId line = Line.actorId line0
           ∧ Line.beatIndex line = Line.beatIndex line0.
Proof.
  unfold MockTTS.processLinesWithTTS. rewrite list_lookup_fmap.
  destruct (lines !! i) as [line0|]; [|done]. simpl. intros [= <-].
  exists line0. split; [done|]. by destruct (actors !! Line.actorId line0).
Qed.

End line_creation.

(** ** Beat indices *)

Section beats.

Import Turn.

Lemma foldr_max_ge (l : list Z) (x : Z) : x ∈ l → (x ≤ foldr Z.max 0 l)%Z.
Proof.
  induction l as [|y l IH]; simpl; [by intros ?%elem_of_nil|].
  intros [->|Hx]%elem_of_cons; [lia|]. specialize (IH Hx). lia.
Qed.

Lemma delta_sum_nonneg ds : (0 ≤ delta_sum ds)%Z.
Proof.
  induction ds as [|d ds IH]; simpl; [done|].
  destruct (NewLine.beatDelta d); simpl; lia.
Qed.

Lemma make_lines_sorted actors now index running ds created :
  make_lines actors now index running ds = Some created →
  StronglySorted Z.le (Line.beatIndex <$> created)
  ∧ Forall (λ b, (running ≤ b)%Z) (Line.beatIndex <$> created).
Proof.
  revert index running created.
  induction ds as [|d ds IH]; intros index running created; simpl.
  - intros [= <-]. split; constructor.
  - rewrite running_step.
    destruct (find_actor actors (NewLine.actorId d)); [|done].
    destruct (make_lines _ _ _ _ ds) as [rest|] eqn:Hrest; [|done].
    simpl. intros [= <-]. destruct (IH _ _ _ Hrest) as [Hs Hge].
    pose proof (delta_sum_nonneg [d]) as Hd. simpl in Hd.
    split; simpl.
    + by constructor.
    + constructor; [lia|]. eapply Forall_impl; [exact Hge|]. simpl. intros b Hb. lia.
Qed.

Lemma imap_synthesize_beats w actorMap directives created :
  Line.beatIndex <$> imap (synthesize w actorMap directives) created
  = Line.beatIndex <$> created.
Proof.
  rewrite fmap_imap. rewrite <-(imap_const Line.beatIndex created).
  apply imap_ext. intros i line _. simpl.
  apply (synthesize_fields w actorMap directives i line).
Qed.

Lemma processLinesWithTTS_beats lines actors :
  Line.beatIndex <$> MockTTS.processLinesWithTTS lines actors = Line.beatIndex <$> lines.
Proof.
  unfold MockTTS.processLinesWithTTS. rewrite <-list_fmap_compose.
  apply list_fmap_ext. intros i line _. simpl.
  by destruct (actors !! Line.actorId line).
Qed.

Lemma generateMockLines_beats now r s cmd beat :
  Forall (λ b, b = (beat + 1)%Z)
    (Line.beatIndex <$> MockDirector.generateMockLines now r s cmd beat).
Proof.
  unfold MockDirector.generateMockLines.
  destruct (SceneState.actors s); [constructor|].
  rewrite <-list_fmap_compose. apply Forall_fmap, Forall_forall. by intros i _.
Qed.

Lemma constant_sorted (l : list Z) (c : Z) :
  Forall (λ b, b = c) l → StronglySorted Z.le l.
Proof.
  induction 1 as [|b l -> Hl IH]; constructor; [done|].
  eapply Forall_impl; [exact Hl|]. simpl. intros ? ->. lia.
Qed.

Lemma append_sorted (old new : list Z) :
  Sorted Z.le old → StronglySorted Z.le new →
  Forall (λ b, (foldr Z.max 0 old ≤ b)%Z) new →
  Sorted Z.le (old ++ new).
Proof.
  intros Hold Hnew Hge. apply StronglySorted_Sorted, StronglySorted_app.
  split; [|split; [|done]].
  - intros x1 x2 Hx1 Hx2. pose proof (foldr_max_ge _ _ Hx1) as H1.
    rewrite Forall_forall in Hge. specialize (Hge _ Hx2). simpl in Hge. lia.
  - by apply Sorted_StronglySorted; [apply _|].
Qed.

End beats.

(** ** The turn: beats, roster, appended lines *)

Section turn_properties.

Import Turn.

Lemma resolves_ids actors actors' line :
  Actor.id <$> actors = Actor.id <$> actors' →
  resolves actors line → resolves actors' line.
Proof.
  intros Hids (a & Ha & Hid).
  assert (Line.actorId line ∈ Actor.id <$> actors') as Hin.
  { rewrite <-Hids, <-Hid. by apply list_elem_of_fmap_2. }
  apply list_elem_of_fmap in Hin as (a' & Hid' & Ha'). by exists a'.
Qed.

(** What the [i]-th line of a successful primary turn is made of. *)
Lemma new_lines_primary w cur beat r st nl directives i line :
  (primary w cur beat r).1 = Success st nl →
  DirectorResponse.newLines r = Some directives →
  nl !! i = Some line →
  ∃ d c created,
    directives !! i = Some d ∧ i < 6
    ∧ make_lines (SceneState.actors (patched cur r)) (World.now_lines w) 0 beat
        (take 6 directives) = Some created
    ∧ created !! i = Some c
    ∧ line = synthesize w
               (Js.map_of ((λ actor, (Actor.id actor, actor))
                             <$> SceneState.actors (patched cur r)))
               directives i c
    ∧ Line.actorId c = NewLine.actorId d
    ∧ Line.text c = NewLine.text d
    ∧ Line.beatIndex c = (beat + delta_sum (take (S i) directives))%Z
    ∧ Line.audioUrl c = ""
    ∧ resolves (SceneState.actors st) c.
Proof.
  intros Hok Hds Hi.
  apply primary_success_inv in Hok
    as (ds & created & Hds' & _ & Hmake & -> & _ & Hactors & _).
  rewrite Hds in Hds'. injection Hds' as <-.
  apply list_lookup_imap_Some in Hi as (c & Hc & ->).
  destruct (make_lines_lookup _ _ _ _ _ _ _ _ Hmake Hc)
    as (d & Hd & Hid & Htext & Hbeat & Hurl & [a Ha]).
  apply lookup_take_Some in Hd as [Hd Hlt].
  exists d, c, created. repeat split; try done.
  - rewrite Hbeat, take_take. by replace (S i `min` 6) with (S i) by lia.
  - apply find_actor_Some in Ha as [Hin Ha]. exists a. rewrite Hactors.
    split; [done|]. by rewrite Hid.
Qed.

Lemma resolves_synthesize w actorMap directives i actors c :
  resolves actors c → resolves actors (synthesize w actorMap directives i c).
Proof.
  intros (a & Ha & Hid). exists a. split; [done|].
  destruct (synthesize_fields w actorMap directives i c) as (_ & -> & _). done.
Qed.



(** C4: when every line of the input state names a speaker on its
    roster, so does every line of the state a successful turn returns,
    on the primary path and on the fallback path alike. *)
Theorem turn_keeps_lines_on_roster w req st nl :
  (∀ s, sceneState req = Some s →
        Forall (resolves (SceneState.actors s)) (SceneState.lines s)) →
  response (handler w req) = Success st nl →
  Forall (resolves (SceneState.actors st)) (SceneState.lines st).
Proof.
  intros Hin Hok.
  assert (Forall (resolves (SceneState.actors (initial_scene w req)))
            (input_lines req)) as Hold.
  { unfold initial_scene, input_lines.
    destruct (sceneState req) as [s|]; [by apply Hin|constructor]. }
  apply handler_success_inv in Hok as (command & _ & _ & _ & Hok).
  destruct (DirectorAgent.runDirectorAgent _) as [r|].
  - pose proof Hok as Hinv.
    apply primary_success_inv in Hinv
      as (ds & created & Hds & _ & _ & Hnl & Hlines & Hactors & _).
    rewrite Hlines, initial_scene_lines. apply Forall_app. split.
    + eapply Forall_impl; [exact Hold|]. intros line. apply resolves_ids.
      by rewrite Hactors, patched_ids.
    + apply Forall_lookup. intros i line Hi.
      destruct (new_lines_primary _ _ _ _ _ _ _ _ _ Hok Hds Hi)
        as (d & c & ? & _ & _ & _ & _ & -> & _ & _ & _ & _ & Hres).
      by apply resolves_synthesize.
  - apply fallback_success_inv in Hok as (-> & Hlines & Hactors & _).
    rewrite Hlines, initial_scene_lines, Hactors. apply Forall_app.
    split; [done|]. apply Forall_lookup. intros i line Hi.
    apply processLinesWithTTS_fields in Hi as (line0 & Hi & Hid & _).
    pose proof (generateMockLines_actors (World.now_lines w) (World.random w)
                  (initial_scene w req) command (initial_beat req)) as Hgen.
    rewrite Forall_lookup in Hgen. destruct (Hgen _ _ Hi) as (a & Ha & Hida).
    exists a. split; [done|]. congruence.
Qed.

Lemma turn_keeps_lines_on_roster_witness :
  ∃ st nl,
    response (handler Sample.director_down Sample.continue_request) = Success st nl
    ∧ Forall (resolves (SceneState.actors st)) (SceneState.lines st).
Proof.
  eexists _, _. split; [vm_compute; reflexivity|].
  refine (turn_keeps_lines_on_roster
            Sample.director_down Sample.continue_request _ _ _ _).
  - intros s [= <-]. simpl.
    repeat constructor;
      [exists (Actor.mk "actor-1" "Alex" protagonist en "21m00Tcm4TlvDq8ikWAM" "dramatic")
      |exists (Actor.mk "actor-2" "Sam" antagonist en "pNInz6obpgDQGcFmaJgB" "neutral")];
      (split; [|reflexivity]); unfold defaultActors;
      repeat (first [apply list_elem_of_here | apply list_elem_of_further]).
  - vm_compute. reflexivity.
Defined.

Lemma processLinesWithTTS_length lines actors :
  length (MockTTS.processLinesWithTTS lines actors) = length lines.
Proof. unfold MockTTS.processLinesWithTTS. by rewrite length_fmap. Qed.




Lemma primary_unknown_actor w cur beat r directives d :
  DirectorResponse.newLines r = Some directives →
  d ∈ take 6 directives →
  NewLine.actorId d ∉ Actor.id <$> SceneState.actors cur →
  (primary w cur beat r).1 = internal_error.
Proof.
  intros Hds Hd Hnot. unfold primary. fold (patched cur r). rewrite Hds.
  destruct directives as [|d0 ds]; [done|].
  assert (make_lines (SceneState.actors (patched cur r)) (World.now_lines w) 0 beat
            (take 6 (d0 :: ds)) = None) as ->; [|done].
  apply make_lines_None. exists d. split; [done|].
  apply find_actor_None. by rewrite patched_ids.
Qed.

(** C2 (as the code has it): when one of the first six new-line
    directives of a primary Director response names an [actorId] that is
    not on the scene's roster, the turn fails: the caller receives an error
    payload, which carries no scene state, whatever metadata, actor patches
    and other lines the response held. *)
Theorem unknown_actor_fails_turn w req r directives d :
  DirectorAgent.runDirectorAgent (World.director_reply w) = Some r →
  DirectorResponse.newLines r = Some directives →
  d ∈ take 6 directives →
  NewLine.actorId d ∉ Actor.id <$> SceneState.actors (initial_scene w req) →
  ∃ status error,
    response (handler w req) = Failure status error
    ∧ (method req = "POST" →
       (∃ command, userCommand req = Some command ∧ Js.truthy command = true) →
       response (handler w req) = internal_error).
Proof.
  intros Hr Hds Hd Hnot.
  pose proof (primary_unknown_actor w _ (initial_beat req) _ _ _ Hds Hd Hnot) as Hp.
  unfold handler. case_bool_decide as Hm; simpl.
  - destruct (userCommand req) as [command|].
    + destruct (Js.truthy command) eqn:Hc; simpl.
      * rewrite Hr. simpl. rewrite Hp. by eexists _, _.
      * eexists _, _. split; [done|]. intros _ (c & [= <-] & Hc'). congruence.
    + eexists _, _. split; [done|]. by intros _ (c & [=] & _).
  - eexists _, _. split; [done|]. by intros ?.
Qed.

Lemma unknown_actor_fails_turn_witness :
  response (handler Sample.director_ghost Sample.horror_request) = internal_error.
Proof.
  destruct (unknown_actor_fails_turn
              Sample.director_ghost Sample.horror_request Sample.ghost_lines
              [ NewLine.mk "actor-1" lang_en "One." next_beat;
                NewLine.mk "ghost" lang_en "Two." same_beat;
                NewLine.mk "actor-3" lang_en "Three." same_beat ]
              (NewLine.mk "ghost" lang_en "Two." same_beat))
    as (status & error & _ & Herr).
  - reflexivity.
  - reflexivity.
  - simpl. apply list_elem_of_further, list_elem_of_here.
  - vm_compute. intros Hin. by repeat (apply elem_of_cons in Hin as [Hin|Hin]; [done|]);
      apply elem_of_nil in Hin.
  - apply Herr; [reflexivity|]. by exists "Make it horror".
Defined.

(** C2 fails as stated: a seventh directive naming a speaker off the
    roster does not fail the turn. *)
Lemma unknown_seventh_actor_succeeds :
  ∃ directives d st nl,
    DirectorAgent.runDirectorAgent (World.director_reply Sample.director_verbose)
    = Some Sample.seven_lines
    ∧ DirectorResponse.newLines Sample.seven_lines = Some directives
    ∧ d ∈ directives
    ∧ (NewLine.actorId d
       ∉ Actor.id <$> SceneState.actors
                        (initial_scene Sample.director_verbose Sample.horror_request))
    ∧ response (handler Sample.director_verbose Sample.horror_request) = Success st nl.
Proof.
  eexists _, (NewLine.mk "ghost" lang_en "Seven." same_beat), _, _.
  split; [reflexivity|]. split; [reflexivity|]. split; [|split].
  - repeat (first [apply list_elem_of_here | apply list_elem_of_further]).
  - vm_compute. intros Hin. by repeat (apply elem_of_cons in Hin as [Hin|Hin]; [done|]);
      apply elem_of_nil in Hin.
  - vm_compute. reflexivity.
Qed.

Lemma find_app_Some {A} (p : A → bool) (l1 l2 : list A) x :
  find p l1 = Some x → find p (l1 ++ l2) = Some x.
Proof.
  induction l1 as [|y l1 IH]; simpl; [done|]. by destruct (p y).
Qed.

Lemma find_is_Some {A} (p : A → bool) (l : list A) x :
  x ∈ l → p x = true → is_Some (find p l).
Proof.
  intros Hx Hp. destruct (find p l) eqn:Hf; [done|].
  apply list_elem_of_In in Hx. pose proof (find_none _ _ Hf _ Hx). congruence.
Qed.

(** The language lookup of the fan-out never reaches past the directives
    that were turned into lines. *)
Lemma synthesize_take w actors actorMap now beat ds created i c :
  make_lines actors now 0 beat (take 6 ds) = Some created →
  created !! i = Some c →
  synthesize w actorMap ds i c = synthesize w actorMap (take 6 ds) i c.
Proof.
  intros Hmake Hc.
  destruct (make_lines_lookup _ _ _ _ _ _ _ _ Hmake Hc)
    as (d & Hd & Hid & Htext & _).
  unfold synthesize. destruct (actorMap !! Line.actorId c) as [actor|]; [|done].
  set (p := λ dl : NewLine.t,
              bool_decide (NewLine.actorId dl = Line.actorId c)
              && bool_decide (NewLine.text dl = Line.text c)).
  assert (is_Some (find p (take 6 ds))) as [x Hx].
  { apply (find_is_Some p _ d); [by eapply list_elem_of_lookup_2|].
    unfold p. rewrite Hid, Htext. by rewrite !bool_decide_eq_true_2. }
  rewrite Hx. rewrite <-(take_drop 6 ds) at 1.
  by rewrite (find_app_Some p _ _ _ Hx).
Qed.

Lemma patched_with_newLines cur r ds : patched cur (with_newLines r ds) = patched cur r.
Proof. done. Qed.

Lemma primary_take w cur beat r ds :
  DirectorResponse.newLines r = Some ds →
  primary w cur beat (with_newLines r (take 6 ds)) = primary w cur beat r.
Proof.
  intros Hds. unfold primary.
  fold (patched cur (with_newLines r (take 6 ds))). fold (patched cur r).
  rewrite patched_with_newLines, Hds. simpl.
  destruct ds as [|d ds]; [done|].
  change (take 6 (d :: ds)) with (d :: take 5 ds) at 1.
  cbv iota beta. change (d :: take 5 ds) with (take 6 (d :: ds)).
  rewrite take_take. change (6 `min` 6) with 6.
  destruct (make_lines _ _ _ _ _) as [created|] eqn:Hmake; [|done].
  assert (imap (synthesize w
                  (Js.map_of ((λ actor, (Actor.id actor, actor))
                                <$> SceneState.actors (patched cur r)))
                  (take 6 (d :: ds))) created
          = imap (synthesize w
                    (Js.map_of ((λ actor, (Actor.id actor, actor))
                                  <$> SceneState.actors (patched cur r)))
                    (d :: ds)) created) as ->; [|done].
  apply imap_ext. intros i c Hc. symmetry. by eapply synthesize_take.
Qed.

Lemma runDirectorAgent_Some reply r :
  DirectorAgent.runDirectorAgent reply = Some r →
  reply = Some r ∧ is_Some (DirectorResponse.sceneMetadata r).
Proof.
  unfold DirectorAgent.runDirectorAgent. destruct reply as [r'|]; [|done].
  destruct (DirectorResponse.sceneMetadata r') eqn:Hm; [|done].
  destruct (DirectorResponse.newLines r'); [|done].
  intros [= <-]. by rewrite Hm.
Qed.

(** C10: on the primary path only the first six directives of the
    Director response become lines: a successful turn appends
    [min 6 (number of directives)] lines, hence at most six, and the
    directives past the sixth are dropped without effect, the outcome
    being the one of the response cut to its first six directives. *)
Theorem primary_turn_keeps_first_six w req r directives :
  DirectorAgent.runDirectorAgent (World.director_reply w) = Some r →
  DirectorResponse.newLines r = Some directives →
  handler (World.with_director_reply w (Some (with_newLines r (take 6 directives)))) req
  = handler w req
  ∧ ∀ st nl,
      response (handler w req) = Success st nl →
      length nl = 6 `min` length directives
      ∧ length nl ≤ 6
      ∧ SceneState.lines st = input_lines req ++ nl.
Proof.
  intros Hr Hds. split.
  - unfold handler. case_bool_decide; simpl; [|done].
    destruct (userCommand req) as [command|]; [|done].
    destruct (Js.truthy command); simpl; [|done].
    rewrite Hr. apply runDirectorAgent_Some in Hr as [_ [m Hm]].
    unfold DirectorAgent.runDirectorAgent. simpl. rewrite Hm.
    change (initial_scene (World.with_director_reply w
              (Some (with_newLines r (take 6 directives)))) req)
      with (initial_scene w req).
    change (primary (World.with_director_reply w
              (Some (with_newLines r (take 6 directives)))))
      with (primary w).
    by rewrite (primary_take _ _ _ _ _ Hds).
  - intros st nl Hok.
    apply handler_success_inv in Hok as (command & _ & _ & _ & Hok).
    rewrite Hr in Hok.
    apply primary_success_inv in Hok
      as (ds & created & Hds' & _ & Hmake & -> & Hlines & _).
    rewrite Hds in Hds'. injection Hds' as <-.
    apply make_lines_length in Hmake. rewrite length_take in Hmake.
    rewrite length_imap, Hlines, initial_scene_lines. repeat split; lia.
Qed.

Lemma primary_turn_keeps_first_six_witness :
  ∃ st nl,
    response (handler Sample.director_verbose Sample.horror_request) = Success st nl
    ∧ length nl ≤ 6.
Proof.
  eexists _, _. split; [vm_compute; reflexivity|].
  refine (proj1 (proj2 (proj2 (primary_turn_keeps_first_six
                                 Sample.director_verbose Sample.horror_request
                                 Sample.seven_lines _ _ _) _ _ _))).
  - reflexivity.
  - reflexivity.
  - vm_compute. reflexivity.
Defined.

(** The new lines of a turn, read off the handler. *)
Lemma new_lines_of_handler w req :
  new_lines_of (handler w req)
  = if negb (bool_decide (method req = "POST")) then []
    else match userCommand req with
         | None => []
         | Some command =>
             if negb (Js.truthy command) then []
             else
               match DirectorAgent.runDirectorAgent (World.director_reply w) with
               | None =>
                   MockTTS.processLinesWithTTS
                     (MockDirector.generateMockLines (World.now_lines w) (World.random w)
                        (initial_scene w req) command (initial_beat req))
                     (Js.map_of ((λ actor, (Actor.id actor, Actor.voiceId actor))
                                   <$> SceneState.actors (initial_scene w req)))
               | Some r =>
                   match DirectorResponse.newLines r with
                   | Some (d :: ds) =>
                       match make_lines
                               (SceneState.actors (patched (initial_scene w req) r))
                               (World.now_lines w) 0 (initial_beat req)
                               (take 6 (d :: ds)) with
                       | Some created =>
                           imap (synthesize w
                                   (Js.map_of ((λ actor, (Actor.id actor, actor))
                                      <$> SceneState.actors
                                            (patched (initial_scene w req) r)))
                                   (d :: ds)) created
                       | None => []
                       end
                   | _ => []
                   end
               end
         end.
Proof.
  unfold new_lines_of, handler.
  destruct (bool_decide (method req = "POST")); cbn [negb]; [|done].
  destruct (userCommand req) as [command|]; [|done].
  destruct (Js.truthy command); cbn [negb]; [|done].
  destruct (DirectorAgent.runDirectorAgent _) as [r|]; cbn [response]; [|done].
  unfold primary. fold (patched (initial_scene w req) r).
  destruct (DirectorResponse.newLines r) as [[|d ds]|]; try done.
  by destruct (make_lines _ _ _ _ _).
Qed.

Lemma is_success_handler w req :
  is_success (handler w req)
  = bool_decide (method req = "POST")
    && match userCommand req with
       | None => false
       | Some command =>
           Js.truthy command
           && match DirectorAgent.runDirectorAgent (World.director_reply w) with
              | None => true
              | Some r =>
                  match DirectorResponse.newLines r with
                  | Some (d :: ds) =>
                      bool_decide
                        (is_Some
                           (make_lines
                              (SceneState.actors (patched (initial_scene w req) r))
                              (World.now_lines w) 0 (initial_beat req)
                              (take 6 (d :: ds))))
                  | _ => false
                  end
              end
       end.
Proof.
  unfold is_success, handler.
  destruct (bool_decide (method req = "POST")); cbn [negb andb]; [|done].
  destruct (userCommand req) as [command|]; [|done].
  destruct (Js.truthy command); cbn [negb andb]; [|done].
  destruct (DirectorAgent.runDirectorAgent _) as [r|]; cbn [response]; [|done].
  unfold primary. fold (patched (initial_scene w req) r).
  destruct (DirectorResponse.newLines r) as [[|d ds]|]; try done.
  by destruct (make_lines _ _ _ _ _).
Qed.

Lemma synthesize_at w f g actorMap directives j c :
  (∀ text voiceId lang, f j text voiceId lang = g j text voiceId lang) →
  synthesize (World.with_synthesizeLine w f) actorMap directives j c
  = synthesize (World.with_synthesizeLine w g) actorMap directives j c.
Proof.
  intros Hfg. unfold synthesize. simpl.
  destruct (actorMap !! Line.actorId c); [|done]. by rewrite Hfg.
Qed.

Lemma synthesize_rejected w actorMap directives i c :
  (∀ text voiceId lang, World.synthesizeLine w i text voiceId lang = None) →
  synthesize w actorMap directives i c = c.
Proof.
  intros Hnone. unfold synthesize.
  destruct (actorMap !! Line.actorId c); [|done]. by rewrite Hnone.
Qed.

(** C8: speech-synthesis failures are isolated per line.  Whether the
    turn succeeds does not depend on any synthesis outcome; the [j]-th new
    line depends on the outcome of its own synthesis call only; and on the
    primary path a line whose synthesis is rejected is in the returned
    state, at its place after the input's lines, with an empty
    [audioUrl]. *)
Theorem synthesis_failures_are_isolated w req :
  (∀ f, is_success (handler (World.with_synthesizeLine w f) req)
        = is_success (handler w req))
  ∧ (∀ f g j,
       (∀ text voiceId lang, f j text voiceId lang = g j text voiceId lang) →
       new_lines_of (handler (World.with_synthesizeLine w f) req) !! j
       = new_lines_of (handler (World.with_synthesizeLine w g) req) !! j)
  ∧ (∀ r st nl i,
       DirectorAgent.runDirectorAgent (World.director_reply w) = Some r →
       response (handler w req) = Success st nl →
       i < length nl →
       (∀ text voiceId lang, World.synthesizeLine w i text voiceId lang = None) →
       ∃ line,
         nl !! i = Some line
         ∧ Line.audioUrl line = ""
         ∧ SceneState.lines st !! (length (input_lines req) + i) = Some line).
Proof.
  split; [|split].
  - intros f. by rewrite !is_success_handler.
  - intros f g j Hfg. rewrite !new_lines_of_handler.
    change (initial_scene (World.with_synthesizeLine w f) req)
      with (initial_scene w req).
    change (initial_scene (World.with_synthesizeLine w g) req)
      with (initial_scene w req).
    cbn [World.director_reply World.now_lines World.random World.with_synthesizeLine].
    destruct (bool_decide (method req = "POST")); cbn [negb]; [|done].
    destruct (userCommand req) as [command|]; [|done].
    destruct (Js.truthy command); cbn [negb]; [|done].
    destruct (DirectorAgent.runDirectorAgent _) as [r|]; [|done].
    destruct (DirectorResponse.newLines r) as [[|d ds]|]; try done.
    destruct (make_lines _ _ _ _ _) as [created|]; [|done].
    rewrite !list_lookup_imap. destruct (created !! j) as [c|]; [|done].
    simpl. f_equal. by apply synthesize_at.
  - intros r st nl i Hr Hok Hi Hnone.
    apply handler_success_inv in Hok as (command & _ & _ & _ & Hok).
    rewrite Hr in Hok.
    destruct (lookup_lt_is_Some_2 _ _ Hi) as [line Hline].
    pose proof Hok as Hinv.
    apply primary_success_inv in Hinv as (ds & created & Hds & _ & _ & _ & Hlines & _).
    destruct (new_lines_primary _ _ _ _ _ _ _ _ _ Hok Hds Hline)
      as (d & c & ? & _ & _ & _ & _ & Hsyn & _ & _ & _ & Hurl & _).
    rewrite synthesize_rejected in Hsyn by done. subst c.
    exists line. split; [done|]. split; [done|].
    rewrite Hlines, initial_scene_lines.
    rewrite lookup_app_r by lia.
    by replace (length (input_lines req) + i - length (input_lines req)) with i by lia.
Qed.

Lemma synthesis_failures_are_isolated_witness :
  ∃ st nl,
    response (handler Sample.director_up Sample.continue_request) = Success st nl
    ∧ ∃ line,
        nl !! 1 = Some line
        ∧ Line.audioUrl line = ""
        ∧ SceneState.lines st !! (length (input_lines Sample.continue_request) + 1)
          = Some line.
Proof.
  eexists _, _. split; [vm_compute; reflexivity|].
  refine (proj2 (proj2 (synthesis_failures_are_isolated
                          Sample.director_up Sample.continue_request))
            Sample.three_lines _ _ 1 _ _ _ _).
  - reflexivity.
  - vm_compute. reflexivity.
  - simpl. lia.
  - intros text voiceId lang. reflexivity.
Defined.

Lemma patched_genre cur r m :
  DirectorResponse.sceneMetadata r = Some m →
  SceneState.genre (patched cur r) = SceneMetadata.genre m.
Proof.
  intros Hm. unfold patched, apply_actor_updates, apply_metadata. rewrite Hm.
  by destruct (DirectorResponse.updatedActors r) as [[|u us]|].
Qed.

(** C9 (as the code has it): a turn with the command ["Make it horror"]
    and no prior state, when it succeeds, returns a scene whose roster has
    exactly the three default ids; its genre is the genre of the Director's
    metadata on the primary path, and on the fallback path it is the
    default scene's ["drama"], the command not being inspected.  Such a
    turn fails only on the primary path. *)
Theorem horror_turn_from_scratch w :
  match response (handler w (mk_request "POST" None (Some "Make it horror"))) with
  | Success st nl =>
      Actor.id <$> SceneState.actors st = ["actor-1"; "actor-2"; "actor-3"]
      ∧ match DirectorAgent.runDirectorAgent (World.director_reply w) with
        | None => SceneState.genre st = "drama"
        | Some r =>
            SceneMetadata.genre <$> DirectorResponse.sceneMetadata r
            = Some (SceneState.genre st)
        end
  | Failure status error =>
      status = 500 ∧ is_Some (DirectorAgent.runDirectorAgent (World.director_reply w))
  end.
Proof.
  set (req := mk_request "POST" None (Some "Make it horror")).
  destruct (response (handler w req)) as [st nl|status error] eqn:Hr.
  - apply handler_success_inv in Hr as (command & _ & _ & _ & Hok).
    destruct (DirectorAgent.runDirectorAgent _) as [r|] eqn:Hrun.
    + apply runDirectorAgent_Some in Hrun as [_ [m Hm]].
      apply primary_success_inv in Hok as (_ & _ & _ & _ & _ & _ & _ & Hactors & Hgenre).
      rewrite Hactors, patched_ids, Hgenre, (patched_genre _ _ _ Hm), Hm. done.
    + apply fallback_success_inv in Hok as (_ & _ & -> & ->). done.
  - revert Hr. unfold handler.
    cbn [method userCommand req bool_decide negb Js.truthy].
    rewrite bool_decide_eq_true_2 by done. cbn [negb].
    destruct (DirectorAgent.runDirectorAgent _) as [r|] eqn:Hrun; [|done].
    cbn [response]. unfold primary.
    destruct (DirectorResponse.newLines r) as [[|d ds]|];
      try (by intros [= <- <-]).
    destruct (make_lines _ _ _ _ _); [done|]. by intros [= <- <-].
Qed.

(** The keyword check on the genre lives in [createInitialScene], which
    the handler does not call. *)
Lemma createInitialScene_horror now r_genre r_setting command :
  Js.includes (Js.toLowerCase command) "horror" = true →
  SceneState.genre (MockDirector.createInitialScene now r_genre r_setting (Some command))
  = "horror".
Proof. intros H. unfold MockDirector.createInitialScene. simpl. by rewrite H. Qed.

(** C9 fails as stated: with the Director down the scene comes back with
    the default genre, which does not mention horror. *)
Lemma horror_fallback_is_drama :
  ∃ st nl,
    response (handler Sample.director_down
                (mk_request "POST" None (Some "Make it horror"))) = Success st nl
    ∧ SceneState.genre st = "drama"
    ∧ Js.includes (Js.toLowerCase (SceneState.genre st)) "horror" = false.
Proof. eexists _, _. split; [vm_compute; reflexivity|]. by split. Qed.

(** C7: the fallback generator is a total function; with nobody on the
    roster it returns no line, otherwise it returns between 2 and 4 lines
    (3 or 4), and every line it returns names a speaker on the roster. *)
Theorem fallback_generator_lines now r s command beat :
  match SceneState.actors s with
  | [] => MockDirector.generateMockLines now r s command beat = []
  | _ :: _ =>
      2 ≤ length (MockDirector.generateMockLines now r s command beat) ≤ 4
      ∧ length (MockDirector.generateMockLines now r s command beat)
        = 3 + Random.floor_times r 2
  end
  ∧ Forall (resolves (SceneState.actors s))
      (MockDirector.generateMockLines now r s command beat).
Proof.
  split.
  - pose proof (generateMockLines_length now r s command beat) as Hlen.
    destruct (SceneState.actors s) as [|a rest].
    + by apply nil_length_inv.
    + pose proof (floor_times_lt r 2). lia.
  - eapply Forall_impl; [apply generateMockLines_actors|].
    intros line (a & Ha & Hid). by exists a.
Qed.

End turn_properties.

(** ** Facts about strings *)

Section string_facts.

Lemma app_cons c s t : String c s +:+ t = String c (s +:+ t).
Proof. done. Qed.

Lemma string_length_app s t : String.length (s +:+ t) = String.length s + String.length t.
Proof. induction s as [|c s IH]; [done|]. rewrite app_cons. simpl. by rewrite IH. Qed.

Lemma length_substring0 k s : String.length (Js.substring0 k s) ≤ k.
Proof.
  unfold Js.substring0. revert s.
  induction k as [|k IH]; intros [|c s]; simpl; try lia.
  specialize (IH s). lia.
Qed.

Lemma substring0_all k s : String.length s ≤ k → Js.substring0 k s = s.
Proof.
  unfold Js.substring0. revert s.
  induction k as [|k IH]; intros [|c s]; simpl; try done; try lia.
  intros Hle. f_equal. apply IH. lia.
Qed.

Lemma prefix_nil s : String.prefix "" s = true.
Proof. by destruct s. Qed.

Lemma prefix_app u s t : String.prefix u s = true → String.prefix u (s +:+ t) = true.
Proof.
  revert s. induction u as [|a u IH]; intros s; [intros _; apply prefix_nil|].
  destruct s as [|b s]; simpl; [done|].
  destruct (ascii_dec a b); [apply IH|done].
Qed.

Lemma prefix_refl s : String.prefix s s = true.
Proof.
  induction s as [|a s IH]; [done|]. simpl. by destruct (ascii_dec a a).
Qed.

Lemma includes_refl s : Js.includes s s = true.
Proof. destruct s; cbn [Js.includes]; [done|]. by rewrite prefix_refl. Qed.

Lemma includes_app_l s t u : Js.includes s u = true → Js.includes (s +:+ t) u = true.
Proof.
  induction s as [|c s IH].
  - simpl. rewrite orb_false_r. intros Hu. destruct u; [|done].
    destruct t; simpl; by rewrite ?prefix_nil.
  - rewrite app_cons. cbn [Js.includes]. intros [Hp|Hi]%orb_true_iff.
    + apply orb_true_iff. left. by apply (prefix_app u (String c s) t).
    + apply orb_true_iff. right. by apply IH.
Qed.

Lemma includes_app_r s t u : Js.includes t u = true → Js.includes (s +:+ t) u = true.
Proof.
  intros Hu. induction s as [|c s IH]; [done|].
  rewrite app_cons. cbn [Js.includes]. rewrite IH. apply orb_true_r.
Qed.

Lemma includes_concat sep l s :
  s ∈ l → Js.includes (String.concat sep l) s = true.
Proof.
  induction l as [|x l IH]; [by intros ?%elem_of_nil|].
  intros Hs. destruct l as [|y l].
  - apply list_elem_of_singleton in Hs as ->. apply includes_refl.
  - change (String.concat sep (x :: y :: l))
      with (x +:+ sep +:+ String.concat sep (y :: l)).
    apply elem_of_cons in Hs as [->|Hs].
    + apply includes_app_l, includes_refl.
    + by apply includes_app_r, includes_app_r, IH.
Qed.

Lemma weight_app l1 l2 : weight (l1 ++ l2) = weight l1 + weight l2.
Proof. induction l1 as [|x l1 IH]; simpl; [done|]. rewrite IH. lia. Qed.

Lemma weight_take n l : weight (take n l) ≤ weight l.
Proof.
  revert n. induction l as [|x l IH]; intros [|n]; simpl; try lia.
  specialize (IH n). lia.
Qed.

Lemma weight_filter (P : string → Prop) `{!∀ s, Decision (P s)} l :
  weight (filter P l) ≤ weight l.
Proof.
  induction l as [|x l IH]; [done|]. rewrite filter_cons.
  destruct (decide (P x)); simpl; lia.
Qed.

Lemma length_concat_space l : String.length (String.concat " " l) ≤ weight l.
Proof.
  induction l as [|x l IH]; [done|]. destruct l as [|y l].
  - simpl. lia.
  - change (String.concat " " (x :: y :: l))
      with (x +:+ " " +:+ String.concat " " (y :: l)).
    rewrite !string_length_app. change (weight (x :: y :: l))
      with (S (String.length x) + weight (y :: l)).
    simpl String.length at 2. lia.
Qed.

End string_facts.

(** ** The summarizer: length and tone *)

Section summarizer_facts.

Import Summarizer.

Lemma recentLines_length lines : length (recentLines lines) ≤ 10.
Proof. unfold recentLines, Js.slice_last. rewrite length_drop. lia. Qed.

Lemma recentLines_nil lines : recentLines lines = [] ↔ lines = [].
Proof.
  split; [|by intros ->].
  intros H. apply (f_equal length) in H.
  unfold recentLines, Js.slice_last in H. rewrite length_drop in H. simpl in H.
  apply nil_length_inv. lia.
Qed.

Lemma remove_dups_length `{EqDecision A} (l : list A) :
  length (remove_dups l) ≤ length l.
Proof.
  induction l as [|x l IH]; simpl; [done|].
  destruct (decide_rel elem_of x l); simpl; lia.
Qed.

Lemma beatCount_le recent : beatCount recent ≤ length recent.
Proof.
  unfold beatCount. etrans; [apply remove_dups_length|]. by rewrite length_fmap.
Qed.

Lemma string_of_nat_short n : n ≤ 10 → String.length (Js.string_of_nat n) ≤ 2.
Proof.
  intros Hn. do 11 (destruct n as [|n]; [vm_compute; lia|]). lia.
Qed.

Lemma speaker_name_bound N actors actorId :
  7 ≤ N →
  Forall (λ actor, String.length (Actor.name actor) ≤ N) actors →
  String.length
    (speaker_name (Js.map_of ((λ actor, (Actor.id actor, actor)) <$> actors)) actorId)
  ≤ N.
Proof.
  intros HN Hnames. unfold speaker_name.
  destruct (_ !! actorId) as [actor|] eqn:Hget; [|done].
  apply map_of_lookup_elem, list_elem_of_fmap in Hget as (a & [= _ ->] & Ha).
  rewrite Forall_forall in Hnames. by apply Hnames.
Qed.

Lemma mainSpeakers_bound N recent actors :
  7 ≤ N →
  Forall (λ actor, String.length (Actor.name actor) ≤ N) actors →
  Forall (λ s, String.length s ≤ N) (mainSpeakers recent actors).
Proof.
  intros HN Hnames. unfold mainSpeakers. apply Forall_fmap, Forall_forall.
  intros entry _. simpl. by apply speaker_name_bound.
Qed.

Lemma weight_speakers_part N speakers :
  Forall (λ s, String.length s ≤ N) speakers →
  weight (speakers_part speakers) ≤ 3 * N + 31.
Proof.
  intros H. destruct H as [|a ? Ha [|b ? Hb [|c ? Hc _]]];
    simpl; rewrite ?string_length_app; simpl; lia.
Qed.

Lemma weight_topics_part phrases : weight (topics_part phrases) ≤ 147.
Proof.
  unfold topics_part. destruct (0 <? length phrases); [|simpl; lia].
  simpl. rewrite !string_length_app.
  pose proof (length_substring0 120 (String.concat " " (take 2 phrases))).
  simpl. lia.
Qed.

Lemma weight_tone_part tone : weight (tone_part tone) ≤ 35.
Proof. destruct tone; vm_compute; lia. Qed.

Lemma weight_beats_part recent :
  length recent ≤ 10 → weight (beats_part recent) ≤ 50.
Proof.
  intros Hlen. unfold beats_part. destruct (1 <? beatCount recent); [|simpl; lia].
  simpl. rewrite !string_length_app.
  pose proof (beatCount_le recent).
  pose proof (string_of_nat_short (beatCount recent)).
  simpl. lia.
Qed.

Lemma weight_prev_part prevSummary : weight (prev_part prevSummary) ≤ 134.
Proof.
  unfold prev_part. destruct (_ && _); [|simpl; lia].
  destruct (filter _ _) as [|first rest]; [simpl; lia|].
  simpl. rewrite !string_length_app. pose proof (length_substring0 100 first).
  simpl. lia.
Qed.

Lemma finalSummary_length N prevSummary recent actors :
  7 ≤ N →
  length recent ≤ 10 →
  Forall (λ actor, String.length (Actor.name actor) ≤ N) actors →
  String.length (finalSummary prevSummary recent actors) ≤ 3 * N + 397.
Proof.
  intros HN Hlen Hnames. unfold finalSummary.
  etrans; [apply length_concat_space|].
  etrans; [apply weight_take|]. etrans; [apply weight_filter|].
  unfold summaryParts. rewrite !weight_app.
  pose proof (weight_speakers_part N _ (mainSpeakers_bound N recent actors HN Hnames)).
  pose proof (weight_topics_part (keyPhrases recent)).
  pose proof (weight_tone_part (classify (allText recent))).
  pose proof (weight_beats_part recent Hlen).
  pose proof (weight_prev_part prevSummary).
  lia.
Qed.

Lemma summaryParts_length prevSummary recent actors :
  length (summaryParts prevSummary recent actors) ≤ 5.
Proof.
  unfold summaryParts. rewrite !length_app.
  assert (length (speakers_part (mainSpeakers recent actors)) ≤ 1).
  { unfold speakers_part.
    destruct (mainSpeakers recent actors) as [|? [|? [|? ?]]]; simpl; lia. }
  assert (length (topics_part (keyPhrases recent)) ≤ 1).
  { unfold topics_part. destruct (0 <? _); simpl; lia. }
  assert (length (tone_part (classify (allText recent))) ≤ 1).
  { destruct (classify _); simpl; lia. }
  assert (length (beats_part recent) ≤ 1).
  { unfold beats_part. destruct (1 <? _); simpl; lia. }
  assert (length (prev_part prevSummary) ≤ 1).
  { unfold prev_part. destruct (_ && _); [|simpl; lia].
    destruct (filter _ _); simpl; lia. }
  lia.
Qed.

Lemma tone_sentence_in_parts prevSummary recent actors :
  classify (allText recent) ≠ neutral →
  toneDescriptions (classify (allText recent))
  ∈ summaryParts prevSummary recent actors.
Proof.
  intros Hne. unfold summaryParts.
  apply elem_of_app. right. apply elem_of_app. right. apply elem_of_app. left.
  destruct (classify _); try done; apply list_elem_of_here.
Qed.

Lemma tone_sentence_in_final prevSummary recent actors :
  classify (allText recent) ≠ neutral →
  Js.includes (finalSummary prevSummary recent actors)
    (toneDescriptions (classify (allText recent))) = true.
Proof.
  intros Hne. unfold finalSummary. apply includes_concat.
  rewrite take_ge.
  - apply list_elem_of_filter. split; [|by apply tone_sentence_in_parts].
    by destruct (classify _).
  - etrans; [apply length_filter|]. apply summaryParts_length.
Qed.

End summarizer_facts.

Section summarizer_claims.

Import Summarizer.

Lemma nonblank_truthy s : nonblank s = true → Js.truthy s = true.
Proof. by destruct s. Qed.

Lemma summarizeScene_prefixed_length prevSummary lines actors :
  lines ≠ [] →
  nonblank prevSummary = true →
  50 < String.length (finalSummary prevSummary (recentLines lines) actors) →
  String.length (summarizeScene prevSummary lines actors) ≤ 800.
Proof.
  intros Hne Hp Hlong. unfold summarizeScene.
  destruct (length (recentLines lines) =? 0) eqn:Hlen.
  { apply Nat.eqb_eq, nil_length_inv in Hlen.
    by apply (proj1 (recentLines_nil lines)) in Hlen. }
  rewrite (nonblank_truthy _ Hp), Hp. apply Nat.ltb_lt in Hlong. rewrite Hlong.
  apply length_substring0.
Qed.

Lemma summarizeScene_named_length prevSummary lines actors :
  lines ≠ [] →
  Forall (λ actor, String.length (Actor.name actor) ≤ 134) actors →
  String.length (summarizeScene prevSummary lines actors) ≤ 800.
Proof.
  intros Hne Hnames. unfold summarizeScene.
  destruct (length (recentLines lines) =? 0) eqn:Hlen.
  { apply Nat.eqb_eq, nil_length_inv in Hlen.
    by apply (proj1 (recentLines_nil lines)) in Hlen. }
  destruct (_ && _); [apply length_substring0|].
  destruct (Js.truthy _); [|simpl; lia].
  pose proof (finalSummary_length 134 prevSummary (recentLines lines) actors) as Hb.
  etrans; [apply Hb; [lia|apply recentLines_length|done]|]. lia.
Qed.

(** C5 (as the code has it): [summarizeScene] is a function of its three
    arguments alone; with at least one line its output has at most 800
    characters whenever every name on the roster has at most 134
    characters, and also whenever the previous summary is not blank and the
    fresh text is longer than 50 characters (the case in which the previous
    summary is put in front and the result cut); with no line it returns
    the previous summary as it is, whatever its length, and the fixed
    phrase ["Scene is beginning."] when the previous summary is empty. *)
Theorem summarizeScene_pure_and_bounded :
  (∀ prevSummary lines actors prevSummary' lines' actors',
     prevSummary = prevSummary' → lines = lines' → actors = actors' →
     summarizeScene prevSummary lines actors = summarizeScene prevSummary' lines' actors')
  ∧ (∀ prevSummary lines actors,
       lines ≠ [] →
       Forall (λ actor, String.length (Actor.name actor) ≤ 134) actors →
       String.length (summarizeScene prevSummary lines actors) ≤ 800)
  ∧ (∀ prevSummary lines actors,
       lines ≠ [] →
       nonblank prevSummary = true →
       50 < String.length (finalSummary prevSummary (recentLines lines) actors) →
       String.length (summarizeScene prevSummary lines actors) ≤ 800)
  ∧ (∀ prevSummary actors,
       summarizeScene prevSummary [] actors
       = if Js.truthy prevSummary then prevSummary else "Scene is beginning.")
  ∧ (∀ actors, summarizeScene "" [] actors = "Scene is beginning.").
Proof.
  split; [by intros ?????? -> -> ->|].
  split; [apply summarizeScene_named_length|].
  split; [apply summarizeScene_prefixed_length|].
  split; done.
Qed.

Lemma summarizeScene_pure_and_bounded_witness :
  String.length (summarizeScene "" [Sample.angry_line; Sample.mixed_line] defaultActors)
  ≤ 800.
Proof.
  apply (proj1 (proj2 summarizeScene_pure_and_bounded)); [done|].
  repeat constructor; simpl; lia.
Defined.

(** C5 fails as stated: with no line the previous summary comes back
    uncut, here with 801 characters. *)
Lemma summarizeScene_may_exceed_800 :
  String.length (summarizeScene Sample.long_summary [] defaultActors) = 801
  ∧ ¬ String.length (summarizeScene Sample.long_summary [] defaultActors) ≤ 800.
Proof.
  assert (String.length (summarizeScene Sample.long_summary [] defaultActors) = 801)
    as H by (vm_compute; reflexivity).
  split; [exact H|]. rewrite H. lia.
Qed.

Lemma classify_not_neutral_recent recent :
  classify (allText recent) ≠ neutral → recent ≠ [].
Proof. intros Hne ->. by apply Hne. Qed.

Lemma includes_truthy s t : Js.truthy t = true → Js.includes s t = true → Js.truthy s = true.
Proof. destruct s; [|done]. by destruct t. Qed.

Lemma tone_sentence_in_output prevSummary lines actors :
  classify (allText (recentLines lines)) ≠ neutral →
  nonblank prevSummary = false
  ∨ String.length
      (prevSummary +:+ " " +:+ finalSummary prevSummary (recentLines lines) actors)
    ≤ 800 →
  Js.includes (summarizeScene prevSummary lines actors)
    (toneDescriptions (classify (allText (recentLines lines)))) = true.
Proof.
  intros Hne Hfit.
  pose proof (tone_sentence_in_final prevSummary (recentLines lines) actors Hne) as Hin.
  unfold summarizeScene.
  destruct (length (recentLines lines) =? 0) eqn:Hlen.
  { apply Nat.eqb_eq, nil_length_inv in Hlen.
    by apply classify_not_neutral_recent in Hne. }
  assert (Js.truthy (finalSummary prevSummary (recentLines lines) actors) = true)
    as Hfinal.
  { eapply includes_truthy; [|exact Hin]. by destruct (classify _). }
  destruct (_ && _) eqn:Hcond; [|by rewrite Hfinal].
  destruct Hfit as [Hblank|Hfit].
  - rewrite Hblank, andb_false_r in Hcond. done.
  - rewrite substring0_all by done. by apply includes_app_r, includes_app_r.
Qed.

(** C6 (as the code has it): the tone is decided on the lower-cased joined
    text of the last 10 lines, by whole-word keyword matches tried in the
    order anger, joy, sorrow, question: an anger word gives tense; a joy word
    and no anger word gives positive; a sorrow word and neither of those
    gives somber; a question word and none of those gives inquisitive.
    The one tone sentence pushed is the sentence of that first class; it is
    part of the fresh summary, and it is part of the output whenever the
    previous summary is blank or the previous summary, a space and the
    fresh summary together have at most 800 characters. *)
Theorem tone_follows_priority prevSummary lines actors :
  let text := allText (recentLines lines) in
  (Js.match_words anger_words text = true → classify text = tense)
  ∧ (Js.match_words anger_words text = false →
     Js.match_words joy_words text = true → classify text = positive)
  ∧ (Js.match_words anger_words text = false →
     Js.match_words joy_words text = false →
     Js.match_words sorrow_words text = true → classify text = somber)
  ∧ (Js.match_words anger_words text = false →
     Js.match_words joy_words text = false →
     Js.match_words sorrow_words text = false →
     Js.match_words question_words text = true → classify text = inquisitive)
  ∧ (classify text ≠ neutral →
     tone_part (classify text) = [toneDescriptions (classify text)]
     ∧ Js.includes (finalSummary prevSummary (recentLines lines) actors)
         (toneDescriptions (classify text)) = true
     ∧ (nonblank prevSummary = false
        ∨ String.length
            (prevSummary +:+ " "
               +:+ finalSummary prevSummary (recentLines lines) actors) ≤ 800 →
        Js.includes (summarizeScene prevSummary lines actors)
          (toneDescriptions (classify text)) = true)).
Proof.
  intros text. unfold classify.
  split; [by intros ->|]. split; [by intros -> ->|].
  split; [by intros -> -> ->|]. split; [by intros -> -> -> ->|].
  fold (classify text). intros Hne. split; [by destruct (classify text)|].
  split; [by apply tone_sentence_in_final|]. by apply tone_sentence_in_output.
Qed.

Lemma tone_follows_priority_witness :
  Js.includes
    (summarizeScene "" [Sample.angry_line; Sample.mixed_line] defaultActors)
    "The conversation has become tense." = true.
Proof.
  pose proof (tone_follows_priority ""
                [Sample.angry_line; Sample.mixed_line] defaultActors) as H.
  cbv zeta in H. destruct H as (Htense & _ & _ & _ & Hout).
  assert (classify (allText (recentLines [Sample.angry_line; Sample.mixed_line]))
          = tense) as Ht by (apply Htense; vm_compute; reflexivity).
  rewrite Ht in Hout. apply Hout; [done|]. left. reflexivity.
Defined.

(** A keyword inside a longer word is not a match: "madness" holds "mad",
    and the tone is decided by "what". *)
Lemma keyword_inside_a_word :
  Js.includes (allText [Sample.madness_line]) "mad" = true
  ∧ classify (allText [Sample.madness_line]) = inquisitive.
Proof. split; vm_compute; reflexivity. Qed.

(** C6 fails as stated: behind a previous summary of 800 characters the
    fresh text is cut off, the tense sentence with it. *)
Lemma tense_sentence_may_be_cut :
  Js.match_words anger_words (allText (recentLines [Sample.angry_line])) = true
  ∧ Js.includes (summarizeScene Sample.full_summary [Sample.angry_line] defaultActors)
      "The conversation has become tense." = false.
Proof. split; vm_compute; reflexivity. Qed.

End summarizer_claims.

(** ** More on the turn: when it succeeds, and what it leaves alone *)

Section turn_outcomes.

Import Turn.



End turn_outcomes.

Section frame.

Import Turn.

(** A reply that lacks [sceneMetadata] or [newLines] is discarded by
    [runDirectorAgent], so the turn is answered from the fallback generator;
    a reply that has both but whose [newLines] is an empty array reaches the
    handler and fails the turn with status 500. *)
Theorem missing_key_falls_back_empty_array_fails w req r command :
  method req = "POST" →
  userCommand req = Some command →
  command ≠ EmptyString →
  World.director_reply w = Some r →
  (DirectorResponse.sceneMetadata r = None ∨ DirectorResponse.newLines r = None →
   response (handler w req)
   = fallback w (initial_scene w req) command (initial_beat req))
  ∧ (is_Some (DirectorResponse.sceneMetadata r) →
     DirectorResponse.newLines r = Some [] →
     response (handler w req) = internal_error).
Proof.
  intros Hm Hc Hne Hr. unfold handler.
  rewrite bool_decide_eq_true_2 by done. cbn [negb]. rewrite Hc.
  destruct command as [|c command]; [done|]. cbn [Js.truthy negb].
  unfold DirectorAgent.runDirectorAgent. rewrite Hr. split.
  - intros [Hnone|Hnone]; rewrite Hnone; [done|].
    by destruct (DirectorResponse.sceneMetadata r).
  - intros [m Hmeta] Hlines. rewrite Hmeta, Hlines. cbn [response].
    unfold primary. by rewrite Hlines.
Qed.

Lemma missing_key_falls_back_empty_array_fails_witness :
  response (handler Sample2.director_without_lines Sample.horror_request)
  = fallback Sample2.director_without_lines
      (initial_scene Sample2.director_without_lines Sample.horror_request)
      "Make it horror" (initial_beat Sample.horror_request)
  ∧ response (handler Sample2.director_with_no_line Sample.horror_request)
    = internal_error.
Proof.
  split.
  - apply (proj1 (missing_key_falls_back_empty_array_fails
                    Sample2.director_without_lines Sample.horror_request
                    Sample2.reply_without_lines "Make it horror"
                    eq_refl eq_refl ltac:(done) eq_refl)).
    by right.
  - apply (proj2 (missing_key_falls_back_empty_array_fails
                    Sample2.director_with_no_line Sample.horror_request
                    Sample2.reply_with_no_line "Make it horror"
                    eq_refl eq_refl ltac:(done) eq_refl));
      [by eexists|reflexivity].
Defined.

Lemma map_of_snoc {V} (entries : list (string * V)) k v :
  Js.map_of (entries ++ [(k, v)]) = <[k := v]> (Js.map_of entries).
Proof. unfold Js.map_of. by rewrite foldl_app. Qed.

(** [get] returns the value of the last entry that carries the key. *)
Lemma map_of_lookup_last {V} (entries : list (string * V)) k :
  Js.map_of entries !! k = snd <$> last (filter (λ kv, kv.1 = k) entries).
Proof.
  induction entries as [|[k' v] entries IH] using rev_ind; [done|].
  rewrite map_of_snoc, filter_app, filter_cons, filter_nil. simpl.
  destruct (decide (k' = k)) as [->|Hne].
  - by rewrite lookup_insert_eq, last_snoc.
  - by rewrite lookup_insert_ne, app_nil_r.
Qed.

Lemma last_update_entries (updates : list ActorUpdate.t) k :
  snd <$> last (filter (λ kv : string * ActorUpdate.t, kv.1 = k)
                  ((λ ua, (ActorUpdate.id ua, ua)) <$> updates))
  = last (filter (λ ua, ActorUpdate.id ua = k) updates).
Proof.
  induction updates as [|u updates IH] using rev_ind; [done|].
  rewrite fmap_app, !filter_app. simpl. rewrite !filter_cons, !filter_nil. simpl.
  destruct (decide (ActorUpdate.id u = k)).
  - by rewrite !last_snoc.
  - by rewrite !app_nil_r.
Qed.

(** What the assignment to [currentSceneState.actors] does to one actor. *)
Lemma patched_actor_lookup s r i actor :
  SceneState.actors s !! i = Some actor →
  ∃ actor',
    SceneState.actors (patched s r) !! i = Some actor'
    ∧ Actor.id actor' = Actor.id actor
    ∧ Actor.name actor' = Actor.name actor
    ∧ Actor.role actor' = Actor.role actor
    ∧ Actor.voiceId actor' = Actor.voiceId actor
    ∧ match last (filter (λ ua, ActorUpdate.id ua = Actor.id actor)
                    (default [] (DirectorResponse.updatedActors r))) with
      | Some update =>
          Actor.language actor' = DirectorAgent.convertLanguage (ActorUpdate.language update)
          ∧ Actor.style actor' = ActorUpdate.style update
      | None => actor' = actor
      end.
Proof.
  intros Hi. unfold patched, apply_actor_updates.
  destruct (DirectorResponse.updatedActors r) as [[|u us]|];
    cbn [default SceneState.actors];
    try (exists actor; by rewrite ?apply_metadata_actors).
  rewrite apply_metadata_actors, list_lookup_fmap, Hi. cbn [fmap option_fmap option_map].
  eexists. split; [done|]. unfold patch_actor.
  rewrite map_of_lookup_last, last_update_entries.
  by destruct (last _).
Qed.

(** Actor patches of a Director reply, as a successful primary turn applies
    them: the roster keeps its length and order, every actor keeps its id,
    name, role and voice, an actor named by one or more patches receives the
    language and style of the last of them, any other actor is unchanged, and
    a patch naming nobody on the roster adds nothing. *)
Theorem actor_patches_last_wins w req r st nl :
  DirectorAgent.runDirectorAgent (World.director_reply w) = Some r →
  response (handler w req) = Success st nl →
  length (SceneState.actors st) = length (SceneState.actors (initial_scene w req))
  ∧ ∀ i actor,
      SceneState.actors (initial_scene w req) !! i = Some actor →
      ∃ actor',
        SceneState.actors st !! i = Some actor'
        ∧ Actor.id actor' = Actor.id actor
        ∧ Actor.name actor' = Actor.name actor
        ∧ Actor.role actor' = Actor.role actor
        ∧ Actor.voiceId actor' = Actor.voiceId actor
        ∧ match last (filter (λ ua, ActorUpdate.id ua = Actor.id actor)
                        (default [] (DirectorResponse.updatedActors r))) with
          | Some update =>
              Actor.language actor'
              = DirectorAgent.convertLanguage (ActorUpdate.language update)
              ∧ Actor.style actor' = ActorUpdate.style update
          | None => actor' = actor
          end.
Proof.
  intros Hr Hok.
  apply handler_success_inv in Hok as (command & _ & _ & _ & Hok). rewrite Hr in Hok.
  apply primary_success_inv in Hok as (_ & _ & _ & _ & _ & _ & _ & Hactors & _).
  rewrite Hactors. split.
  - rewrite <-(length_fmap Actor.id), patched_ids. by rewrite length_fmap.
  - intros i actor Hi. by apply patched_actor_lookup.
Qed.

Lemma actor_patches_last_wins_witness :
  ∃ st nl,
    response (handler Sample.director_up Sample.continue_request) = Success st nl
    ∧ length (SceneState.actors st) = 3.
Proof.
  eexists _, _. split; [vm_compute; reflexivity|].
  refine (proj1 (actor_patches_last_wins Sample.director_up Sample.continue_request
                   Sample.three_lines _ _ _ _)).
  - reflexivity.
  - vm_compute. reflexivity.
Defined.

Lemma turn_summary_eq w req st nl :
  response (handler w req) = Success st nl →
  SceneState.summary st
  = Summarizer.summarizeScene (SceneState.summary (initial_scene w req))
      (SceneState.lines st) (SceneState.actors st).
Proof.
  intros Hok. apply handler_success_inv in Hok as (command & _ & _ & _ & Hok).
  destruct (DirectorAgent.runDirectorAgent _) as [r|] eqn:Hrun.
  - revert Hok. unfold primary. fold (patched (initial_scene w req) r).
    destruct (DirectorResponse.newLines r) as [[|d ds]|]; try done.
    destruct (make_lines _ _ _ _ _); [|done].
    cbn [fst]. intros [= <- <-]. cbn.
    assert (SceneState.summary (patched (initial_scene w req) r)
            = SceneState.summary (initial_scene w req)) as ->; [|done].
    unfold patched, apply_actor_updates, apply_metadata.
    destruct (DirectorResponse.sceneMetadata r);
      by destruct (DirectorResponse.updatedActors r) as [[|u us]|].
  - revert Hok. unfold fallback. intros [= <- <-]. by cbn.
Qed.

(** What a successful turn leaves alone.  The scene keeps its [id] and
    [createdAt]; [updatedAt] is the clock; the summary is computed from the
    summary the turn started with, the full new line list and the roster as
    returned.  On the fallback path title, genre, setting, logline and the
    whole roster are those of the scene the turn started from; on the
    primary path title, genre, setting and logline are always those of the
    reply's metadata. *)
Theorem turn_frame w req st nl :
  response (handler w req) = Success st nl →
  SceneState.id st = SceneState.id (initial_scene w req)
  ∧ SceneState.createdAt st = SceneState.createdAt (initial_scene w req)
  ∧ SceneState.updatedAt st = World.now_updated w
  ∧ SceneState.summary st
    = Summarizer.summarizeScene (SceneState.summary (initial_scene w req))
        (SceneState.lines st) (SceneState.actors st)
  ∧ match DirectorAgent.runDirectorAgent (World.director_reply w) with
    | None =>
        SceneState.title st = SceneState.title (initial_scene w req)
        ∧ SceneState.genre st = SceneState.genre (initial_scene w req)
        ∧ SceneState.setting st = SceneState.setting (initial_scene w req)
        ∧ SceneState.logline st = SceneState.logline (initial_scene w req)
        ∧ SceneState.actors st = SceneState.actors (initial_scene w req)
    | Some r =>
        ∃ m, DirectorResponse.sceneMetadata r = Some m
             ∧ SceneState.title st = SceneMetadata.title m
             ∧ SceneState.genre st = SceneMetadata.genre m
             ∧ SceneState.setting st = SceneMetadata.setting m
             ∧ SceneState.logline st = SceneMetadata.logline m
    end.
Proof.
  intros Hok. apply handler_success_inv in Hok as (command & _ & _ & _ & Hok).
  destruct (DirectorAgent.runDirectorAgent _) as [r|] eqn:Hrun.
  - apply runDirectorAgent_Some in Hrun as [_ [m Hm]].
    revert Hok. unfold primary. fold (patched (initial_scene w req) r).
    destruct (DirectorResponse.newLines r) as [[|d ds]|]; try done.
    destruct (make_lines _ _ _ _ _); [|done].
    cbn [fst]. intros [= <- <-]. cbn.
    assert (∀ s, SceneState.id (patched s r) = SceneState.id s
                 ∧ SceneState.createdAt (patched s r) = SceneState.createdAt s
                 ∧ SceneState.summary (patched s r) = SceneState.summary s
                 ∧ SceneState.title (patched s r) = SceneMetadata.title m
                 ∧ SceneState.genre (patched s r) = SceneMetadata.genre m
                 ∧ SceneState.setting (patched s r) = SceneMetadata.setting m
                 ∧ SceneState.logline (patched s r) = SceneMetadata.logline m) as Hp.
    { intros s. unfold patched, apply_actor_updates, apply_metadata. rewrite Hm.
      by destruct (DirectorResponse.updatedActors r) as [[|u us]|]. }
    destruct (Hp (initial_scene w req)) as (-> & -> & -> & -> & -> & -> & ->).
    repeat split; try done. by exists m.
  - revert Hok. unfold fallback. intros [= <- <-]. by cbn.
Qed.

Lemma turn_frame_witness :
  ∃ st nl,
    response (handler Sample.director_down Sample.continue_request) = Success st nl
    ∧ SceneState.id st = "scene-1".
Proof.
  eexists _, _. split; [vm_compute; reflexivity|].
  refine (proj1 (turn_frame Sample.director_down Sample.continue_request _ _ _)).
  vm_compute. reflexivity.
Defined.

End frame.

(** ** The lines a turn creates: ids, times, beats *)

Section new_lines.

Import Turn.

Lemma to_uint_nonnil n : Nat.to_uint n ≠ Decimal.Nil.
Proof.
  rewrite <-(Unsigned.of_to n), Unsigned.to_of. apply DecimalFacts.unorm_nonnil.
Qed.

Lemma string_of_nat_inj n m : Js.string_of_nat n = Js.string_of_nat m → n = m.
Proof.
  unfold Js.string_of_nat. intros H.
  apply (f_equal NilZero.uint_of_string) in H.
  rewrite !NilZero.usu in H by apply to_uint_nonnil.
  injection H as H. by apply Unsigned.to_uint_inj.
Qed.

Lemma line_id_inj now : Inj (=) (=) (line_id now).
Proof.
  intros i j H. unfold line_id in H.
  do 3 apply (inj (String.app _)) in H. by apply string_of_nat_inj.
Qed.

Lemma make_lines_stamp actors now index running ds created i line :
  make_lines actors now index running ds = Some created →
  created !! i = Some line →
  Line.id line = line_id now (index + i)
  ∧ Line.timestamp line = (now + Z.of_nat (index + i) * 1000)%Z.
Proof.
  revert index running created i.
  induction ds as [|d ds IH]; intros index running created i; simpl.
  - by intros [= <-].
  - destruct (find_actor actors (NewLine.actorId d)); [|done].
    destruct (make_lines _ _ _ _ ds) as [rest|] eqn:Hrest; [|done].
    simpl. intros [= <-]. destruct i as [|i]; simpl.
    + intros [= <-]. simpl. by rewrite Nat.add_0_r.
    + intros Hi. destruct (IH _ _ _ _ Hrest Hi) as [-> ->].
      by replace (S index + i) with (index + S i) by lia.
Qed.

Lemma generateMockLines_stamp now r s command beat i line :
  MockDirector.generateMockLines now r s command beat !! i = Some line →
  Line.id line = line_id now i
  ∧ Line.timestamp line = (now + Z.of_nat i * 1000)%Z
  ∧ Line.beatIndex line = (beat + 1)%Z.
Proof.
  unfold MockDirector.generateMockLines.
  destruct (SceneState.actors s) as [|first rest]; [done|].
  rewrite list_lookup_fmap. intros Hi.
  apply fmap_Some in Hi as (j & Hj & ->).
  apply lookup_seq in Hj as [-> _]. done.
Qed.

Lemma processLinesWithTTS_lookup lines actors i line :
  MockTTS.processLinesWithTTS lines actors !! i = Some line →
  ∃ line0,
    lines !! i = Some line0
    ∧ Line.id line = Line.id line0
    ∧ Line.actorId line = Line.actorId line0
    ∧ Line.text line = Line.text line0
    ∧ Line.timestamp line = Line.timestamp line0
    ∧ Line.beatIndex line = Line.beatIndex line0
    ∧ Line.audioUrl line
      = match actors !! Line.actorId line0 with
        | Some voiceId => MockTTS.generateAudioUrl (Line.id line0) voiceId
        | None => Line.audioUrl line0
        end.
Proof.
  unfold MockTTS.processLinesWithTTS. rewrite list_lookup_fmap.
  destruct (lines !! i) as [line0|]; [|done]. simpl. intros [= <-].
  exists line0. split; [done|]. by destruct (actors !! Line.actorId line0).
Qed.

Lemma new_line_stamp w req st nl i line :
  response (handler w req) = Success st nl →
  nl !! i = Some line →
  Line.id line = line_id (World.now_lines w) i
  ∧ Line.timestamp line = (World.now_lines w + Z.of_nat i * 1000)%Z.
Proof.
  intros Hok Hi. apply handler_success_inv in Hok as (command & _ & _ & _ & Hok).
  destruct (DirectorAgent.runDirectorAgent _) as [r|].
  - apply primary_success_inv in Hok as (ds & created & _ & _ & Hmake & -> & _).
    apply list_lookup_imap_Some in Hi as (c & Hc & ->).
    destruct (make_lines_stamp _ _ _ _ _ _ _ _ Hmake Hc) as [Hid Hts].
    destruct (synthesize_fields w
                (Js.map_of ((λ actor, (Actor.id actor, actor))
                   <$> SceneState.actors (patched (initial_scene w req) r)))
                ds i c) as (-> & _ & _ & -> & _).
    done.
  - apply fallback_success_inv in Hok as (-> & _).
    apply processLinesWithTTS_lookup in Hi as (line0 & Hi & -> & _ & _ & -> & _).
    by apply generateMockLines_stamp in Hi as (-> & -> & _).
Qed.

(** The lines a successful turn creates are numbered from 0: the line at
    position [i] has the id [line-<now>-<i>] and the timestamp
    [now + 1000 i], so within a turn the ids are pairwise distinct and the
    timestamps strictly increasing. *)
Theorem new_lines_are_numbered w req st nl :
  response (handler w req) = Success st nl →
  (∀ i line, nl !! i = Some line →
     Line.id line = line_id (World.now_lines w) i
     ∧ Line.timestamp line = (World.now_lines w + Z.of_nat i * 1000)%Z)
  ∧ NoDup (Line.id <$> nl)
  ∧ ∀ i j a b, nl !! i = Some a → nl !! j = Some b → i < j →
      (Line.timestamp a < Line.timestamp b)%Z.
Proof.
  intros Hok. split; [intros i line Hi; exact (new_line_stamp _ _ _ _ _ _ Hok Hi)|]. split.
  - assert (Line.id <$> nl = line_id (World.now_lines w) <$> seq 0 (length nl)) as ->.
    { apply list_eq. intros i. rewrite !list_lookup_fmap.
      destruct (nl !! i) as [line|] eqn:Hi; simpl.
      - destruct (new_line_stamp _ _ _ _ _ _ Hok Hi) as [-> _].
        apply lookup_lt_Some in Hi. by rewrite lookup_seq_lt.
      - apply lookup_ge_None in Hi. by rewrite lookup_seq_ge. }
    apply NoDup_fmap_2; [apply line_id_inj|apply NoDup_seq].
  - intros i j a b Ha Hb Hij.
    destruct (new_line_stamp _ _ _ _ _ _ Hok Ha) as [_ ->].
    destruct (new_line_stamp _ _ _ _ _ _ Hok Hb) as [_ ->]. lia.
Qed.

Lemma new_lines_are_numbered_witness :
  ∃ st nl,
    response (handler Sample.director_up Sample.continue_request) = Success st nl
    ∧ NoDup (Line.id <$> nl).
Proof.
  eexists _, _. split; [vm_compute; reflexivity|].
  refine (proj1 (proj2 (new_lines_are_numbered
                          Sample.director_up Sample.continue_request _ _ _))).
  vm_compute. reflexivity.
Defined.



End new_lines.

(** ** What is sent to the synthesizer, and what the fallback puts in its place *)

Section audio.

Import Turn.

Lemma find_first {A} (p : A → bool) (l : list A) x :
  find p l = Some x →
  ∃ j, l !! j = Some x ∧ p x = true
       ∧ ∀ k y, k < j → l !! k = Some y → p y = false.
Proof.
  induction l as [|a l IH]; simpl; [done|].
  destruct (p a) eqn:Hpa.
  - intros [= <-]. exists 0. repeat split; try done. intros k y Hk. lia.
  - intros Hf. destruct (IH Hf) as (j & Hj & Hp & Hbefore).
    exists (S j). repeat split; try done.
    intros [|k] y Hk; simpl; [by intros [= <-]|]. apply Hbefore. lia.
Qed.

Lemma find_before {A} (p : A → bool) (l : list A) i y :
  l !! i = Some y → p y = true →
  ∃ j x, j ≤ i ∧ find p l = Some x ∧ l !! j = Some x ∧ p x = true
         ∧ ∀ k z, k < j → l !! k = Some z → p z = false.
Proof.
  intros Hi Hp.
  destruct (find_is_Some p l y) as [x Hx]; [by eapply list_elem_of_lookup_2|done|].
  destruct (find_first p l x Hx) as (j & Hj & Hpx & Hbefore).
  exists j, x. repeat split; try done.
  destruct (decide (j ≤ i)) as [|Hgt]; [done|].
  assert (i < j) as Hlt by lia. specialize (Hbefore i y Hlt Hi). congruence.
Qed.

Lemma mapLanguageCode_of_director lang :
  ElevenTTS.mapLanguageCode (DirectorAgent.convertLanguage lang) = "en".
Proof. by destruct lang. Qed.

(** The synthesis request of each line of a successful primary turn.  The
    voice is the one of an actor on the returned roster with the line's
    [actorId]; the language is the one declared by the first directive of
    the reply that has the line's [actorId] and text (the line's own
    directive unless an earlier one has the same speaker and text), never
    the actor's own language; the [audioUrl] is what the synthesizer
    returned, or empty when it failed.  Since the Director declares only
    en, hi or mixed, the language code sent to the speech service is always
    "en". *)
Theorem synthesis_request_of_a_line w req r directives st nl i line :
  DirectorAgent.runDirectorAgent (World.director_reply w) = Some r →
  DirectorResponse.newLines r = Some directives →
  response (handler w req) = Success st nl →
  nl !! i = Some line →
  ∃ j d actor,
    j ≤ i
    ∧ directives !! j = Some d
    ∧ NewLine.actorId d = Line.actorId line
    ∧ NewLine.text d = Line.text line
    ∧ (∀ k dk, k < j → directives !! k = Some dk →
         ¬ (NewLine.actorId dk = Line.actorId line ∧ NewLine.text dk = Line.text line))
    ∧ actor ∈ SceneState.actors st
    ∧ Actor.id actor = Line.actorId line
    ∧ Line.audioUrl line
      = default EmptyString
          (World.synthesizeLine w i (Line.text line) (Actor.voiceId actor)
             (DirectorAgent.convertLanguage (NewLine.language d)))
    ∧ ElevenTTS.mapLanguageCode (DirectorAgent.convertLanguage (NewLine.language d))
      = "en".
Proof.
  intros Hr Hds Hok Hi.
  apply handler_success_inv in Hok as (command & _ & _ & _ & Hok). rewrite Hr in Hok.
  destruct (new_lines_primary _ _ _ _ _ _ _ _ _ Hok Hds Hi)
    as (d & c & created & Hd & _ & _ & _ & -> & Hid & Htext & _ & Hurl & Hres).
  apply primary_success_inv in Hok as (_ & _ & _ & _ & _ & _ & _ & Hactors & _).
  set (actorMap := Js.map_of ((λ actor, (Actor.id actor, actor))
                     <$> SceneState.actors (patched (initial_scene w req) r))).
  destruct (synthesize_fields w actorMap directives i c) as (_ & Hid' & Htext' & _).
  cbv zeta in Hid', Htext'. rewrite Hid', Htext'.
  set (p := λ dl : NewLine.t,
              bool_decide (NewLine.actorId dl = Line.actorId c)
              && bool_decide (NewLine.text dl = Line.text c)).
  assert (p d = true) as Hpd.
  { unfold p. by rewrite Hid, Htext, !bool_decide_eq_true_2. }
  destruct (find_before p directives i d Hd Hpd)
    as (j & d0 & Hj & Hfind & Hd0 & Hpd0 & Hbefore).
  destruct Hres as (a & Ha & Haid).
  assert (is_Some (actorMap !! Line.actorId c)) as [actor Hactor].
  { apply map_of_lookup_is_Some. rewrite <-list_fmap_compose.
    rewrite <-Haid. apply (list_elem_of_fmap_2 _ _ a). by rewrite <-Hactors. }
  pose proof Hactor as Hin.
  apply map_of_lookup_elem, list_elem_of_fmap in Hin as (a' & [= Hk ->] & Ha').
  unfold p in Hpd0. apply andb_true_iff in Hpd0 as [H1 H2].
  apply bool_decide_eq_true in H1, H2.
  exists j, d0, a'. repeat split; try done.
  - intros k dk Hk' Hdk [E1 E2]. specialize (Hbefore k dk Hk' Hdk).
    unfold p in Hbefore. by rewrite E1, E2, !bool_decide_eq_true_2 in Hbefore.
  - by rewrite Hactors.
  - unfold synthesize. fold p. rewrite Hactor, Hfind. simpl.
    by destruct (World.synthesizeLine _ _ _ _ _).
  - apply mapLanguageCode_of_director.
Qed.

Lemma synthesis_request_of_a_line_witness :
  ∃ st nl line,
    response (handler Sample.director_up Sample.continue_request) = Success st nl
    ∧ nl !! 0 = Some line
    ∧ ∃ j d actor,
        j ≤ 0 ∧ NewLine.text d = Line.text line
        ∧ Actor.id actor = Line.actorId line
        ∧ Line.audioUrl line
          = default EmptyString
              (World.synthesizeLine Sample.director_up 0 (Line.text line)
                 (Actor.voiceId actor)
                 (DirectorAgent.convertLanguage (NewLine.language d))).
Proof.
  eexists _, _, _. split; [vm_compute; reflexivity|]. split; [reflexivity|].
  destruct (synthesis_request_of_a_line Sample.director_up Sample.continue_request
              Sample.three_lines _ _ _ 0 _ eq_refl eq_refl
              ltac:(vm_compute; reflexivity) eq_refl)
    as (j & d & actor & Hj & _ & _ & Htext & _ & _ & Hid & Hurl & _).
  by exists j, d, actor.
Defined.

Lemma route_of_https line rest :
  Line.audioUrl line = String "h" rest → Player.route line = Player.bad_format.
Proof.
  intros Hurl. unfold Player.route. rewrite Hurl. cbn [Js.truthy negb orb].
  rewrite bool_decide_eq_false_2; [done|].
  unfold Js.trim. cbn [Js.trimStart]. change (Js.is_space "h") with false.
  cbn [Js.trimEnd]. change (Js.is_space "h") with false.
  by destruct (Js.trimEnd rest).
Qed.

(** The audio a fallback turn attaches.  Every new line gets the
    placeholder address built from the voice of an actor on the roster
    with the line's [actorId] and from the line's id; that address is not a
    [data:audio/] URL, so the page's playback loop takes its
    invalid-format branch for every line of a fallback turn: the line is
    shown, no sound is played. *)
Theorem fallback_audio_is_placeholder w req st nl :
  DirectorAgent.runDirectorAgent (World.director_reply w) = None →
  response (handler w req) = Success st nl →
  ∀ line, line ∈ nl →
    (∃ actor,
       actor ∈ SceneState.actors st
       ∧ Actor.id actor = Line.actorId line
       ∧ Line.audioUrl line = MockTTS.generateAudioUrl (Line.id line) (Actor.voiceId actor))
    ∧ Player.route line = Player.bad_format.
Proof.
  intros Hr Hok line Hline.
  apply handler_success_inv in Hok as (command & _ & _ & _ & Hok). rewrite Hr in Hok.
  apply fallback_success_inv in Hok as (-> & _ & Hactors & _).
  apply list_elem_of_lookup in Hline as [i Hi].
  apply processLinesWithTTS_lookup in Hi
    as (line0 & Hi & Hid & Haid & _ & _ & _ & Hurl).
  pose proof (generateMockLines_actors (World.now_lines w) (World.random w)
                (initial_scene w req) command (initial_beat req)) as Hgen.
  rewrite Forall_lookup in Hgen. destruct (Hgen _ _ Hi) as (a & Ha & Hida).
  set (actorsMap := Js.map_of ((λ actor, (Actor.id actor, Actor.voiceId actor))
                       <$> SceneState.actors (initial_scene w req))) in *.
  assert (is_Some (actorsMap !! Line.actorId line0)) as [voiceId Hvoice].
  { apply map_of_lookup_is_Some. rewrite <-list_fmap_compose, Hida.
    by apply (list_elem_of_fmap_2 _ _ a). }
  rewrite Hvoice in Hurl.
  pose proof Hvoice as Hin.
  apply map_of_lookup_elem, list_elem_of_fmap in Hin as (a' & [= Hk ->] & Ha').
  split.
  - exists a'. rewrite Hactors, Haid, Hid. by repeat split.
  - eapply route_of_https. rewrite Hurl. reflexivity.
Qed.

Lemma fallback_audio_is_placeholder_witness :
  ∃ st nl line,
    response (handler Sample.director_down Sample.continue_request) = Success st nl
    ∧ nl !! 0 = Some line
    ∧ Player.route line = Player.bad_format.
Proof.
  eexists _, _, _. split; [vm_compute; reflexivity|]. split; [reflexivity|].
  refine (proj2 (fallback_audio_is_placeholder
                   Sample.director_down Sample.continue_request _ _ _ _ _ _)).
  - reflexivity.
  - vm_compute. reflexivity.
  - apply list_elem_of_here.
Defined.

End audio.

(** ** More on the mock director *)

Section mock_director.

Lemma pick_in_range (r : Random.t) (l : list string) :
  l ≠ [] → default EmptyString (l !! Random.floor_times r (length l)) ∈ l.
Proof.
  intros Hl.
  assert (Random.floor_times r (length l) < length l) as Hlt.
  { apply floor_times_lt. destruct l; [done|simpl; lia]. }
  destruct (lookup_lt_is_Some_2 _ _ Hlt) as [x Hx]. rewrite Hx. simpl.
  by eapply list_elem_of_lookup_2.
Qed.

(** [createInitialScene] never reads past its tables: whatever the two
    random draws, the genre is one of the six genres and the setting one
    of the five settings; a command that mentions horror (in any case)
    forces the genre "horror"; the scene starts with no line and with a
    roster whose ids are those of the default roster. *)
Theorem createInitialScene_in_range now r_genre r_setting userCommand :
  SceneState.genre (MockDirector.createInitialScene now r_genre r_setting userCommand)
  ∈ MockDirector.GENRES
  ∧ SceneState.setting (MockDirector.createInitialScene now r_genre r_setting userCommand)
    ∈ MockDirector.SETTINGS
  ∧ (∀ command,
       userCommand = Some command →
       Js.includes (Js.toLowerCase command) "horror" = true →
       SceneState.genre (MockDirector.createInitialScene now r_genre r_setting userCommand)
       = "horror")
  ∧ SceneState.lines (MockDirector.createInitialScene now r_genre r_setting userCommand) = []
  ∧ Actor.id <$> SceneState.actors
                   (MockDirector.createInitialScene now r_genre r_setting userCommand)
    = Actor.id <$> defaultActors.
Proof.
  unfold MockDirector.createInitialScene. cbn [SceneState.genre SceneState.setting
    SceneState.lines SceneState.actors].
  split; [|split; [|split; [|done]]].
  - destruct (default false _).
    + unfold MockDirector.GENRES. do 4 apply list_elem_of_further. apply list_elem_of_here.
    + by apply pick_in_range.
  - by apply pick_in_range.
  - intros command -> Hh. simpl. by rewrite Hh.
Qed.

Lemma consecutive_mod_differ i n : 2 ≤ n → i mod n ≠ S i mod n.
Proof.
  intros Hn Heq.
  pose proof (Nat.div_mod_eq i n) as H1. pose proof (Nat.div_mod_eq (S i) n) as H2.
  rewrite <-Heq in H2.
  set (q1 := i / n) in *. set (q2 := S i / n) in *.
  assert (n * q2 = n * q1 + 1) as H by lia.
  destruct (decide (q2 ≤ q1)) as [Hle|Hgt].
  - assert (n * q2 ≤ n * q1) by (by apply Nat.mul_le_mono_l). lia.
  - assert (n * (q1 + 1) ≤ n * q2) by (apply Nat.mul_le_mono_l; lia). lia.
Qed.

Lemma generateMockLines_speaker now r s command beat i line :
  MockDirector.generateMockLines now r s command beat !! i = Some line →
  ∃ actor,
    SceneState.actors s !! (i mod length (SceneState.actors s)) = Some actor
    ∧ Line.actorId line = Actor.id actor.
Proof.
  unfold MockDirector.generateMockLines.
  destruct (SceneState.actors s) as [|first rest] eqn:Hactors; [done|].
  rewrite list_lookup_fmap. intros Hi.
  apply fmap_Some in Hi as (j & Hj & ->). apply lookup_seq in Hj as [-> _].
  cbn [Line.actorId Nat.add].
  assert (i mod length (first :: rest) < length (first :: rest)) as Hlt.
  { apply Nat.mod_upper_bound. simpl. lia. }
  destruct (lookup_lt_is_Some_2 _ _ Hlt) as [x Hx].
  exists x. split; [done|]. by rewrite (nth_lookup_Some _ _ first _ Hx).
Qed.

(** The fallback generator hands the lines out in rotation: line [i] is
    spoken by the actor at position [i mod n] of a roster of [n] actors.
    With at least two actors of distinct ids, no two consecutive lines have
    the same speaker. *)
Theorem fallback_speakers_rotate now r s command beat :
  (∀ i line,
     MockDirector.generateMockLines now r s command beat !! i = Some line →
     ∃ actor,
       SceneState.actors s !! (i mod length (SceneState.actors s)) = Some actor
       ∧ Line.actorId line = Actor.id actor)
  ∧ (NoDup (Actor.id <$> SceneState.actors s) →
     2 ≤ length (SceneState.actors s) →
     ∀ i a b,
       MockDirector.generateMockLines now r s command beat !! i = Some a →
       MockDirector.generateMockLines now r s command beat !! S i = Some b →
       Line.actorId a ≠ Line.actorId b).
Proof.
  split; [intros i line; apply generateMockLines_speaker|].
  intros Hnodup Hn i a b Ha Hb Heq.
  apply generateMockLines_speaker in Ha as (x & Hx & Hax).
  apply generateMockLines_speaker in Hb as (y & Hy & Hby).
  rewrite Hax, Hby in Heq.
  assert ((Actor.id <$> SceneState.actors s) !! (i mod length (SceneState.actors s))
          = Some (Actor.id x)) as H1 by (by rewrite list_lookup_fmap, Hx).
  assert ((Actor.id <$> SceneState.actors s) !! (S i mod length (SceneState.actors s))
          = Some (Actor.id x)) as H2 by (by rewrite list_lookup_fmap, Hy, Heq).
  pose proof (NoDup_lookup _ _ _ _ Hnodup H1 H2) as Hmod.
  by apply consecutive_mod_differ in Hmod.
Qed.

Lemma fallback_speakers_rotate_witness :
  ∃ a b,
    MockDirector.generateMockLines 2000 Sample.half Sample.running_scene "continue" 2
      !! 0 = Some a
    ∧ MockDirector.generateMockLines 2000 Sample.half Sample.running_scene "continue" 2
        !! 1 = Some b
    ∧ Line.actorId a ≠ Line.actorId b.
Proof.
  eexists _, _. split; [vm_compute; reflexivity|]. split; [vm_compute; reflexivity|].
  refine (proj2 (fallback_speakers_rotate 2000 Sample.half Sample.running_scene
                   "continue" 2) _ _ 0 _ _ _ _).
  - apply (bool_decide_unpack _). vm_compute. exact I.
  - simpl. lia.
  - vm_compute. reflexivity.
  - vm_compute. reflexivity.
Defined.

End mock_director.

(** ** More on the summarizer *)

Section summarizer_more.

Import Summarizer.

Lemma slice_last_idem {A} n (l : list A) :
  Js.slice_last n (Js.slice_last n l) = Js.slice_last n l.
Proof.
  unfold Js.slice_last. rewrite length_drop.
  by replace (length l - (length l - n) - n) with 0 by lia.
Qed.

Lemma slice_last_app {A} n (old recent : list A) :
  length recent = n → Js.slice_last n (old ++ recent) = recent.
Proof.
  intros <-. unfold Js.slice_last. rewrite length_app.
  replace (length old + length recent - length recent) with (length old) by lia.
  by rewrite drop_app_length.
Qed.

(** Only the last ten lines reach the summary: dropping every older line
    changes nothing, whatever the previous summary and the roster. *)
Theorem summary_reads_last_ten prevSummary lines actors :
  summarizeScene prevSummary lines actors
  = summarizeScene prevSummary (Js.slice_last 10 lines) actors
  ∧ ∀ old recent,
      lines = old ++ recent → length recent = 10 →
      summarizeScene prevSummary lines actors = summarizeScene prevSummary recent actors.
Proof.
  assert (∀ l, summarizeScene prevSummary l actors
               = summarizeScene prevSummary (Js.slice_last 10 l) actors) as H.
  { intros l. unfold summarizeScene, recentLines. by rewrite slice_last_idem. }
  split; [apply H|]. intros old recent -> Hlen.
  by rewrite H, slice_last_app.
Qed.

Lemma string_app_nil_r s : s +:+ EmptyString = s.
Proof. induction s as [|c s IH]; [done|]. by rewrite app_cons, IH. Qed.

Lemma string_app_assoc s t u : (s +:+ t) +:+ u = s +:+ t +:+ u.
Proof. induction s as [|c s IH]; [done|]. by rewrite !app_cons, IH. Qed.

Lemma substring0_app k s t :
  k ≤ String.length s → Js.substring0 k (s +:+ t) = Js.substring0 k s.
Proof.
  unfold Js.substring0. revert s.
  induction k as [|k IH]; intros [|c s]; simpl; try done; try lia.
  - by destruct t.
  - intros Hle. f_equal. apply IH. lia.
Qed.

Lemma rev_app_app s t : String.rev_app s t = String.rev s +:+ t.
Proof.
  unfold String.rev. revert t.
  induction s as [|c s IH]; intros t; simpl; [done|].
  rewrite (IH (String c t)), (IH (String c EmptyString)).
  by rewrite string_app_assoc.
Qed.

Lemma rev_cons c s : String.rev (String c s) = String.rev s +:+ String c EmptyString.
Proof. unfold String.rev at 1. simpl. apply rev_app_app. Qed.

(** The first piece of a split starts with what was accumulated. *)
Lemma split_go_head sep cur s :
  ∃ t more, Js.split_go sep cur false s = (String.rev cur +:+ t) :: more.
Proof.
  revert cur. induction s as [|d s IH]; intros cur; simpl.
  - exists EmptyString, []. by rewrite string_app_nil_r.
  - destruct (sep d).
    + exists EmptyString. eexists. by rewrite string_app_nil_r.
    + destruct (IH (String d cur)) as (t & more & ->).
      exists (String d t), more. by rewrite rev_cons, string_app_assoc.
Qed.

Lemma nonblank_cons c s : Js.is_space c = false → nonblank (String c s) = true.
Proof.
  intros Hc. unfold nonblank, Js.trim. cbn [Js.trimStart]. rewrite Hc.
  cbn [Js.trimEnd]. rewrite Hc. by destruct (Js.trimEnd s).
Qed.

Lemma nonblank_app_r s t : nonblank t = true → nonblank (s +:+ t) = true.
Proof.
  intros Ht. induction s as [|c s IH]; [done|]. rewrite app_cons.
  destruct (Js.is_space c) eqn:Hc; [|by apply nonblank_cons].
  unfold nonblank, Js.trim in *. cbn [Js.trimStart]. by rewrite Hc.
Qed.

Lemma prev_part_solid prevSummary :
  solid_start prevSummary →
  ∃ first,
    prev_part prevSummary
    = ["Building on previous context: " +:+ Js.substring0 100 first +:+ "..."].
Proof.
  intros (c & rest & -> & Hspace & Hend). unfold prev_part.
  rewrite nonblank_cons by done. cbn [Js.truthy andb].
  unfold Js.split_runs. cbn [Js.split_go]. rewrite Hend.
  destruct (split_go_head is_sentence_end (String c EmptyString) rest)
    as (t & more & ->).
  change (String.rev (String c EmptyString)) with (String c EmptyString).
  rewrite app_cons. rewrite filter_cons.
  destruct (decide (nonblank (String c (EmptyString +:+ t)) = true)) as [|Hno].
  - by eexists.
  - by rewrite nonblank_cons in Hno.
Qed.

Lemma omap_set_nonempty {V} (m : Js.omap V) k v : Js.omap_set m k v ≠ [].
Proof. destruct m as [|[k' v'] m]; simpl; [done|]. by case_bool_decide. Qed.

Lemma linesByActor_nonempty recent : recent ≠ [] → linesByActor recent ≠ [].
Proof.
  destruct recent as [|x recent _] using rev_ind; [done|]. intros _.
  unfold linesByActor. rewrite foldl_app. simpl.
  unfold group_step. apply omap_set_nonempty.
Qed.

Lemma sort_nonempty {A} (cmp : A → A → Z) (l : list A) : l ≠ [] → Js.sort cmp l ≠ [].
Proof.
  destruct l as [|x l]; [done|]. intros _. unfold Js.sort. simpl.
  destruct (foldr _ _ l) as [|y r]; simpl; [done|]. by destruct (_ <=? _)%Z.
Qed.

Lemma mainSpeakers_nonempty recent actors :
  recent ≠ [] → mainSpeakers recent actors ≠ [].
Proof.
  intros Hne. unfold mainSpeakers.
  pose proof (sort_nonempty by_line_count _ (linesByActor_nonempty _ Hne)) as Hs.
  by destruct (Js.sort by_line_count (linesByActor recent)).
Qed.

Lemma speakers_part_shape speakers :
  speakers ≠ [] →
  ∃ names, speakers_part speakers = [names +:+ "."]
           ∧ 18 ≤ String.length names.
Proof.
  destruct speakers as [|a [|b [|c rest]]]; [done|..]; intros _.
  - exists (a +:+ " has been speaking"). split.
    + simpl. by rewrite string_app_assoc.
    + rewrite string_length_app. simpl. lia.
  - exists (a +:+ " and " +:+ b +:+ " have been in dialogue"). split.
    + simpl. by rewrite !string_app_assoc.
    + rewrite !string_length_app. simpl. lia.
  - exists (a +:+ ", " +:+ b +:+ ", and " +:+ c +:+ " have been conversing"). split.
    + simpl. by rewrite !string_app_assoc.
    + rewrite !string_length_app. simpl. lia.
Qed.

Lemma filter_all (P : string → Prop) `{!∀ s, Decision (P s)} l :
  Forall P l → filter P l = l.
Proof.
  induction 1 as [|x l Hx Hl IH]; [done|].
  rewrite filter_cons. destruct (decide (P x)); [by rewrite IH|done].
Qed.

Lemma length_concat_space_eq l :
  l ≠ [] → String.length (String.concat " " l) + 1 = weight l.
Proof.
  induction l as [|x l IH]; [done|]. intros _. destruct l as [|y l].
  - simpl. lia.
  - change (String.concat " " (x :: y :: l))
      with (x +:+ " " +:+ String.concat " " (y :: l)).
    rewrite !string_length_app.
    change (weight (x :: y :: l)) with (S (String.length x) + weight (y :: l)).
    rewrite <-IH by done. simpl String.length at 2. lia.
Qed.

(** With at least one recent line and a previous summary that has a solid
    start, the fresh text has more than 50 characters. *)
Lemma finalSummary_long prevSummary recent actors :
  recent ≠ [] → solid_start prevSummary →
  50 < String.length (finalSummary prevSummary recent actors).
Proof.
  intros Hne Hsolid. unfold finalSummary.
  rewrite take_ge by (etrans; [apply length_filter|apply summaryParts_length]).
  destruct (speakers_part_shape _ (mainSpeakers_nonempty recent actors Hne))
    as (names & Hsp & Hlen).
  destruct (prev_part_solid _ Hsolid) as (first & Hprev).
  assert (weight (filter (λ part, nonblank part = true)
                    (summaryParts prevSummary recent actors)) ≥ 19 + 1 + 34) as Hw.
  { unfold summaryParts. rewrite Hsp, Hprev, !filter_app, !weight_app.
    rewrite (filter_all _ [names +:+ "."]).
    2:{ repeat constructor. by apply nonblank_app_r. }
    rewrite (filter_all _ [_ +:+ _ +:+ "..."]).
    2:{ repeat constructor. by apply nonblank_app_r, nonblank_app_r. }
    simpl. rewrite !string_length_app. simpl. lia. }
  assert (filter (λ part, nonblank part = true)
            (summaryParts prevSummary recent actors) ≠ []) as Hnil.
  { intros E. rewrite E in Hw. simpl in Hw. lia. }
  pose proof (length_concat_space_eq _ Hnil). lia.
Qed.

Lemma summarizeScene_truncates prevSummary lines actors :
  lines ≠ [] →
  solid_start prevSummary →
  800 ≤ String.length prevSummary →
  summarizeScene prevSummary lines actors = Js.substring0 800 prevSummary.
Proof.
  intros Hne Hsolid Hlen.
  unfold summarizeScene.
  destruct (length (recentLines lines) =? 0) eqn:Hrec.
  { apply Nat.eqb_eq, nil_length_inv in Hrec.
    by apply (proj1 (recentLines_nil lines)) in Hrec. }
  assert (recentLines lines ≠ []) as Hrne.
  { intros E. by rewrite E in Hrec. }
  pose proof (finalSummary_long prevSummary (recentLines lines) actors Hrne Hsolid)
    as Hlong.
  apply Nat.ltb_lt in Hlong. rewrite Hlong.
  destruct Hsolid as (c & rest & -> & Hspace & _).
  rewrite nonblank_cons by done. cbn [Js.truthy andb].
  by apply substring0_app.
Qed.

(** The summary saturates.  When the previous summary has 800 characters
    or more and a solid start, and there is at least one line, the new
    summary is the first 800 characters of the previous one: nothing of the
    new dialogue is in it; a previous summary of exactly 800 characters
    comes back unchanged. *)
Theorem summary_saturates prevSummary lines actors :
  lines ≠ [] →
  solid_start prevSummary →
  800 ≤ String.length prevSummary →
  summarizeScene prevSummary lines actors = Js.substring0 800 prevSummary
  ∧ (String.length prevSummary = 800 →
     summarizeScene prevSummary lines actors = prevSummary).
Proof.
  intros Hne Hsolid Hlen.
  pose proof (summarizeScene_truncates prevSummary lines actors Hne Hsolid Hlen) as H.
  split; [exact H|]. intros Heq. rewrite H. apply substring0_all. lia.
Qed.

Lemma summary_saturates_witness :
  summarizeScene Sample.full_summary [Sample.angry_line] defaultActors
  = Sample.full_summary.
Proof.
  refine (proj2 (summary_saturates Sample.full_summary [Sample.angry_line]
                   defaultActors _ _ _) _).
  - done.
  - exists "x"%char, (Js.repeat "x" 799). by repeat split.
  - vm_compute. lia.
  - vm_compute. reflexivity.
Defined.

(** [summarizeScene] never returns the empty string. *)
Theorem summary_is_never_empty prevSummary lines actors :
  summarizeScene prevSummary lines actors ≠ EmptyString.
Proof.
  unfold summarizeScene. destruct (length (recentLines lines) =? 0).
  { by destruct prevSummary. }
  destruct prevSummary as [|c rest].
  - cbn [Js.truthy andb]. by destruct (finalSummary _ _ _).
  - cbn [Js.truthy andb]. destruct (_ && _).
    + rewrite app_cons. by unfold Js.substring0.
    + by destruct (finalSummary _ _ _).
Qed.

(** Seen from the endpoint: once the stored summary has exactly 800
    characters (and a solid start), a successful turn that leaves the scene
    with at least one line returns that summary unchanged. *)
Theorem turn_summary_saturates w req st nl :
  Turn.response (Turn.handler w req) = Turn.Success st nl →
  SceneState.lines st ≠ [] →
  solid_start (SceneState.summary (Turn.initial_scene w req)) →
  String.length (SceneState.summary (Turn.initial_scene w req)) = 800 →
  SceneState.summary st = SceneState.summary (Turn.initial_scene w req).
Proof.
  intros Hok Hlines Hsolid Hlen.
  rewrite (turn_summary_eq _ _ _ _ Hok).
  rewrite summarizeScene_truncates by (done || lia).
  apply substring0_all. lia.
Qed.

Lemma turn_summary_saturates_witness :
  ∃ st nl,
    Turn.response (Turn.handler Sample.director_up Sample3.saturated_request)
    = Turn.Success st nl
    ∧ SceneState.summary st = Sample.full_summary.
Proof.
  eexists _, _. split; [vm_compute; reflexivity|].
  refine (turn_summary_saturates Sample.director_up Sample3.saturated_request
            _ _ _ _ _ _).
  - vm_compute. reflexivity.
  - done.
  - exists "x"%char, (Js.repeat "x" 799). by repeat split.
  - vm_compute. reflexivity.
Defined.

End summarizer_more.

(** ** The Director prompt *)

Section director_prompt.

Import DirectorPrompt.

Lemma includes_concat_elem sep l s u :
  s ∈ l → Js.includes s u = true → Js.includes (String.concat sep l) u = true.
Proof.
  induction l as [|x l IH]; [by intros ?%elem_of_nil|].
  intros Hs Hu. destruct l as [|y l].
  - by apply list_elem_of_singleton in Hs as ->.
  - change (String.concat sep (x :: y :: l))
      with (x +:+ sep +:+ String.concat sep (y :: l)).
    apply elem_of_cons in Hs as [->|Hs].
    + by apply includes_app_l.
    + by apply includes_app_r, includes_app_r, IH.
Qed.

Lemma actor_entry_includes actor :
  Js.includes (actor_entry actor) (Actor.id actor) = true
  ∧ Js.includes (actor_entry actor) (Actor.name actor) = true.
Proof.
  unfold actor_entry. split.
  - do 3 apply includes_app_r. apply includes_app_l, includes_refl.
  - apply includes_app_r, includes_app_l, includes_refl.
Qed.

(** The prompt carries the user's command verbatim, with or without a
    scene; with a scene it also carries the stored summary and, for every
    actor of the roster, the actor's id and name; and with a scene that
    has no line it says so. *)
Theorem prompt_carries_command_and_context sceneState userCommand :
  Js.includes (buildDirectorInput sceneState userCommand) userCommand = true
  ∧ ∀ s, sceneState = Some s →
      Js.includes (buildDirectorInput sceneState userCommand) (SceneState.summary s) = true
      ∧ (∀ actor, actor ∈ SceneState.actors s →
           Js.includes (buildDirectorInput sceneState userCommand) (Actor.id actor) = true
           ∧ Js.includes (buildDirectorInput sceneState userCommand) (Actor.name actor)
             = true)
      ∧ (SceneState.lines s = [] →
         Js.includes (buildDirectorInput sceneState userCommand) "No dialogue yet."
         = true).
Proof.
  split.
  - destruct sceneState as [s|]; unfold buildDirectorInput.
    + eapply includes_concat_elem.
      * do 15 apply list_elem_of_further. apply list_elem_of_here.
      * do 2 apply includes_app_r. apply includes_app_l, includes_refl.
    + eapply includes_concat_elem; [apply list_elem_of_here|].
      do 2 apply includes_app_r. apply includes_app_l, includes_refl.
  - intros s ->. unfold buildDirectorInput. split; [|split].
    + apply includes_concat. apply list_elem_of_further, list_elem_of_here.
    + intros actor Hactor.
      assert (∀ u, Js.includes (actor_entry actor) u = true →
                   Js.includes (actorsList (SceneState.actors s)) u = true) as Hlist.
      { intros u Hu. unfold actorsList. eapply includes_concat_elem; [|exact Hu].
        by apply list_elem_of_fmap_2. }
      destruct (actor_entry_includes actor) as [Hid Hname].
      split; (eapply includes_concat_elem;
              [do 10 apply list_elem_of_further; apply list_elem_of_here|]);
        by apply Hlist.
    + intros Hnil. rewrite Hnil. apply includes_concat.
      do 13 apply list_elem_of_further. apply list_elem_of_here.
Qed.

(** Only the last ten lines reach the prompt: a scene and the same scene
    cut to its last ten lines give the same prompt. *)
Theorem prompt_reads_last_ten s userCommand :
  buildDirectorInput (Some s) userCommand
  = buildDirectorInput
      (Some (replace_lines s (Js.slice_last 10 (SceneState.lines s)))) userCommand.
Proof.
  unfold buildDirectorInput, replace_lines.
  cbn [SceneState.lines SceneState.summary SceneState.title SceneState.genre
       SceneState.setting SceneState.logline SceneState.actors].
  by rewrite slice_last_idem.
Qed.

End director_prompt.

(** ** The speech client and the player *)

Section speech.

Lemma one_line_app s t : one_line (s +:+ t) = one_line s && one_line t.
Proof.
  induction s as [|c s IH]; [done|].
  change (String c s +:+ t) with (String c (s +:+ t)).
  cbn [one_line]. by rewrite IH, andb_assoc.
Qed.

Lemma one_line_rev s : one_line (String.rev s) = one_line s.
Proof.
  induction s as [|c s IH]; [done|].
  rewrite rev_cons, one_line_app, IH. cbn [one_line].
  rewrite andb_true_r. apply andb_comm.
Qed.

Lemma dots_one_line s : one_line s = true → JsText.dots s = s.
Proof.
  induction s as [|c s IH]; [done|]. cbn [one_line JsText.dots].
  intros [Hc Hs]%andb_true_iff. apply negb_true_iff in Hc. rewrite Hc.
  by rewrite IH.
Qed.

Lemma one_line_drop n s : one_line s = true → one_line (Js.drop_chars n s) = true.
Proof.
  revert s. induction n as [|n IH]; intros [|c s]; try done.
  cbn [one_line Js.drop_chars]. intros [_ Hs]%andb_true_iff. by apply IH.
Qed.

Lemma drop_chars_length n s :
  String.length (Js.drop_chars n s) = String.length s - n.
Proof.
  revert s. induction n as [|n IH]; intros [|c s]; cbn [Js.drop_chars String.length];
    try lia. apply IH.
Qed.

Lemma split_at_one_line sep cur s piece :
  piece ∈ JsText.split_at sep cur s →
  one_line cur = true → one_line s = true → one_line piece = true.
Proof.
  revert cur. induction s as [|c s IH]; intros cur; cbn [JsText.split_at].
  - intros ->%list_elem_of_singleton Hcur _. by rewrite one_line_rev.
  - intros Hin Hcur [Hc Hs]%andb_true_iff. case_bool_decide.
    + apply elem_of_cons in Hin as [->|Hin]; [by rewrite one_line_rev|].
      by apply (IH EmptyString).
    + apply (IH (String c cur)); [done| |done]. cbn [one_line]. by rewrite Hc, Hcur.
Qed.

Lemma audioFormat_one_line header :
  (∀ h, header = Some h → one_line h = true) →
  one_line (ElevenTTS.audioFormat (ElevenTTS.contentType header)) = true.
Proof.
  intros Hheader.
  assert (one_line (ElevenTTS.contentType header) = true) as Hct.
  { unfold ElevenTTS.contentType. destruct header as [h|]; [|done].
    destruct (Js.truthy h); [by apply Hheader|done]. }
  unfold ElevenTTS.audioFormat.
  destruct (Js.includes _ _); [done|].
  destruct (JsText.split "/" _ !! 1) as [piece|] eqn:Hpiece; [|done].
  destruct (Js.truthy piece); [|done].
  eapply split_at_one_line; [by eapply list_elem_of_lookup_2|done..].
Qed.

Lemma base64_char_plain n : JsText.is_line_terminator (JsText.base64_char n) = false.
Proof.
  assert (∀ m, (m < 256)%N → (m ≠ 10)%N → (m ≠ 13)%N →
            JsText.is_line_terminator (ascii_of_N m) = false) as Hplain.
  { intros m Hm H10 H13. unfold JsText.is_line_terminator, nat_of_ascii.
    rewrite N_ascii_embedding by done.
    apply orb_false_iff. split; apply Nat.eqb_neq; lia. }
  unfold JsText.base64_char.
  repeat case_match; try done; apply Hplain;
    repeat match goal with
           | H : (_ <? _)%N = true |- _ => apply N.ltb_lt in H
           | H : (_ <? _)%N = false |- _ => apply N.ltb_ge in H
           end; lia.
Qed.

Lemma base64_facts bytes :
  String.length (JsText.base64 bytes) = 4 * ((length bytes + 2) / 3)
  ∧ one_line (JsText.base64 bytes) = true.
Proof.
  induction bytes as [bytes IH] using (induction_ltof1 _ (@length byte)).
  unfold ltof in IH.
  destruct bytes as [|a [|b [|c rest]]].
  - done.
  - split; [done|]. cbn [JsText.base64 one_line]. by rewrite !base64_char_plain.
  - split; [done|]. cbn [JsText.base64 one_line]. by rewrite !base64_char_plain.
  - destruct (IH rest) as [Hlen Hline]; [simpl; lia|]. split.
    + cbn [JsText.base64 String.length length]. rewrite Hlen.
      replace (S (S (S (length rest))) + 2) with (length rest + 2 + 1 * 3) by lia.
      rewrite Nat.div_add by done. lia.
    + cbn [JsText.base64 one_line]. by rewrite !base64_char_plain, Hline.
Qed.

Lemma match_base64_eq s :
  JsText.match_base64 s
  = match (if String.prefix "base64," s then
             match JsText.dots (Js.drop_chars 7 s) with
             | EmptyString => None
             | group => Some group
             end
           else None) with
    | Some group => Some group
    | None => match s with
              | EmptyString => None
              | String _ r => JsText.match_base64 r
              end
    end.
Proof. by destruct s. Qed.

Lemma prefix_same_app s t : String.prefix s (s +:+ t) = true.
Proof.
  induction s as [|c s IH]; [by destruct t|].
  change (String c s +:+ t) with (String c (s +:+ t)). cbn [String.prefix].
  by destruct (ascii_dec c c).
Qed.

Lemma match_base64_found a b :
  one_line (a +:+ "base64," +:+ b) = true → b ≠ EmptyString →
  ∃ group, JsText.match_base64 (a +:+ "base64," +:+ b) = Some group
           ∧ String.length b ≤ String.length group.
Proof.
  intros Hline Hb. induction a as [|c a IH].
  - exists b. split; [|done]. rewrite match_base64_eq.
    change (EmptyString +:+ "base64," +:+ b) with ("base64," +:+ b).
    rewrite prefix_same_app.
    change (Js.drop_chars 7 ("base64," +:+ b)) with b.
    rewrite dots_one_line; [by destruct b|].
    rewrite one_line_app in Hline. by apply andb_true_iff in Hline as [_ ?].
  - change (String c a +:+ "base64," +:+ b) with (String c (a +:+ "base64," +:+ b)) in *.
    rewrite match_base64_eq.
    destruct (String.prefix _ _).
    + rewrite dots_one_line by by apply one_line_drop.
      pose proof (drop_chars_length 7 (String c (a +:+ "base64," +:+ b))) as Hlen.
      cbn [String.length] in Hlen. rewrite !string_length_app in Hlen.
      change (String.length "base64,") with 7 in Hlen.
      destruct (Js.drop_chars 7 _) as [|c' r] eqn:Hdrop.
      * destruct b; [done|]. cbn [String.length] in Hlen. lia.
      * eexists. split; [done|]. lia.
    + apply IH. cbn [one_line] in Hline. by apply andb_true_iff in Hline as [_ ?].
Qed.

Lemma match_base64_skip p x :
  Js.includes p "b" = false → JsText.match_base64 (p +:+ x) = JsText.match_base64 x.
Proof.
  induction p as [|c p IH]; [done|].
  change (String c p +:+ x) with (String c (p +:+ x)).
  cbn [Js.includes String.prefix]. intros [Hc Hp]%orb_false_iff.
  rewrite match_base64_eq. cbn [String.prefix].
  destruct (ascii_dec "b" c); [by destruct p|]. by apply IH.
Qed.

Lemma route_of_data_prefix line rest :
  Line.audioUrl line = "data:audio/" +:+ rest →
  Player.route line
  = match JsText.match_base64 ("data:audio/" +:+ rest) with
    | None => Player.short_data
    | Some group =>
        if String.length group <? 100 then Player.short_data else Player.play_audio
    end.
Proof.
  intros Hurl. unfold Player.route. rewrite Hurl.
  unfold JsText.startsWith. rewrite prefix_same_app.
  change ("data:audio/" +:+ rest) with (String "d" ("ata:audio/" +:+ rest)).
  cbn [Js.truthy negb orb].
  rewrite bool_decide_eq_false_2; [done|].
  unfold Js.trim. cbn [Js.trimStart]. change (Js.is_space "d") with false.
  cbn [Js.trimEnd]. change (Js.is_space "d") with false.
  by destruct (Js.trimEnd _).
Qed.

Lemma route_of_data_url line format data :
  Line.audioUrl line = "data:audio/" +:+ format +:+ ";base64," +:+ data →
  one_line format = true → one_line data = true → 100 ≤ String.length data →
  Player.route line = Player.play_audio.
Proof.
  intros Hurl Hformat Hdata Hlen. rewrite (route_of_data_prefix _ _ Hurl).
  destruct (match_base64_found ("data:audio/" +:+ format +:+ ";") data)
    as (group & Hgroup & Hle).
  { rewrite !one_line_app, Hformat, Hdata. done. }
  { destruct data; [simpl in Hlen; lia|done]. }
  rewrite !string_app_assoc in Hgroup.
  change (";" +:+ "base64," +:+ data) with (";base64," +:+ data) in Hgroup.
  rewrite Hgroup.
  destruct (String.length group <? 100) eqn:Hlt; [|done].
  apply Nat.ltb_lt in Hlt. lia.
Qed.

Lemma route_of_default_data_url line data :
  Line.audioUrl line = "data:audio/" +:+ "mpeg" +:+ ";base64," +:+ data →
  one_line data = true → String.length data < 100 →
  Player.route line = Player.short_data.
Proof.
  intros Hurl Hdata Hlen. rewrite (route_of_data_prefix _ _ Hurl).
  assert (JsText.match_base64 ("data:audio/" +:+ "mpeg" +:+ ";base64," +:+ data)
          = match data with EmptyString => None | _ => Some data end) as ->.
  { destruct data as [|c r]; [by vm_compute|].
    change ("data:audio/" +:+ "mpeg" +:+ ";base64," +:+ String c r)
      with ("data:audio/mpeg;" +:+ "base64," +:+ String c r).
    rewrite match_base64_skip by done.
    rewrite match_base64_eq.
    rewrite prefix_same_app.
    change (Js.drop_chars 7 ("base64," +:+ String c r)) with (String c r).
    by rewrite dots_one_line. }
  destruct data; [done|].
  by apply Nat.ltb_lt in Hlen as ->.
Qed.

(** What the speech client returns and what the player does with it.  The
    client succeeds exactly when the key is set and the service answers
    with an ok response; its result is then a [data:audio/] URL, so the
    player never takes its no-URL, empty-URL or invalid-format branch for
    it.  When the content type holds no line terminator the audio is
    played as soon as the body has at least 73 bytes (100 characters of
    base64); under the default content type a body of fewer than 73 bytes
    is shown without sound. *)
Theorem synthesized_audio_route apiKey reply url line :
  ElevenTTS.synthesizeLine apiKey reply = Some url →
  Line.audioUrl line = url →
  ∃ key header body,
    apiKey = Some key ∧ key ≠ EmptyString
    ∧ reply = ElevenTTS.answered true header body
    ∧ JsText.startsWith url "data:audio/" = true
    ∧ (Player.route line = Player.play_audio ∨ Player.route line = Player.short_data)
    ∧ ((∀ h, header = Some h → one_line h = true) → 73 ≤ length body →
       Player.route line = Player.play_audio)
    ∧ (header = None → length body < 73 → Player.route line = Player.short_data).
Proof.
  unfold ElevenTTS.synthesizeLine. intros Hsyn Hurl.
  destruct apiKey as [key|]; [|done].
  destruct key as [|k key]; [done|]. cbn [Js.truthy negb] in Hsyn.
  destruct reply as [|[] header body]; try done.
  injection Hsyn as <-.
  exists (String k key), header, body. split; [done|]. split; [done|]. split; [done|].
  split; [apply prefix_same_app|].
  destruct (base64_facts body) as [Hlen Hline].
  split; [|split].
  - rewrite (route_of_data_prefix _ _ Hurl).
    destruct (JsText.match_base64 _) as [group|]; [|by right].
    destruct (String.length group <? 100); [by right|by left].
  - intros Hheader Hbody. eapply route_of_data_url; [exact Hurl| |done|].
    + by apply audioFormat_one_line.
    + rewrite Hlen.
      assert (25 ≤ (length body + 2) / 3); [|lia].
      apply Nat.div_le_lower_bound; lia.
  - intros -> Hbody. eapply route_of_default_data_url; [exact Hurl|done|].
    rewrite Hlen.
    assert ((length body + 2) / 3 < 25); [|lia].
    apply Nat.Div0.div_lt_upper_bound. lia.
Qed.

Lemma synthesized_audio_route_witness :
  ∃ url,
    ElevenTTS.synthesizeLine (Some "key") Sample3.clip_reply = Some url
    ∧ Player.route (Line.with_audioUrl Sample.angry_line url) = Player.play_audio.
Proof.
  eexists. split; [reflexivity|].
  destruct (synthesized_audio_route (Some "key") Sample3.clip_reply _
              (Line.with_audioUrl Sample.angry_line _) eq_refl eq_refl)
    as (key & header & body & _ & _ & Hreply & _ & _ & Hplay & _).
  injection Hreply as <- <-. apply Hplay; [done|]. vm_compute. lia.
Defined.

Lemma filter_id {A} (P : A → Prop) `{!∀ x, Decision (P x)} (l : list A) :
  Forall P l → filter P l = l.
Proof.
  induction 1 as [|x l Hx _ IH]; [done|].
  by rewrite filter_cons_True, IH.
Qed.

Lemma filter_none {A} (P : A → Prop) `{!∀ x, Decision (P x)} (l : list A) :
  Forall (λ x, ¬ P x) l → filter P l = [].
Proof.
  induction 1 as [|x l Hx _ IH]; [done|].
  by rewrite filter_cons_False.
Qed.

Lemma route_with_audio line :
  Js.truthy (Line.audioUrl line) = true → Player.route line ≠ Player.no_audio.
Proof.
  intros Hurl. unfold Player.route. rewrite Hurl. cbn [negb orb].
  repeat case_match; done.
Qed.

Lemma fallback_lines_have_audio w cur command beat st nl :
  Turn.fallback w cur command beat = Turn.Success st nl →
  Forall (λ line, Js.truthy (Line.audioUrl line) = true) nl.
Proof.
  intros Hok. apply fallback_success_inv in Hok as (-> & _).
  apply Forall_lookup. intros i line Hi.
  apply processLinesWithTTS_lookup in Hi as (line0 & Hi & _ & _ & _ & _ & _ & Hurl).
  pose proof (generateMockLines_actors (World.now_lines w) (World.random w)
                cur command beat) as Hgen.
  rewrite Forall_lookup in Hgen. destruct (Hgen _ _ Hi) as (a & Ha & Hida).
  set (actorsMap := Js.map_of ((λ actor, (Actor.id actor, Actor.voiceId actor))
                       <$> SceneState.actors cur)) in *.
  assert (is_Some (actorsMap !! Line.actorId line0)) as [voiceId Hvoice].
  { apply map_of_lookup_is_Some. rewrite <-list_fmap_compose, Hida.
    by apply (list_elem_of_fmap_2 _ _ a). }
  rewrite Hvoice in Hurl. by rewrite Hurl.
Qed.

Lemma silent_lines_have_no_audio w cur beat r st nl :
  (Turn.primary w cur beat r).1 = Turn.Success st nl →
  (∀ i text voiceId language, World.synthesizeLine w i text voiceId language = None) →
  nl ≠ [] ∧ Forall (λ line, Line.audioUrl line = EmptyString) nl.
Proof.
  intros Hok Hsilent. split.
  - apply primary_success_inv in Hok as (ds & created & _ & Hne & Hmake & -> & _).
    apply make_lines_length in Hmake.
    intros Hnil. apply (f_equal length) in Hnil.
    rewrite length_imap, Hmake, length_take in Hnil.
    destruct ds; [done|]. simpl in Hnil. lia.
  - apply Forall_lookup. intros i line Hi.
    pose proof Hok as Hok'.
    apply primary_success_inv in Hok' as (ds & _ & Hds & _).
    destruct (new_lines_primary _ _ _ _ _ _ _ _ _ Hok Hds Hi)
      as (d & c & created & _ & _ & _ & _ & -> & _ & _ & _ & Hurl & _).
    unfold Turn.synthesize. destruct (_ !! Line.actorId c); [|done].
    by rewrite Hsilent.
Qed.

(** What the page does with the lines of a successful turn.  Lines are
    handed to the playback loop only with a non-empty [audioUrl], so the
    loop's no-URL branch is never taken for them.  After a fallback turn
    every new line is handed over.  After a primary turn in which every
    synthesis failed nothing is played, and with auto-continue on the page
    schedules the next turn on its own. *)
Theorem plan_after_turn w req st nl autoContinue :
  Turn.response (Turn.handler w req) = Turn.Success st nl →
  (∀ lines, Player.plan autoContinue nl = Player.play lines →
     lines ≠ []
     ∧ ∀ line, line ∈ lines →
         line ∈ nl ∧ Line.audioUrl line ≠ EmptyString
         ∧ Player.route line ≠ Player.no_audio)
  ∧ match DirectorAgent.runDirectorAgent (World.director_reply w) with
    | None =>
        Player.plan autoContinue nl
        = if 0 <? length nl then Player.play nl else Player.nothing
    | Some _ =>
        (∀ i text voiceId language,
           World.synthesizeLine w i text voiceId language = None) →
        Player.plan autoContinue nl
        = if autoContinue then Player.continue_only else Player.nothing
    end.
Proof.
  intros Hok. split.
  - intros lines. unfold Player.plan.
    destruct (0 <? length nl); [|done].
    destruct (0 <? length (Player.linesWithAudio nl)) eqn:Hlen.
    + intros [= <-]. split.
      * intros E. by rewrite E in Hlen.
      * intros line [Hurl Hin]%list_elem_of_filter. split; [done|].
        split; [by destruct (Line.audioUrl line)|by apply route_with_audio].
    + by destruct (autoContinue && negb false).
  - apply handler_success_inv in Hok as (command & _ & _ & _ & Hok).
    destruct (DirectorAgent.runDirectorAgent _) as [r|].
    + intros Hsilent.
      destruct (silent_lines_have_no_audio _ _ _ _ _ _ Hok Hsilent) as [Hne Hall].
      unfold Player.plan, Player.linesWithAudio.
      rewrite filter_none.
      2:{ eapply Forall_impl; [exact Hall|]. intros line ->. done. }
      destruct nl; [done|]. cbn. by destruct autoContinue.
    + apply fallback_lines_have_audio in Hok.
      unfold Player.plan, Player.linesWithAudio.
      rewrite filter_id by done. by destruct (0 <? length nl).
Qed.

Lemma plan_after_turn_witness :
  ∃ st nl,
    Turn.response (Turn.handler Sample3.silent_world Sample.continue_request)
    = Turn.Success st nl
    ∧ Player.plan true nl = Player.continue_only.
Proof.
  eexists _, _. split; [vm_compute; reflexivity|].
  refine (proj2 (plan_after_turn Sample3.silent_world Sample.continue_request
                   _ _ true _) _).
  - vm_compute. reflexivity.
  - done.
Defined.

End speech.

(** ** Grouping and ordering *)

Section keyed_maps.

Context `{EqDecision K} {V : Type}.
Implicit Types (m : JsText.kmap K V) (k : K) (v : V).

Lemma kmap_get_fresh m k : k ∉ m.*1 → JsText.kmap_get m k = None.
Proof.
  induction m as [|[k' v'] m IH]; [done|].
  intros [Hne Hk]%not_elem_of_cons. unfold JsText.kmap_get in *. cbn [find fst].
  rewrite bool_decide_eq_false_2 by done. by apply IH.
Qed.

Lemma kmap_get_here m1 m2 k v :
  k ∉ m1.*1 → JsText.kmap_get (m1 ++ (k, v) :: m2) k = Some v.
Proof.
  induction m1 as [|[k' v'] m1 IH]; intros Hk.
  - unfold JsText.kmap_get. cbn [app find fst]. by rewrite bool_decide_eq_true_2.
  - apply not_elem_of_cons in Hk as [Hne Hk].
    unfold JsText.kmap_get in *. cbn [app find fst].
    rewrite bool_decide_eq_false_2 by done. by apply IH.
Qed.

Lemma kmap_split m k :
  k ∈ m.*1 → ∃ m1 v m2, m = m1 ++ (k, v) :: m2 ∧ k ∉ m1.*1.
Proof.
  induction m as [|[k' v'] m IH]; [by intros ?%elem_of_nil|].
  intros Hk. destruct (decide (k' = k)) as [->|Hne].
  - exists [], v', m. split; [done|]. apply not_elem_of_nil.
  - apply elem_of_cons in Hk as [Hk|Hk]; [done|].
    destruct (IH Hk) as (m1 & v & m2 & -> & Hfresh).
    exists ((k', v') :: m1), v, m2. split; [done|].
    apply not_elem_of_cons. split; [done|exact Hfresh].
Qed.

Lemma kmap_has_false m k : k ∉ m.*1 → JsText.kmap_has m k = false.
Proof.
  intros Hk. unfold JsText.kmap_has. rewrite kmap_get_fresh by done.
  apply bool_decide_eq_false_2. by intros [? ?].
Qed.

Lemma kmap_has_true m k : k ∈ m.*1 → JsText.kmap_has m k = true.
Proof.
  intros (m1 & v & m2 & -> & Hfresh)%kmap_split.
  unfold JsText.kmap_has. rewrite kmap_get_here by done.
  by apply bool_decide_eq_true_2.
Qed.

Lemma kmap_set_fresh m k v : k ∉ m.*1 → JsText.kmap_set m k v = m ++ [(k, v)].
Proof.
  induction m as [|[k' v'] m IH]; [done|].
  intros [Hne Hk]%not_elem_of_cons. cbn [JsText.kmap_set app].
  rewrite bool_decide_eq_false_2 by done. by rewrite IH.
Qed.

Lemma kmap_set_here m1 m2 k v0 v :
  k ∉ m1.*1 → JsText.kmap_set (m1 ++ (k, v0) :: m2) k v = m1 ++ (k, v) :: m2.
Proof.
  induction m1 as [|[k' v'] m1 IH]; intros Hk.
  - cbn [app JsText.kmap_set]. by rewrite bool_decide_eq_true_2.
  - apply not_elem_of_cons in Hk as [Hne Hk]. cbn [app JsText.kmap_set].
    rewrite bool_decide_eq_false_2 by done. by rewrite IH.
Qed.

End keyed_maps.

Section sorting.

Context {A : Type} (cmp : A → A → Z) (key : A → Z).
Hypothesis cmp_key : ∀ a b, (cmp a b ≤ 0)%Z ↔ (key a ≤ key b)%Z.

Lemma sort_insert_perm x l : Js.sort_insert cmp x l ≡ₚ x :: l.
Proof.
  induction l as [|y l IH]; [done|]. cbn [Js.sort_insert].
  destruct (cmp x y <=? 0)%Z; [done|]. rewrite IH. apply Permutation_swap.
Qed.

Lemma sort_perm l : Js.sort cmp l ≡ₚ l.
Proof.
  induction l as [|x l IH]; [done|].
  unfold Js.sort in *. cbn [foldr]. by rewrite sort_insert_perm, IH.
Qed.

Lemma sort_insert_sorted x l :
  StronglySorted (λ a b, (key a ≤ key b)%Z) l →
  StronglySorted (λ a b, (key a ≤ key b)%Z) (Js.sort_insert cmp x l).
Proof.
  induction l as [|y l IH]; intros Hl.
  - apply SSorted_cons; [done|]. apply Forall_nil_2.
  - apply StronglySorted_cons in Hl as [Hy Hl]. cbn [Js.sort_insert].
    destruct (cmp x y <=? 0)%Z eqn:Hc.
    + apply Z.leb_le, cmp_key in Hc.
      apply SSorted_cons; [by apply SSorted_cons|].
      apply Forall_cons. split; [done|].
      eapply Forall_impl; [exact Hy|]. simpl. intros z Hz. lia.
    + apply Z.leb_gt in Hc.
      assert (key y ≤ key x)%Z as Hyx.
      { destruct (decide (key x ≤ key y)%Z) as [Hle|]; [|lia].
        apply cmp_key in Hle. lia. }
      apply SSorted_cons; [by apply IH|].
      rewrite sort_insert_perm. by apply Forall_cons.
Qed.

Lemma sort_sorted l : StronglySorted (λ a b, (key a ≤ key b)%Z) (Js.sort cmp l).
Proof.
  induction l as [|x l IH]; [apply SSorted_nil|].
  unfold Js.sort in *. cbn [foldr]. by apply sort_insert_sorted.
Qed.

End sorting.

Section grouping.

Context `{EqDecision K} (key : Line.t → K).

Lemma group_by_step (groups : JsText.kmap K (list Line.t)) line :
  ((key line ∉ groups.*1)
   ∧ group_by key groups line = groups ++ [(key line, [line])])
  ∨ (∃ m1 ls m2,
       groups = m1 ++ (key line, ls) :: m2
       ∧ (key line ∉ m1.*1)
       ∧ group_by key groups line = m1 ++ (key line, ls ++ [line]) :: m2).
Proof.
  unfold group_by. cbv zeta.
  destruct (decide (key line ∈ groups.*1)) as [Hin|Hout].
  - right. rewrite kmap_has_true by done.
    destruct (kmap_split _ _ Hin) as (m1 & ls & m2 & -> & Hfresh).
    exists m1, ls, m2. split; [done|]. split; [done|].
    by rewrite kmap_get_here, kmap_set_here.
  - left. split; [done|]. rewrite kmap_has_false by done.
    rewrite (kmap_set_fresh groups) by done.
    rewrite kmap_get_here, kmap_set_here by done. done.
Qed.

Lemma filter_key_snoc lines line k :
  filter (λ l, key l = k) (lines ++ [line])
  = filter (λ l, key l = k) lines ++ (if decide (key line = k) then [line] else []).
Proof.
  by rewrite filter_app.
Qed.

Lemma group_by_spec lines : groups_of key lines (foldl (group_by key) [] lines).
Proof.
  induction lines as [|line lines IH] using rev_ind.
  - split; [apply NoDup_nil_2|]. split; [by intros ?? ?%elem_of_nil|].
    by intros ? ?%elem_of_nil.
  - rewrite foldl_snoc. destruct IH as (Hnodup & Hgroups & Hcover).
    destruct (group_by_step (foldl (group_by key) [] lines) line)
      as [[Hfresh ->]|(m1 & ls & m2 & Heq & Hfresh & ->)].
    + split; [|split].
      * rewrite fmap_app. apply NoDup_app. split; [done|]. split.
        -- intros k Hk ->%list_elem_of_singleton. done.
        -- apply NoDup_singleton.
      * intros k group [Hin|[= -> ->]%list_elem_of_singleton]%elem_of_app.
        -- destruct (Hgroups _ _ Hin) as [Hne ->]. split; [done|].
           rewrite filter_key_snoc. destruct (decide _) as [<-|]; [|by rewrite app_nil_r].
           exfalso. apply Hfresh. by apply (list_elem_of_fmap_2 fst _ _ Hin).
        -- split; [done|].
           rewrite filter_key_snoc, decide_True by done.
           rewrite (filter_none (λ l, key l = key line)); [done|].
           apply Forall_forall. intros l Hl Heq. apply Hfresh. rewrite <-Heq. by apply Hcover.
      * intros l [Hl| ->%list_elem_of_singleton]%elem_of_app; rewrite fmap_app.
        -- apply elem_of_app. left. by apply Hcover.
        -- apply elem_of_app. right. apply list_elem_of_here.
    + rewrite Heq in Hnodup, Hgroups, Hcover.
      assert ((m1 ++ (key line, ls ++ [line]) :: m2).*1
              = (m1 ++ (key line, ls) :: m2).*1) as Hkeys.
      { by rewrite !fmap_app, !fmap_cons. }
      split; [by rewrite Hkeys|]. split.
      * assert (key line ∉ m2.*1) as Hfresh2.
        { rewrite fmap_app, fmap_cons in Hnodup. apply NoDup_app in Hnodup as (_ & _ & Hn).
          by apply NoDup_cons in Hn as [? _]. }
        assert (∀ k group, (k, group) ∈ m1 ++ m2 →
                  k ≠ key line ∧ (k, group) ∈ m1 ++ (key line, ls) :: m2) as Hother.
        { intros k group Hin. split.
          - intros ->. apply elem_of_app in Hin as [Hin|Hin].
            + apply Hfresh. by apply (list_elem_of_fmap_2 fst _ _ Hin).
            + apply Hfresh2. by apply (list_elem_of_fmap_2 fst _ _ Hin).
          - apply elem_of_app in Hin as [Hin|Hin]; apply elem_of_app; [by left|].
            right. by apply list_elem_of_further. }
        intros k group Hin.
        apply elem_of_app in Hin as [Hin|Hin];
          [|apply elem_of_cons in Hin as [[= -> ->]|Hin]].
        -- destruct (Hother k group) as [Hne Hold]; [apply elem_of_app; by left|].
           destruct (Hgroups _ _ Hold) as [Hnil ->]. split; [done|].
           by rewrite filter_key_snoc, decide_False, app_nil_r by done.
        -- split; [by destruct ls|].
           destruct (Hgroups (key line) ls) as [_ Hls].
           { apply elem_of_app. right. apply list_elem_of_here. }
           by rewrite filter_key_snoc, decide_True, <-Hls by done.
        -- destruct (Hother k group) as [Hne Hold]; [apply elem_of_app; by right|].
           destruct (Hgroups _ _ Hold) as [Hnil ->]. split; [done|].
           by rewrite filter_key_snoc, decide_False, app_nil_r by done.
      * rewrite Hkeys. intros l [Hl| ->%list_elem_of_singleton]%elem_of_app.
        -- by apply Hcover.
        -- rewrite fmap_app, fmap_cons. apply elem_of_app. right. apply list_elem_of_here.
Qed.

Lemma groups_of_perm lines (groups groups' : list (K * list Line.t)) :
  groups ≡ₚ groups' → groups_of key lines groups → groups_of key lines groups'.
Proof.
  intros Hperm (Hnodup & Hgroups & Hcover). split; [by rewrite <-Hperm|].
  split.
  - intros k ls Hin. apply Hgroups. by rewrite Hperm.
  - intros line Hline. rewrite <-Hperm. by apply Hcover.
Qed.

End grouping.

(** ** The beats of the script panel and of the prompt *)

Section beats.

Import Turn.

Lemma entries_perm {V} (acc : JsText.kmap Z V) : ScriptPanel.entries acc ≡ₚ acc.
Proof.
  unfold ScriptPanel.entries. rewrite sort_perm. unfold JsText.kmap in *.
  induction acc as [|kv acc IH]; [done|].
  destruct (ScriptPanel.is_array_index kv.1) eqn:Hkv.
  - rewrite filter_cons_True, filter_cons_False by congruence.
    cbn [app]. by rewrite IH.
  - rewrite filter_cons_False, filter_cons_True by congruence.
    by rewrite <-Permutation_middle, IH.
Qed.

Lemma strictly_sorted {V} (groups : list (Z * V)) :
  StronglySorted (λ a b, (a.1 ≤ b.1)%Z) groups → NoDup groups.*1 →
  StronglySorted (λ a b, (a.1 < b.1)%Z) groups.
Proof.
  induction 1 as [|a groups Hs IH Ha]; [intros _; apply SSorted_nil|].
  rewrite fmap_cons. intros [Hfresh Hnodup]%NoDup_cons.
  apply SSorted_cons; [by apply IH|].
  apply Forall_forall. intros b Hb.
  rewrite Forall_forall in Ha. specialize (Ha b Hb).
  assert (a.1 ≠ b.1); [|lia].
  intros Heq. apply Hfresh. rewrite Heq. by apply list_elem_of_fmap_2.
Qed.

Lemma sorted_by_beat lines :
  Sorted Z.le (Line.beatIndex <$> lines) →
  StronglySorted (λ a b, (Line.beatIndex a ≤ Line.beatIndex b)%Z) lines.
Proof.
  intros Hs. apply Sorted_StronglySorted in Hs; [|intros ???; lia].
  induction lines as [|line lines IH]; [apply SSorted_nil|].
  rewrite fmap_cons in Hs. apply StronglySorted_cons in Hs as [Hall Hs].
  apply SSorted_cons; [by apply IH|]. by rewrite Forall_fmap in Hall.
Qed.

Lemma filter_sorted {A} (R : relation A) (P : A → Prop) `{!∀ x, Decision (P x)} l :
  StronglySorted R l → StronglySorted R (filter P l).
Proof.
  induction 1 as [|x l Hs IH Hx]; [apply SSorted_nil|].
  destruct (decide (P x)).
  - rewrite filter_cons_True by done. apply SSorted_cons; [done|].
    apply Forall_forall. intros y [_ Hy]%list_elem_of_filter.
    rewrite Forall_forall in Hx. by apply Hx.
  - by rewrite filter_cons_False.
Qed.

Lemma sorted_split lines k :
  StronglySorted (λ a b, (Line.beatIndex a ≤ Line.beatIndex b)%Z) lines →
  Forall (λ line, (k ≤ Line.beatIndex line)%Z) lines →
  lines = filter (λ line, Line.beatIndex line = k) lines
          ++ filter (λ line, Line.beatIndex line ≠ k) lines.
Proof.
  induction 1 as [|x lines Hs IH Hx]; [done|].
  intros [Hkx Hk]%Forall_cons.
  destruct (decide (Line.beatIndex x = k)) as [Heq|Hne].
  - rewrite filter_cons_True, filter_cons_False by (done || by intros []).
    cbn [app]. f_equal. by apply IH.
  - rewrite filter_cons_False, filter_cons_True by done.
    rewrite filter_none, filter_id; [done| |].
    + eapply Forall_impl; [exact Hx|]. simpl. intros y Hy. lia.
    + eapply Forall_impl; [exact Hx|]. simpl. intros y Hy. lia.
Qed.

Lemma concat_groups_sorted (groups : list (Z * list Line.t)) lines :
  StronglySorted (λ a b, (a.1 < b.1)%Z) groups →
  groups_of Line.beatIndex lines groups →
  StronglySorted (λ a b, (Line.beatIndex a ≤ Line.beatIndex b)%Z) lines →
  concat groups.*2 = lines.
Proof.
  intros Hs. revert lines.
  induction Hs as [|[k ls] groups Hs IH Hk]; intros lines (Hnodup & Hgroups & Hcover) Hl.
  - destruct lines as [|line lines]; [done|].
    by destruct (elem_of_nil (Line.beatIndex line)) as [Hnil _];
      destruct Hnil; apply Hcover, list_elem_of_here.
  - rewrite fmap_cons in Hnodup. apply NoDup_cons in Hnodup as [Hfresh Hnodup].
    cbn [fst] in Hfresh. rewrite Forall_forall in Hk.
    assert (∀ line, line ∈ lines →
              Line.beatIndex line = k ∨ (k < Line.beatIndex line)%Z) as Hmin.
    { intros line Hline. specialize (Hcover line Hline).
      rewrite fmap_cons in Hcover. apply elem_of_cons in Hcover as [Heq|Hin]; [by left|].
      right. apply list_elem_of_fmap in Hin as (g & -> & Hg). by apply (Hk g). }
    destruct (Hgroups k ls) as [_ Hls]; [apply list_elem_of_here|].
    rewrite fmap_cons. cbn [concat snd].
    rewrite (sorted_split lines k Hl).
    2:{ apply Forall_forall. intros line Hline. destruct (Hmin line Hline); lia. }
    rewrite <-Hls. f_equal.
    apply IH; [|by apply filter_sorted].
    split; [done|]. split.
    + intros k' ls' Hin.
      destruct (Hgroups k' ls') as [Hne ->]; [by apply list_elem_of_further|].
      split; [done|]. rewrite list_filter_filter. apply list_filter_iff.
      intros line. split; [|by intros [? _]]. intros Heq. split; [done|].
      specialize (Hk _ Hin). cbn [fst] in Hk. lia.
    + intros line [Hne Hline]%list_elem_of_filter.
      specialize (Hcover line Hline). rewrite fmap_cons in Hcover.
      by apply elem_of_cons in Hcover as [Heq|Hin].
Qed.

Lemma beats_shown_facts lines :
  ScriptPanel.beats_shown lines ≡ₚ foldl (group_by Line.beatIndex) [] lines
  ∧ StronglySorted (λ a b, (a.1 < b.1)%Z) (ScriptPanel.beats_shown lines)
  ∧ groups_of Line.beatIndex lines (ScriptPanel.beats_shown lines).
Proof.
  assert (ScriptPanel.beats_shown lines ≡ₚ foldl (group_by Line.beatIndex) [] lines)
    as Hperm.
  { unfold ScriptPanel.beats_shown. by rewrite sort_perm, entries_perm. }
  assert (groups_of Line.beatIndex lines (ScriptPanel.beats_shown lines)) as Hgroups.
  { eapply groups_of_perm; [symmetry; exact Hperm|]. apply group_by_spec. }
  split; [done|]. split; [|done].
  apply strictly_sorted; [|by destruct Hgroups].
  apply (sort_sorted _ fst). intros a b. lia.
Qed.

Lemma beats_in_order_facts lastLines :
  DirectorPrompt.beats_in_order lastLines ≡ₚ foldl (group_by Line.beatIndex) [] lastLines
  ∧ StronglySorted (λ a b, (a.1 < b.1)%Z) (DirectorPrompt.beats_in_order lastLines).
Proof.
  assert (DirectorPrompt.beats_in_order lastLines
          ≡ₚ foldl (group_by Line.beatIndex) [] lastLines) as Hperm.
  { unfold DirectorPrompt.beats_in_order. by rewrite sort_perm. }
  split; [done|].
  apply strictly_sorted.
  - apply (sort_sorted _ fst). intros a b. unfold DirectorPrompt.by_beat. lia.
  - rewrite Hperm. by destruct (group_by_spec Line.beatIndex lastLines).
Qed.

Lemma turn_lines_sorted w req st nl :
  Sorted Z.le (Line.beatIndex <$> input_lines req) →
  response (handler w req) = Success st nl →
  Sorted Z.le (Line.beatIndex <$> SceneState.lines st).
Proof.
  intros Hsorted Hok.
  apply handler_success_inv in Hok as (command & _ & _ & _ & Hok).
  destruct (DirectorAgent.runDirectorAgent _) as [r|].
  - apply primary_success_inv in Hok
      as (ds & created & _ & _ & Hmake & -> & Hlines & _).
    rewrite Hlines, initial_scene_lines, fmap_app, imap_synthesize_beats.
    destruct (make_lines_sorted _ _ _ _ _ _ Hmake) as [Hs Hge].
    apply append_sorted; try done. by rewrite <-initial_beat_eq.
  - apply fallback_success_inv in Hok as (-> & Hlines & _).
    rewrite Hlines, initial_scene_lines, fmap_app, processLinesWithTTS_beats.
    pose proof (generateMockLines_beats (World.now_lines w) (World.random w)
                  (initial_scene w req) command (initial_beat req)) as Hb.
    apply append_sorted; try done.
    + by eapply constant_sorted.
    + rewrite <-initial_beat_eq. eapply Forall_impl; [exact Hb|].
      simpl. intros b ->. lia.
Qed.

(** The beats of the script panel.  Whatever the lines, the panel lists
    the beats in strictly ascending order, one entry per beat index that
    occurs, and under each beat exactly the lines of that beat, in their
    order in the script: no line is lost or shown twice. *)
Theorem script_panel_beats lines :
  StronglySorted Z.lt (ScriptPanel.beats_shown lines).*1
  ∧ groups_of Line.beatIndex lines (ScriptPanel.beats_shown lines)
  ∧ length (concat (ScriptPanel.beats_shown lines).*2) = length lines.
Proof.
  destruct (beats_shown_facts lines) as (Hperm & Hsorted & Hgroups).
  split; [|split; [done|]].
  - eapply StronglySorted_fmap; [|exact Hsorted]. done.
  - destruct Hgroups as (Hnodup & Hgroups & Hcover).
    revert Hnodup Hgroups Hcover.
    generalize (ScriptPanel.beats_shown lines). intros groups. clear.
    revert lines. induction groups as [|[k ls] groups IH]; intros lines Hnodup Hgroups Hcover.
    + destruct lines as [|line lines]; [done|].
      by destruct (elem_of_nil (Line.beatIndex line)) as [Hnil _];
        destruct Hnil; apply Hcover, list_elem_of_here.
    + rewrite fmap_cons in Hnodup. apply NoDup_cons in Hnodup as [Hfresh Hnodup].
      cbn [fst] in Hfresh.
      destruct (Hgroups k ls) as [_ Hls]; [apply list_elem_of_here|].
      rewrite fmap_cons. cbn [concat snd]. rewrite length_app.
      rewrite (IH (filter (λ line, Line.beatIndex line ≠ k) lines)); [| done | |].
      * rewrite Hls. clear. induction lines as [|x lines IH]; [done|].
        destruct (decide (Line.beatIndex x = k)).
        -- rewrite filter_cons_True, filter_cons_False by (done || by intros []).
           simpl. lia.
        -- rewrite filter_cons_False, filter_cons_True by done. simpl. lia.
      * intros k' ls' Hin.
        destruct (Hgroups k' ls') as [Hne ->]; [by apply list_elem_of_further|].
        split; [done|]. rewrite list_filter_filter. apply list_filter_iff.
        intros line. split; [|by intros [? _]]. intros Heq. split; [done|].
        intros Hk. apply Hfresh. rewrite <-Hk, Heq. by apply (list_elem_of_fmap_2 fst _ _ Hin).
      * intros line [Hne Hline]%list_elem_of_filter.
        specialize (Hcover line Hline). rewrite fmap_cons in Hcover.
        by apply elem_of_cons in Hcover as [Heq|Hin].
Qed.

(** The script after a turn.  When the beat indices of the request's lines
    are non-decreasing, the script panel shows the lines of the scene a
    successful turn returns in their order of creation: reading the beats
    from top to bottom gives back the scene's lines. *)
Theorem script_panel_keeps_order w req st nl :
  Sorted Z.le (Line.beatIndex <$> input_lines req) →
  response (handler w req) = Success st nl →
  concat (ScriptPanel.beats_shown (SceneState.lines st)).*2 = SceneState.lines st.
Proof.
  intros Hsorted Hok.
  destruct (beats_shown_facts (SceneState.lines st)) as (_ & Hstrict & Hgroups).
  apply concat_groups_sorted; try done.
  apply sorted_by_beat. by eapply turn_lines_sorted.
Qed.

Lemma script_panel_keeps_order_witness :
  ∃ st nl,
    response (handler Sample.director_up Sample.continue_request) = Success st nl
    ∧ concat (ScriptPanel.beats_shown (SceneState.lines st)).*2 = SceneState.lines st.
Proof.
  eexists _, _. split; [vm_compute; reflexivity|].
  refine (script_panel_keeps_order Sample.director_up Sample.continue_request _ _ _ _).
  - vm_compute. repeat constructor; by vm_compute.
  - vm_compute. reflexivity.
Defined.

(** The prompt and the panel agree on the beats.  For the same lines the
    Director prompt (a [Map] sorted by key) and the script panel (an
    object's entries sorted by key) list the same beats with the same
    lines in the same order. *)
Theorem prompt_beats_match_panel lastLines :
  DirectorPrompt.beats_in_order lastLines = ScriptPanel.beats_shown lastLines.
Proof.
  destruct (beats_shown_facts lastLines) as (Hperm & Hsorted & _).
  destruct (beats_in_order_facts lastLines) as (Hperm' & Hsorted').
  eapply StronglySorted_unique_strong; [|exact Hsorted'|exact Hsorted|].
  - simpl. intros a b _ _ ??. lia.
  - by rewrite Hperm, Hperm'.
Qed.

End beats.

(** ** The speakers named in the summary *)

Section main_speakers.

Import Summarizer.

Lemma omap_set_kmap {V} (m : Js.omap V) k v : Js.omap_set m k v = JsText.kmap_set m k v.
Proof.
  induction m as [|[k' v'] m IH]; [done|]. cbn [Js.omap_set JsText.kmap_set].
  by rewrite IH.
Qed.

Lemma linesByActor_group_by recent :
  linesByActor recent = foldl (group_by Line.actorId) [] recent.
Proof.
  unfold linesByActor. generalize (@nil (string * list Line.t)).
  induction recent as [|line recent IH]; intros m; [done|]. cbn [foldl].
  rewrite <-IH. f_equal. unfold group_step, group_by. cbv zeta.
  by rewrite !omap_set_kmap.
Qed.

Lemma sorted_impl {A} (R1 R2 : relation A) l :
  (∀ a b, R1 a b → R2 a b) → StronglySorted R1 l → StronglySorted R2 l.
Proof.
  intros Himpl. induction 1 as [|x l Hs IH Hx]; [apply SSorted_nil|].
  apply SSorted_cons; [done|]. eapply Forall_impl; [exact Hx|]. apply Himpl.
Qed.

Lemma groups_count `{EqDecision K} (key : Line.t → K) lines groups :
  groups_of key lines groups → length groups = length (remove_dups (key <$> lines)).
Proof.
  intros (Hnodup & Hgroups & Hcover).
  rewrite <-(length_fmap fst groups). apply Permutation_length.
  apply NoDup_Permutation; [done|apply NoDup_remove_dups|].
  intros k. rewrite elem_of_remove_dups. split.
  - intros ([k' ls] & -> & Hin)%list_elem_of_fmap. cbn [fst].
    destruct (Hgroups _ _ Hin) as [Hne Hls].
    destruct ls as [|line ls]; [done|].
    assert (line ∈ filter (λ l, key l = k') lines) as Hline.
    { rewrite <-Hls. apply list_elem_of_here. }
    apply list_elem_of_filter in Hline as [<- Hline]. by apply list_elem_of_fmap_2.
  - intros (line & -> & Hline)%list_elem_of_fmap. by apply Hcover.
Qed.

(** The speakers the summary names.  They are the speakers of the lines
    read, at most three of them and all of them when there are fewer; each
    is listed once, with all of its lines counted; they come in
    non-increasing order of line count, and no speaker left out has more
    lines than one that is named.  The name printed is the one of the
    actor with that id. *)
Theorem main_speakers_are_the_busiest recent actors :
  ∃ top : list (string * list Line.t),
    mainSpeakers recent actors
    = (λ entry,
         speaker_name (Js.map_of ((λ actor, (Actor.id actor, actor)) <$> actors)) entry.1)
        <$> top
    ∧ length top = 3 `min` length (remove_dups (Line.actorId <$> recent))
    ∧ NoDup top.*1
    ∧ (∀ actorId ls, (actorId, ls) ∈ top →
         ls ≠ [] ∧ ls = filter (λ line, Line.actorId line = actorId) recent)
    ∧ StronglySorted (λ a b, length b.2 ≤ length a.2) top
    ∧ (∀ line, line ∈ recent → Line.actorId line ∉ top.*1 →
         ∀ entry, entry ∈ top →
           length (filter (λ l, Line.actorId l = Line.actorId line) recent)
           ≤ length entry.2).
Proof.
  set (sorted := Js.sort by_line_count (linesByActor recent)).
  assert (groups_of Line.actorId recent sorted) as Hgroups.
  { eapply groups_of_perm; [|apply group_by_spec].
    unfold sorted. by rewrite sort_perm, linesByActor_group_by. }
  assert (StronglySorted (λ a b : string * list Line.t, length b.2 ≤ length a.2) sorted)
    as Hsorted.
  { eapply sorted_impl;
      [|apply (sort_sorted by_line_count (λ e, (- Z.of_nat (length e.2))%Z))].
    - simpl. intros a b. lia.
    - intros a b. unfold by_line_count. lia. }
  exists (take 3 sorted). split; [done|].
  pose proof (take_drop 3 sorted) as Hsplit.
  rewrite <-Hsplit in Hsorted. apply StronglySorted_app in Hsorted as (Hcross & Htop & _).
  pose proof Hgroups as (Hnodup & Hin & Hcover).
  split; [|split; [|split; [|split]]].
  - by rewrite length_take, (groups_count _ _ _ Hgroups).
  - rewrite <-Hsplit, fmap_app in Hnodup. by apply NoDup_app in Hnodup as [? _].
  - intros actorId ls Htake. apply Hin. rewrite <-Hsplit. apply elem_of_app. by left.
  - done.
  - intros line Hline Hout entry Hentry.
    specialize (Hcover line Hline).
    apply list_elem_of_fmap in Hcover as ([k ls] & Hk & Hkin). cbn [fst] in Hk. subst k.
    destruct (Hin _ _ Hkin) as [_ <-].
    rewrite <-Hsplit in Hkin. apply elem_of_app in Hkin as [Hkin|Hkin].
    + destruct Hout. by apply (list_elem_of_fmap_2 fst _ _ Hkin).
    + by apply (Hcross entry (Line.actorId line, ls)).
Qed.

End main_speakers.

(** ** The mood of a fallback turn *)

Section mood.

Import Turn Summarizer.

Lemma map_chars_app f s t :
  Js.map_chars f (s +:+ t) = Js.map_chars f s +:+ Js.map_chars f t.
Proof.
  induction s as [|c s IH]; [done|].
  rewrite !app_cons. cbn [Js.map_chars]. by rewrite app_cons, IH.
Qed.

Lemma concat_elem_split sep l s :
  s ∈ l → ∃ before after, String.concat sep l = before +:+ s +:+ after.
Proof.
  induction l as [|x l IH]; [by intros ?%elem_of_nil|].
  intros Hs. destruct l as [|y l].
  - apply list_elem_of_singleton in Hs as ->.
    exists EmptyString, EmptyString. by rewrite string_app_nil_r.
  - change (String.concat sep (x :: y :: l))
      with (x +:+ sep +:+ String.concat sep (y :: l)).
    apply elem_of_cons in Hs as [->|Hs].
    + by exists EmptyString, (sep +:+ String.concat sep (y :: l)).
    + destruct (IH Hs) as (before & after & ->).
      exists (x +:+ sep +:+ before), after. by rewrite !string_app_assoc.
Qed.

Lemma search_finds_angry before s t :
  Js.search_from anger_words before (s +:+ " angry!" +:+ t) = true.
Proof.
  revert before. induction s as [|c s IH]; intros before.
  - change (EmptyString +:+ " angry!" +:+ t) with (String " " ("angry!" +:+ t)).
    cbn [Js.search_from]. apply orb_true_iff. right.
    change ("angry!" +:+ t) with (String "a" (String "n" (String "g" (String "r"
              (String "y" (String "!" t)))))).
    cbn [Js.search_from]. apply orb_true_iff. left. reflexivity.
  - rewrite app_cons. cbn [Js.search_from]. apply orb_true_iff. right. apply IH.
Qed.

Lemma generateMockLines_text now r s command beat i line :
  MockDirector.generateMockLines now r s command beat !! i = Some line →
  Js.includes (Js.toLowerCase command) "angry"
  || Js.includes (Js.toLowerCase command) "mad" = true →
  Line.text line
  = if i =? 0 then "I'm really upset about this!" else "You have no right to be angry!".
Proof.
  unfold MockDirector.generateMockLines.
  destruct (SceneState.actors s) as [|first rest]; [done|].
  rewrite list_lookup_fmap. intros Hi Hangry.
  apply fmap_Some in Hi as (j & Hj & ->). apply lookup_seq in Hj as [-> _].
  cbn [Line.text Nat.add]. unfold MockDirector.mock_text. cbv zeta. by rewrite Hangry.
Qed.

Lemma elem_of_slice_last {A} n (old recent : list A) x :
  x ∈ recent → length recent ≤ n → x ∈ Js.slice_last n (old ++ recent).
Proof.
  intros Hx Hlen. unfold Js.slice_last. rewrite length_app.
  rewrite drop_app_le by lia. apply elem_of_app. by right.
Qed.

(** The mood of a fallback turn.  When the Director is down and the
    command, in any letter case, contains [angry] or [mad] (also inside a
    longer word), a turn with a non-empty roster opens with the upset line
    and continues with the angry one, the summarizer classifies the last
    ten lines as tense whatever was said before, and the returned summary
    carries the tense sentence as soon as the actors' names have at most
    [N] characters and the previous summary leaves room for the fresh
    text. *)
Theorem angry_fallback_turns_tense w req st nl command N :
  DirectorAgent.runDirectorAgent (World.director_reply w) = None →
  userCommand req = Some command →
  Js.includes (Js.toLowerCase command) "angry"
  || Js.includes (Js.toLowerCase command) "mad" = true →
  response (handler w req) = Success st nl →
  nl ≠ [] →
  3 ≤ length nl
  ∧ (∀ i line, nl !! i = Some line →
       Line.text line
       = if i =? 0 then "I'm really upset about this!"
         else "You have no right to be angry!")
  ∧ classify (allText (recentLines (SceneState.lines st))) = tense
  ∧ (7 ≤ N →
     Forall (λ actor, String.length (Actor.name actor) ≤ N) (SceneState.actors st) →
     String.length (SceneState.summary (initial_scene w req)) + 3 * N + 398 ≤ 800 →
     Js.includes (SceneState.summary st) "The conversation has become tense." = true).
Proof.
  intros Hdown Hcommand Hangry Hok Hne.
  pose proof (turn_summary_eq _ _ _ _ Hok) as Hsummary.
  apply handler_success_inv in Hok as (command' & _ & Hcommand' & _ & Hok).
  rewrite Hcommand in Hcommand'. injection Hcommand' as <-. rewrite Hdown in Hok.
  apply fallback_success_inv in Hok as (Hnl & Hlines & _).
  set (mock := MockDirector.generateMockLines (World.now_lines w) (World.random w)
                 (initial_scene w req) command (initial_beat req)) in *.
  assert (∀ i line, nl !! i = Some line →
            Line.text line
            = if i =? 0 then "I'm really upset about this!"
              else "You have no right to be angry!") as Htexts.
  { intros i line Hi. rewrite Hnl in Hi.
    apply processLinesWithTTS_lookup in Hi as (line0 & Hi & _ & _ & -> & _).
    by eapply generateMockLines_text. }
  assert (3 ≤ length nl) as Hlen.
  { rewrite Hnl, processLinesWithTTS_length. unfold mock.
    rewrite generateMockLines_length.
    destruct (SceneState.actors (initial_scene w req)) eqn:Hactors; [|lia].
    destruct Hne. rewrite Hnl. unfold mock, MockDirector.generateMockLines.
    by rewrite Hactors. }
  assert (length nl ≤ 10) as Hshort.
  { rewrite Hnl, processLinesWithTTS_length. unfold mock.
    rewrite generateMockLines_length.
    destruct (SceneState.actors (initial_scene w req)); [lia|].
    pose proof (floor_times_lt (World.random w) 2). lia. }
  assert (classify (allText (recentLines (SceneState.lines st))) = tense) as Htense.
  { destruct (lookup_lt_is_Some_2 nl 1) as [line Hline]; [lia|].
    assert (Line.text line ∈ Line.text <$> recentLines (SceneState.lines st)) as Hin.
    { apply list_elem_of_fmap_2. rewrite Hlines. unfold recentLines.
      apply elem_of_slice_last; [by eapply list_elem_of_lookup_2|done]. }
    rewrite (Htexts 1 line Hline) in Hin. cbn [Nat.eqb] in Hin.
    destruct (concat_elem_split " " _ _ Hin) as (before & after & Hsplit).
    unfold classify, allText, Js.match_words. rewrite Hsplit.
    unfold Js.toLowerCase. rewrite !map_chars_app.
    change (Js.map_chars Js.lower_char "You have no right to be angry!")
      with ("you have no right to be" +:+ " angry!").
    rewrite string_app_assoc, <-(string_app_assoc (Js.map_chars _ before)).
    by rewrite search_finds_angry. }
  split; [done|]. split; [done|]. split; [done|].
  intros HN Hnames Hroom. rewrite Hsummary.
  change "The conversation has become tense." with (toneDescriptions tense).
  rewrite <-Htense. apply tone_sentence_in_output; [by rewrite Htense|].
  right. rewrite !string_length_app. cbn [String.length].
  pose proof (finalSummary_length N (SceneState.summary (initial_scene w req))
                (recentLines (SceneState.lines st)) (SceneState.actors st)
                HN (recentLines_length _) Hnames). lia.
Qed.

Lemma angry_fallback_turns_tense_witness :
  ∃ st nl,
    response (handler Sample.director_down Sample3.angry_request) = Success st nl
    ∧ Js.includes (SceneState.summary st) "The conversation has become tense." = true.
Proof.
  eexists _, _. split; [vm_compute; reflexivity|].
  refine (proj2 (proj2 (proj2 (angry_fallback_turns_tense
            Sample.director_down Sample3.angry_request _ _ "Make them ANGRY" 7
            _ _ _ _ _))) _ _ _).
  - reflexivity.
  - reflexivity.
  - vm_compute. reflexivity.
  - vm_compute. reflexivity.
  - done.
  - lia.
  - vm_compute. repeat constructor; lia.
  - vm_compute. lia.
Defined.

End mood.

(** ** Names, and what the page sends *)

Section page.

Import Turn.

Lemma NoDup_fmap_inj {A B} (f : A → B) (l : list A) x y :
  NoDup (f <$> l) → x ∈ l → y ∈ l → f x = f y → x = y.
Proof.
  induction l as [|a l IH]; [by intros _ ?%elem_of_nil|].
  rewrite fmap_cons. intros [Hfresh Hnodup]%NoDup_cons Hx Hy Heq.
  apply elem_of_cons in Hx as [->|Hx]; apply elem_of_cons in Hy as [->|Hy]; try done.
  - destruct Hfresh. rewrite Heq. by apply list_elem_of_fmap_2.
  - destruct Hfresh. rewrite <-Heq. by apply list_elem_of_fmap_2.
  - by apply IH.
Qed.

(** One name per speaker.  When the ids of the roster are pairwise
    distinct and no actor has an empty name, the script panel, the
    Director prompt and the summary call the speaker of a line by the same
    name: the name of the actor with the line's [actorId], and [Unknown]
    when nobody on the roster has it. *)
Theorem speaker_names_agree actors line :
  NoDup (Actor.id <$> actors) →
  (∀ actor, actor ∈ actors → Actor.name actor ≠ EmptyString) →
  ScriptPanel.shown_name actors line
  = Summarizer.speaker_name
      (Js.map_of ((λ actor, (Actor.id actor, actor)) <$> actors)) (Line.actorId line)
  ∧ ∃ language,
      DirectorPrompt.format_line actors line
      = ScriptPanel.shown_name actors line +:+ " [" +:+ language +:+ "]: "
        +:+ JsText.dquote +:+ Line.text line +:+ JsText.dquote.
Proof.
  intros Hnodup Hnames. split.
  - unfold ScriptPanel.shown_name, Summarizer.speaker_name.
    destruct (find _ actors) as [a|] eqn:Hfind.
    + apply find_some in Hfind as [Ha Hid].
      apply list_elem_of_In in Ha. apply bool_decide_eq_true in Hid.
      assert (is_Some (Js.map_of ((λ actor, (Actor.id actor, actor)) <$> actors)
                         !! Line.actorId line)) as [a' Ha'].
      { apply map_of_lookup_is_Some.
        rewrite <-list_fmap_compose, <-Hid. by apply (list_elem_of_fmap_2 _ _ a). }
      rewrite Ha'.
      apply map_of_lookup_elem, list_elem_of_fmap in Ha' as (a'' & [= Hk ->] & Hin).
      assert (a = a'') as <-.
      { eapply NoDup_fmap_inj; [exact Hnodup|done..|congruence]. }
      specialize (Hnames a Ha). by destruct (Actor.name a).
    + destruct (_ !! Line.actorId line) as [a'|] eqn:Ha'; [|done].
      apply map_of_lookup_elem, list_elem_of_fmap in Ha' as (a'' & [= Hk ->] & Hin).
      apply list_elem_of_In in Hin.
      pose proof (find_none _ _ Hfind _ Hin) as Hno. cbv beta in Hno.
      by rewrite bool_decide_eq_true_2 in Hno.
  - unfold DirectorPrompt.format_line, ScriptPanel.shown_name. cbv zeta.
    by eexists.
Qed.

Lemma speaker_names_agree_witness :
  ScriptPanel.shown_name defaultActors Sample.angry_line
  = Summarizer.speaker_name
      (Js.map_of ((λ actor, (Actor.id actor, actor)) <$> defaultActors))
      (Line.actorId Sample.angry_line).
Proof.
  refine (proj1 (speaker_names_agree defaultActors Sample.angry_line _ _)).
  - apply (bool_decide_unpack _). vm_compute. exact I.
  - intros actor Hactor.
    repeat (apply elem_of_cons in Hactor as [->|Hactor]; [done|]).
    by apply elem_of_nil in Hactor.
Defined.



End page.
